(** * Seeded search-range refinement and tiled dispatch (stereo_corr.cc)
      and the crop-window rules of StereoSession.cc

    A shallow embedding of the control flow and of the integer and
    floating-point geometry of

      - [read_search_range], [produce_lowres_disparity], [lowres_correlation]
        and [SeededCorrelatorView] of stereo_corr.cc, and
      - [StereoSession::ip_matching], [StereoSession::shared_preprocessing_hook]
        and [camera_pixel_offset] of StereoSession.cc.

    Conventions.
      - [int] values are [Z]. A [float] or [double] value is the rational
        [Q] it denotes, and every floating-point operation returns the
        value of its format nearest to the exact result, ties to even
        ([round_to]); [floor] is [Qfloor], [ceil] is [Qceiling], and the
        conversion of a floating value to [int] truncates toward zero.
        Infinities and NaNs have no counterpart: a result beyond the largest
        finite value of the format is outside the model.
      - A [PixelMask<Vector2i>] is an [option Vector2i]: [None] is an invalid
        pixel, and a default-constructed pixel is invalid.
      - Files on disk are a finite map from path to the state of the file;
        code that throws returns [inl] of the exception together with the
        state reached when it was thrown. *)

From Stdlib Require Import ZArith QArith Qround Qabs Qpower Qreduction.
From Stdlib Require Import Lia Lqa List Bool String Ascii DecimalString.
From stdpp Require Import gmap strings.

Local Open Scope Z_scope.

(** ** Floating-point formats (IEEE 754, round to nearest even)

    A format is given by the number of bits of its significand and by the
    exponent of its smallest positive value. *)

Record Format : Type := mkFormat { prec : Z; emin : Z }.

Definition binary32 : Format := mkFormat 24 (-149).
Definition binary64 : Format := mkFormat 53 (-1074).

Definition pow2 (e : Z) : Q := (2 ^ e)%Q.

(** The exponent of the leading bit of a value that is not zero:
    [2 ^ ilog2 q <= |q| < 2 ^ (ilog2 q + 1)]. *)
Definition ilog2 (q : Q) : Z :=
  let k := Z.log2 (Z.abs (Qnum q)) - Z.log2 (Zpos (Qden q)) in
  if Qle_bool (pow2 k) (Qabs q) then k else k - 1.

(** The nearest integer, a tie going to the even one. *)
Definition round_even (q : Q) : Z :=
  let f := Qfloor q in
  match (q - inject_Z f ?= 1 # 2)%Q with
  | Lt => f
  | Gt => f + 1
  | Eq => if Z.even f then f else f + 1
  end.

(** The exponent of the last bit of the significand of [q] in the format;
    [emin] is reached by the subnormal values. *)
Definition exponent (f : Format) (q : Q) : Z :=
  Z.max (emin f) (ilog2 q - prec f + 1).

(** The value of the format nearest to [q]. *)
Definition round_to (f : Format) (q : Q) : Q :=
  let q := Qred q in
  if Qeq_bool q 0 then 0%Q
  else
    let e := exponent f q in
    (inject_Z (round_even (q / pow2 e)) * pow2 e)%Q.

(** The values of a format: a significand of [prec] bits times a power of
    two that is at least [2 ^ emin]. *)
Definition representable (f : Format) (x : Q) : Prop :=
  exists m e : Z,
    (x == inject_Z m * pow2 e)%Q /\ Z.abs m <= 2 ^ prec f /\ emin f <= e.

(** Conversion to [float] and to [double]. *)
Definition float32 (q : Q) : Q := round_to binary32 q.
Definition double (q : Q) : Q := round_to binary64 q.

(** The operations on [double] and on [float]. *)
Definition dadd (a b : Q) : Q := double (a + b).
Definition dsub (a b : Q) : Q := double (a - b).
Definition dmul (a b : Q) : Q := double (a * b).
Definition ddiv (a b : Q) : Q := double (a / b).

Definition fadd (a b : Q) : Q := float32 (a + b).
Definition fsub (a b : Q) : Q := float32 (a - b).
Definition fmul (a b : Q) : Q := float32 (a * b).
Definition fdiv (a b : Q) : Q := float32 (a / b).

(** [DBL_MAX] and [DBL_MIN]: the largest finite [double] and the smallest
    positive normal one. *)
Definition DBL_MAX : Q := inject_Z ((2 ^ 53 - 1) * 2 ^ 971).
Definition DBL_MIN : Q := pow2 (-1022).

(** The unit roundoff of [double]: the relative error of one rounding. *)
Definition eps : Q := pow2 (-53).

(** Truncation toward zero. *)
Definition Qtrunc (q : Q) : Z := Z.quot (Qnum q) (Zpos (Qden q)).

(** A value stored in an [int]. Outside the range of [int] the conversion
    of a floating value is not defined by the language; the value taken
    here is the one the conversion instruction of x86-64 returns. *)
Definition to_int32 (z : Z) : Z :=
  if (- 2 ^ 31 <=? z) && (z <? 2 ^ 31) then z else - 2 ^ 31.

(** [static_cast<int>(double)] and [static_cast<int>(float)]. *)
Definition int32_of_double (q : Q) : Z := to_int32 (Qtrunc q).

(** ** Vectors

    [Vector2] holds two [double], [Vector2f] two [float]. *)

Definition Vector2i : Type := Z * Z.
Definition Vector2 : Type := Q * Q.
Definition Vector2f : Type := Q * Q.

(** [Vector2(v)] of a [Vector2i]: an [int] is a [double]. *)
Definition to_Vector2 (v : Vector2i) : Vector2 :=
  (inject_Z (fst v), inject_Z (snd v)).

(** [Vector2f(v)] of a [Vector2i]: the nearest [float]. *)
Definition to_Vector2f (v : Vector2i) : Vector2f :=
  (float32 (inject_Z (fst v)), float32 (inject_Z (snd v))).

(** [Vector2i(v)] of a floating vector. *)
Definition to_Vector2i (v : Vector2) : Vector2i :=
  (int32_of_double (fst v), int32_of_double (snd v)).

(** [a < b] on floating values. *)
Definition Qlt_bool (a b : Q) : bool := negb (Qle_bool b a).

(** [::round]: to the nearest integer, halves away from zero. *)
Definition Qround_away (q : Q) : Z :=
  if Qle_bool 0 q then Qfloor (q + (1 # 2)) else Qceiling (q - (1 # 2)).

(** [elem_quot] and [elem_prod]: component-wise quotient and product, in
    [double] when one of the vectors holds [double]. *)
Definition elem_quot (v : Vector2) (s : Vector2) : Vector2 :=
  (ddiv (fst v) (fst s), ddiv (snd v) (snd s)).

Definition elem_prod (v : Vector2) (s : Vector2) : Vector2 :=
  (dmul (fst v) (fst s), dmul (snd v) (snd s)).

(** [floor] and [ceil] of a vector. *)
Definition floor2 (v : Vector2) : Vector2 :=
  (inject_Z (Qfloor (fst v)), inject_Z (Qfloor (snd v))).

Definition ceil2 (v : Vector2) : Vector2 :=
  (inject_Z (Qceiling (fst v)), inject_Z (Qceiling (snd v))).

(** ** Vision Workbench bounding boxes

    [BBox2i] has an inclusive [min] corner and an exclusive [max] corner. *)

Module BBox2i.

Record t : Type := mk { min : Vector2i; max : Vector2i }.

(** The constructor [BBox2i(minx, miny, width, height)]. *)
Definition xywh (x y w h : Z) : t := mk (x, y) (x + w, y + h).

Definition width (b : t) : Z := fst (max b) - fst (min b).
Definition height (b : t) : Z := snd (max b) - snd (min b).

(** [empty()]: some axis has [min >= max]. *)
Definition empty (b : t) : bool :=
  (fst (max b) <=? fst (min b)) || (snd (max b) <=? snd (min b)).

(** [crop(bbox)]: raise [min] and lower [max] to those of [c]. *)
Definition crop (b c : t) : t :=
  mk (if fst (min b) <? fst (min c) then fst (min c) else fst (min b),
      if snd (min b) <? snd (min c) then snd (min c) else snd (min b))
     (if fst (max c) <? fst (max b) then fst (max c) else fst (max b),
      if snd (max c) <? snd (max b) then snd (max c) else snd (max b)).

(** [expand(offset)]. *)
Definition expand (b : t) (k : Z) : t :=
  mk (fst (min b) - k, snd (min b) - k) (fst (max b) + k, snd (max b) + k).

(** [contains(point)]: [min <= point < max] on both axes. *)
Definition contains (b : t) (p : Vector2i) : bool :=
  (fst (min b) <=? fst p) && (fst p <? fst (max b)) &&
  (snd (min b) <=? snd p) && (snd p <? snd (max b)).

(** [operator==] and [operator!=]. *)
Definition eqb (a b : t) : bool :=
  (fst (min a) =? fst (min b)) && (snd (min a) =? snd (min b)) &&
  (fst (max a) =? fst (max b)) && (snd (max a) =? snd (max b)).

Definition neqb (a b : t) : bool := negb (eqb a b).

(** Box inclusion, used to compare search ranges. *)
Definition subset (a b : t) : Prop :=
  fst (min b) <= fst (min a) /\ snd (min b) <= snd (min a) /\
  fst (max a) <= fst (max b) /\ snd (max a) <= snd (max b).

End BBox2i.

(** [BBox2f]: a box whose corners hold [float]. *)
Module BBox2f.

Record t : Type := mk { min : Vector2f; max : Vector2f }.

Definition xywh (x y w h : Q) : t := mk (x, y) (fadd x w, fadd y h).

(** A [BBox2i] assigned to a [BBox2f]. *)
Definition of_int (b : BBox2i.t) : t :=
  mk (to_Vector2f (BBox2i.min b)) (to_Vector2f (BBox2i.max b)).

(** A [BBox2f] handed over where a [BBox2i] is expected. *)
Definition to_int (b : t) : BBox2i.t :=
  BBox2i.mk (to_Vector2i (min b)) (to_Vector2i (max b)).

Definition expand (b : t) (k : Q) : t :=
  mk (fsub (fst (min b)) k, fsub (snd (min b)) k)
     (fadd (fst (max b)) k, fadd (snd (max b)) k).

(** [if (p < m) m = p] and [if (p > m) m = p]. *)
Definition Qmin' (m p : Q) : Q := if Qlt_bool p m then p else m.
Definition Qmax' (m p : Q) : Q := if Qlt_bool m p then p else m.

(** [grow(point)] on a box that already holds a point. *)
Definition grow_point (b : t) (p : Vector2) : t :=
  mk (Qmin' (fst (min b)) (fst p), Qmin' (snd (min b)) (snd p))
     (Qmax' (fst (max b)) (fst p), Qmax' (snd (max b)) (snd p)).

(** [grow(bbox)]: grow by the two corners of the other box. *)
Definition grow (b c : t) : t := grow_point (grow_point b (min c)) (max c).

(** [min() -= v] and [max() += v]. *)
Definition min_sub (b : t) (v : Vector2f) : t :=
  mk (fsub (fst (min b)) (fst v), fsub (snd (min b)) (snd v)) (max b).

Definition max_add (b : t) (v : Vector2f) : t :=
  mk (min b) (fadd (fst (max b)) (fst v), fadd (snd (max b)) (snd v)).

Definition subset (a b : t) : Prop :=
  (fst (min b) <= fst (min a) /\ snd (min b) <= snd (min a) /\
   fst (max a) <= fst (max b) /\ snd (max a) <= snd (max b))%Q.

End BBox2f.

(** [BBox2]: a box whose corners hold [double]. *)
Module BBox2.

Record t : Type := mk { min : Vector2; max : Vector2 }.

(** The default constructor: the empty box whose corners are at the
    opposite ends of the range of [double]. *)
Definition default : t :=
  mk (DBL_MAX, DBL_MAX) ((- DBL_MAX)%Q, (- DBL_MAX)%Q).

(** [grow(point)]: [if (p > max) max = p; if (p < min) min = p]. *)
Definition grow_point (b : t) (p : Vector2) : t :=
  mk (BBox2f.Qmin' (fst (min b)) (fst p), BBox2f.Qmin' (snd (min b)) (snd p))
     (BBox2f.Qmax' (fst (max b)) (fst p), BBox2f.Qmax' (snd (max b)) (snd p)).

End BBox2.

(** [grow_bbox_to_int]: the enclosing integer box,
    [(int32)floor(min)] and [(int32)floor(max) + 1]. *)
Definition grow_corners_to_int (lo hi : Vector2) : BBox2i.t :=
  BBox2i.mk (to_int32 (Qfloor (fst lo)), to_int32 (Qfloor (snd lo)))
            (to_int32 (Qfloor (fst hi)) + 1, to_int32 (Qfloor (snd hi)) + 1).

Definition grow_bbox_to_int (b : BBox2f.t) : BBox2i.t :=
  grow_corners_to_int (BBox2f.min b) (BBox2f.max b).

Definition grow_bbox2_to_int (b : BBox2.t) : BBox2i.t :=
  grow_corners_to_int (BBox2.min b) (BBox2.max b).

(** ** Images and disparity fields *)

Definition PixelMask : Type := option Vector2i.

Record ImageView (A : Type) : Type :=
  mkImage { cols : Z; rows : Z; px : Z -> Z -> A }.
Arguments mkImage {A}.
Arguments cols {A}.
Arguments rows {A}.
Arguments px {A}.

Definition DispSeedImageType : Type := ImageView PixelMask.

(** [ImageView<pixel_type>(w, h)]: every pixel default-constructed. *)
Definition blank_image (w h : Z) : ImageView PixelMask :=
  mkImage w h (fun _ _ => None).

Definition bounding_box {A} (img : ImageView A) : BBox2i.t :=
  BBox2i.xywh 0 0 (cols img) (rows img).

(** [crop(image, bbox)]: a view of the pixels of [img] under [bbox]. The
    source reads [img] at the pixels of the view, so the view has a
    meaning where [bbox] lies inside the extent of [img]; the statements
    that depend on the pixels of a crop say that it does. *)
Definition crop {A} (img : ImageView A) (b : BBox2i.t) : ImageView A :=
  mkImage (BBox2i.width b) (BBox2i.height b)
          (fun x y => px img (x + fst (BBox2i.min b)) (y + snd (BBox2i.min b))).

(** The integers [lo, lo+1, ..., hi-1] of a [for] loop. *)
Definition zrange (lo hi : Z) : list Z :=
  List.map (fun i => lo + Z.of_nat i) (seq 0 (Z.to_nat (hi - lo))).

(** The pixels visited by [for_each_pixel]. *)
Definition pixels {A} (img : ImageView A) : list A :=
  flat_map (fun y => List.map (fun x => px img x y) (zrange 0 (cols img)))
           (zrange 0 (rows img)).

(** Pixel-wise [+] and [-] of masked pixels: valid when both are. *)
Definition pixel_add (a b : PixelMask) : PixelMask :=
  match a, b with
  | Some (ax, ay), Some (bx, by_) => Some (ax + bx, ay + by_)
  | _, _ => None
  end.

Definition pixel_sub (a b : PixelMask) : PixelMask :=
  match a, b with
  | Some (ax, ay), Some (bx, by_) => Some (ax - bx, ay - by_)
  | _, _ => None
  end.

Definition image_zip {A B C} (f : A -> B -> C)
    (a : ImageView A) (b : ImageView B) : ImageView C :=
  mkImage (cols a) (rows a) (fun x y => f (px a x y) (px b x y)).

(** [EWMinMaxAccumulator] under [PixelAccumulator]: element-wise minimum
    and maximum of the valid pixels seen so far. *)
Definition accumulate (acc : option (Vector2i * Vector2i)) (p : PixelMask)
    : option (Vector2i * Vector2i) :=
  match p with
  | None => acc
  | Some v =>
      match acc with
      | None => Some (v, v)
      | Some (lo, hi) =>
          Some ((Z.min (fst lo) (fst v), Z.min (snd lo) (snd v)),
                (Z.max (fst hi) (fst v), Z.max (snd hi) (snd v)))
      end
  end.

(** [stereo::get_disparity_range] (Vision Workbench): the [BBox2f] spanned
    by the valid disparities, and [BBox2f(0,0,0,0)] when there is none. *)
Definition get_disparity_range (img : DispSeedImageType) : BBox2f.t :=
  match fold_left accumulate (pixels img) None with
  | None => BBox2f.xywh 0 0 0 0
  | Some (lo, hi) => BBox2f.mk (to_Vector2f lo) (to_Vector2f hi)
  end.

(** ** Homographies *)

Record Matrix3x3 : Type := mkMatrix {
  h00 : Q; h01 : Q; h02 : Q;
  h10 : Q; h11 : Q; h12 : Q;
  h20 : Q; h21 : Q; h22 : Q }.

Definition identity_matrix : Matrix3x3 :=
  mkMatrix 1 0 0 0 1 0 0 0 1.

(** [Matrix<double> * Vector3]: each row times the vector, the products
    summed from left to right. *)
Definition matrix_times_vector (m : Matrix3x3) (v : Q * Q * Q) : Q * Q * Q :=
  let '(x, y, z) := v in
  (dadd (dadd (dmul (h00 m) x) (dmul (h01 m) y)) (dmul (h02 m) z),
   dadd (dadd (dmul (h10 m) x) (dmul (h11 m) y)) (dmul (h12 m) z),
   dadd (dadd (dmul (h20 m) x) (dmul (h21 m) y)) (dmul (h22 m) z)).

(** Matrix times the column vector [(x, y, 1)], in exact arithmetic. *)
Definition mat_apply (m : Matrix3x3) (p : Vector2) : Q * Q * Q :=
  ((h00 m * fst p + h01 m * snd p + h02 m)%Q,
   (h10 m * fst p + h11 m * snd p + h12 m)%Q,
   (h20 m * fst p + h21 m * snd p + h22 m)%Q).

(** [HomographyTransform::forward]. *)
Definition forward (m : Matrix3x3) (p : Vector2) : Vector2 :=
  let '(x, y, w) := mat_apply m p in ((x / w)%Q, (y / w)%Q).

(** Modelled from the spec: [transform_disparities] of
    asp/Core/LocalHomography.h, which is not among the sources. The spec
    applies the tile's homography to the seed disparity vectors, with the
    coordinates rounded to integers after the transform. The homography maps
    coordinates of the second image, so the end point (pixel plus disparity)
    of each valid vector is mapped and the pixel subtracted again; invalid
    pixels stay invalid. [subregion] places the cropped field in the seed.
    The spec does not say in which arithmetic; it is exact here. *)
Definition transform_disparities (do_round : bool) (subregion : BBox2i.t)
    (T : Matrix3x3) (disp : DispSeedImageType) : DispSeedImageType :=
  mkImage (cols disp) (rows disp)
    (fun x y =>
       match px disp x y with
       | None => None
       | Some d =>
           let beg := (fst (BBox2i.min subregion) + x,
                       snd (BBox2i.min subregion) + y) in
           let end_ := (fst beg + fst d, snd beg + snd d) in
           let tend := forward T (to_Vector2 end_) in
           let diff := ((fst tend - inject_Z (fst beg))%Q,
                        (snd tend - inject_Z (snd beg))%Q) in
           if do_round
           then Some (Qround_away (fst diff), Qround_away (snd diff))
           else Some (Qtrunc (fst diff), Qtrunc (snd diff))
       end).

(** ** Exceptions and the state-and-exception monad *)

Inductive Exception : Type :=
| IOErr (msg : string)
| ArgumentErr (msg : string)
| NoImplErr (msg : string).

(** A computation over a state [S]: it returns a value or throws, and in
    both cases leaves the state it reached. *)
Definition M (S A : Type) : Type := S -> (Exception + A) * S.

Definition ret {S A} (a : A) : M S A := fun s => (inr a, s).

Definition bind {S A B} (m : M S A) (k : A -> M S B) : M S B :=
  fun s =>
    match m s with
    | (inl e, s') => (inl e, s')
    | (inr a, s') => k a s'
    end.

Definition vw_throw {S A} (e : Exception) : M S A := fun s => (inl e, s).

Definition modify {S} (f : S -> S) : M S unit := fun s => (inr tt, f s).

(** [try { body } catch (...) { handler }] for the exceptions [catches]
    selects; any other exception propagates. *)
Definition try_catch {S A} (body : M S A) (catches : Exception -> bool)
    (handler : M S A) : M S A :=
  fun s =>
    match body s with
    | (inl e, s') => if catches e then handler s' else (inl e, s')
    | r => r
    end.

Notation "'let!' x ':=' c 'in' k" := (bind c (fun x => k))
  (at level 10, x name, c at level 100, k at level 200).

(** ** Settings ([stereo_settings()]) *)

Record StereoSettings : Type := mkSettings {
  seed_mode : Z;
  use_local_homography : bool;
  search_range : BBox2i.t;
  left_image_crop_win : BBox2i.t;
  right_image_crop_win : BBox2i.t;
  trans_crop_win : BBox2i.t;
  seed_percent_pad : Q;
  corr_timeout : Z;
  corr_blob_filter_area : Z;
  rm_quantile_percentile : Q;
  rm_quantile_multiple : Q;
  rm_threshold : Q;
  rm_min_matches : Z;
  alignment_method : string
}.

(** The crop test that stereo_corr.cc and StereoSession.cc share: both
    windows differ from [BBox2i(0, 0, 0, 0)]. *)
Definition crop_left_and_right (s : StereoSettings) : bool :=
  BBox2i.neqb (left_image_crop_win s) (BBox2i.xywh 0 0 0 0) &&
  BBox2i.neqb (right_image_crop_win s) (BBox2i.xywh 0 0 0 0).

(** ** SeededCorrelatorView *)

Record SeededCorrelatorView : Type := mkView {
  m_left_cols : Z;
  m_left_rows : Z;
  m_sub_disp : DispSeedImageType;
  m_sub_disp_spread : DispSeedImageType;
  m_local_hom : ImageView Matrix3x3;
  m_upscale_factor : Vector2;
  m_seed_bbox : BBox2i.t;
  m_trans_crop_win : BBox2i.t
}.

(** The constructor: the upscale factor is the measured ratio of the image
    sizes, a [double] quotient, the seed box the extent of the seed field. *)
Definition make_SeededCorrelatorView (left_cols left_rows : Z)
    (sub_disp sub_disp_spread : DispSeedImageType)
    (local_hom : ImageView Matrix3x3) (crop_win : BBox2i.t)
    : SeededCorrelatorView :=
  mkView left_cols left_rows sub_disp sub_disp_spread local_hom
         (ddiv (inject_Z left_cols) (inject_Z (cols sub_disp)),
          ddiv (inject_Z left_rows) (inject_Z (rows sub_disp)))
         (bounding_box sub_disp) crop_win.

(** [CropView<ImageView<pixel_type>>]: pixel [(x, y)] of the view is pixel
    [(x + ci, y + cj)] of the child. *)
Record CropView : Type := mkCrop {
  child : ImageView PixelMask; ci : Z; cj : Z; cw : Z; ch : Z }.

Definition cv_get (c : CropView) (x y : Z) : PixelMask :=
  px (child c) (x + ci c) (y + cj c).

Definition cv_set (c : CropView) (x y : Z) (v : PixelMask) : CropView :=
  mkCrop (mkImage (cols (child c)) (rows (child c))
            (fun a b => if (a =? x + ci c) && (b =? y + cj c) then v
                        else px (child c) a b))
         (ci c) (cj c) (cw c) (ch c).

(** *** The search range of a tile: the first half of [prerasterize_helper] *)

(** The low-resolution version of the tile, grown by one and clipped. *)
Definition seed_bbox_of (v : SeededCorrelatorView) (bbox : BBox2i.t)
    : BBox2i.t :=
  let lo := elem_quot (to_Vector2 (BBox2i.min bbox)) (m_upscale_factor v) in
  let hi := elem_quot (to_Vector2 (BBox2i.max bbox)) (m_upscale_factor v) in
  let b := BBox2i.mk (to_Vector2i lo) (to_Vector2i hi) in
  BBox2i.crop (BBox2i.expand b 1) (m_seed_bbox v).

Definition do_round : bool := true.

(** [lowres_hom = m_local_hom(bbox.min().x()/ts, bbox.min().y()/ts)]. *)
Definition lowres_hom_of (ts : Z) (v : SeededCorrelatorView)
    (bbox : BBox2i.t) : Matrix3x3 :=
  px (m_local_hom v) (Z.quot (fst (BBox2i.min bbox)) ts)
                     (Z.quot (snd (BBox2i.min bbox)) ts).

(** The range read from the seed, before any spread. *)
Definition seed_range (s : StereoSettings) (ts : Z)
    (v : SeededCorrelatorView) (bbox : BBox2i.t) : BBox2f.t :=
  let seed_bbox := seed_bbox_of v bbox in
  let disparity_in_box := crop (m_sub_disp v) seed_bbox in
  if negb (use_local_homography s)
  then get_disparity_range disparity_in_box
  else get_disparity_range
         (transform_disparities do_round seed_bbox (lowres_hom_of ts v bbox)
                                disparity_in_box).

Definition has_sub_disp_spread (v : SeededCorrelatorView) : bool :=
  negb (cols (m_sub_disp_spread v) =? 0) &&
  negb (rows (m_sub_disp_spread v) =? 0).

(** The sanity check on the sizes of the seed and of its spread. *)
Definition spread_size_check_fails (v : SeededCorrelatorView) : bool :=
  has_sub_disp_spread v &&
  negb (cols (m_sub_disp_spread v) =? cols (m_sub_disp v)) &&
  negb (rows (m_sub_disp_spread v) =? rows (m_sub_disp v)).

(** The range widened by the spread field. *)
Definition spread_range (s : StereoSettings) (ts : Z)
    (v : SeededCorrelatorView) (bbox : BBox2i.t)
    (local_search_range : BBox2f.t) : BBox2f.t :=
  let seed_bbox := seed_bbox_of v bbox in
  let disparity_in_box := crop (m_sub_disp v) seed_bbox in
  let spread_in_box := crop (m_sub_disp_spread v) seed_bbox in
  if negb (use_local_homography s)
  then
    let spread := get_disparity_range spread_in_box in
    BBox2f.max_add (BBox2f.min_sub local_search_range (BBox2f.max spread))
                   (BBox2f.max spread)
  else
    let lowres_hom := lowres_hom_of ts v bbox in
    let upper_disp :=
      transform_disparities do_round seed_bbox lowres_hom
        (image_zip pixel_add disparity_in_box spread_in_box) in
    let lower_disp :=
      transform_disparities do_round seed_bbox lowres_hom
        (image_zip pixel_sub disparity_in_box spread_in_box) in
    let upper_range := get_disparity_range upper_disp in
    let lower_range := get_disparity_range lower_disp in
    BBox2f.grow upper_range lower_range.

(** Scaling to full resolution: [floor] of the [min] corner and [ceil] of
    the [max] corner of the box times the upscale factor. The products are
    [double]; the corners they are assigned to are [float]. *)
Definition scale_to_fullres (upscale : Vector2) (b : BBox2f.t) : BBox2f.t :=
  let lo := floor2 (elem_prod (BBox2f.min b) upscale) in
  let hi := ceil2 (elem_prod (BBox2f.max b) upscale) in
  BBox2f.mk (float32 (fst lo), float32 (snd lo))
            (float32 (fst hi), float32 (snd hi)).

(** The range before rounding: seed range, then spread if there is one. *)
Definition unrounded_range (s : StereoSettings) (ts : Z)
    (v : SeededCorrelatorView) (bbox : BBox2i.t) : BBox2f.t :=
  let r := seed_range s ts v bbox in
  if has_sub_disp_spread v then spread_range s ts v bbox r else r.

(** The end of line that closes the messages of the source. *)
Definition newline : string := String "010"%char EmptyString.

Definition spread_size_message : string :=
  "stereo_corr: D_sub and D_sub_spread must have equal sizes." +:+ newline.

(** The [BBox2f local_search_range] of [prerasterize_helper] when it
    reaches the correlator, or the exception of the sanity check. *)
Definition local_search_range_f (s : StereoSettings) (ts : Z)
    (v : SeededCorrelatorView) (bbox : BBox2i.t) : Exception + BBox2f.t :=
  if 0 <? seed_mode s then
    if spread_size_check_fails v
    then inl (ArgumentErr spread_size_message)
    else
      let r := unrounded_range s ts v bbox in
      let r := BBox2f.of_int (grow_bbox_to_int r) in
      let r := BBox2f.expand r 1 in
      inr (scale_to_fullres (m_upscale_factor v) r)
  else inr (BBox2f.of_int (search_range s)).

(** [local_search_range] as the correlator receives it: its constructor
    takes a [BBox2i]. *)
Definition local_search_range (s : StereoSettings) (ts : Z)
    (v : SeededCorrelatorView) (bbox : BBox2i.t) : Exception + BBox2i.t :=
  match local_search_range_f s ts v bbox with
  | inl e => inl e
  | inr r => inr (BBox2f.to_int r)
  end.

(** *** The dispatcher: [prerasterize_helper] and [prerasterize] *)

(** One invocation of the matching engine for a tile: whether the right
    image was warped, the search range handed over and the tile. *)
Record EngineCall : Type := mkCall {
  call_warped : bool; call_range : BBox2i.t; call_tile : BBox2i.t }.

(** Setting to invalid, in [disparity], the pixels of [bbox] that are
    outside [win]: the two nested loops at the end of [prerasterize]. *)
Definition mask_outside (win bbox : BBox2i.t) (disparity : CropView)
    : CropView :=
  fold_left
    (fun d col =>
       fold_left
         (fun d row =>
            if negb (BBox2i.contains win (col, row))
            then cv_set d col row None else d)
         (zrange (snd (BBox2i.min bbox)) (snd (BBox2i.max bbox))) d)
    (zrange (fst (BBox2i.min bbox)) (fst (BBox2i.max bbox))) disparity.

Section Dispatcher.

(** The external matching engine, [PyramidCorrelationView::prerasterize]. *)
Variable pyramid_correlation : EngineCall -> CropView.

Variable settings : StereoSettings.

(** [ASPGlobalOptions::corr_tile_size()]. *)
Variable corr_tile_size : Z.

(** The state is the log of the engine's invocations. *)
Definition prerasterize_helper (v : SeededCorrelatorView) (bbox : BBox2i.t)
    : M (list EngineCall) CropView :=
  match local_search_range settings corr_tile_size v bbox with
  | inl e => vw_throw e
  | inr r =>
      let call := mkCall (use_local_homography settings) r bbox in
      let! _ := modify (fun log => log ++ [call]) in
      ret (pyramid_correlation call)
  end.

Definition prerasterize (v : SeededCorrelatorView) (bbox : BBox2i.t)
    : M (list EngineCall) CropView :=
  let intersection := BBox2i.crop bbox (m_trans_crop_win v) in
  if BBox2i.empty intersection then
    ret (mkCrop (blank_image (BBox2i.width bbox) (BBox2i.height bbox))
                (- fst (BBox2i.min bbox)) (- snd (BBox2i.min bbox))
                (m_left_cols v) (m_left_rows v))
  else
    let! disparity := prerasterize_helper v bbox in
    ret (mask_outside (m_trans_crop_win v) bbox disparity).

End Dispatcher.

(** ** The global search range from matched interest points

    The loop of [lowres_correlation] over the recorded matches. *)

(** The position of an interest point: two [float]. *)
Record InterestPoint : Type := mkIP { ip_x : Q; ip_y : Q }.

(** The test that skips points outside the transformed images. *)
Definition outside_images (left_size right_size l r : Vector2) : bool :=
  Qlt_bool (fst left_size) (fst l) || Qlt_bool (snd left_size) (snd l) ||
  Qlt_bool (fst right_size) (fst r) || Qlt_bool (snd right_size) (snd r) ||
  Qlt_bool (fst l) 0 || Qlt_bool (snd l) 0 ||
  Qlt_bool (fst r) 0 || Qlt_bool (snd r) 0.

(** One iteration of the loop; [continue] leaves the box as it is. *)
Definition ip_loop_body (align_left_matrix align_right_matrix : Matrix3x3)
    (left_size right_size : Vector2) (search_range : BBox2.t)
    (ips : InterestPoint * InterestPoint) : BBox2.t :=
  let '(ip1, ip2) := ips in
  let '(r0, r1, r2) :=
    matrix_times_vector align_right_matrix (ip_x ip2, ip_y ip2, 1%Q) in
  let '(l0, l1, l2) :=
    matrix_times_vector align_left_matrix (ip_x ip1, ip_y ip1, 1%Q) in
  if Qeq_bool l2 0 || Qeq_bool r2 0 then search_range
  else
    let r := (ddiv r0 r2, ddiv r1 r2) in
    let l := (ddiv l0 l2, ddiv l1 l2) in
    if outside_images left_size right_size l r then search_range
    else
      let this_disparity := (dsub (fst r) (fst l), dsub (snd r) (snd l)) in
      BBox2.grow_point search_range this_disparity.

(** The search range of the matches: the default-constructed box grown by
    the surviving differences, then [grow_bbox_to_int]. The match file
    holds as many points for the right image as for the left one. *)
Definition ip_search_range (align_left_matrix align_right_matrix : Matrix3x3)
    (left_size right_size : Vector2)
    (ip1 ip2 : list InterestPoint) : BBox2i.t :=
  grow_bbox2_to_int
    (fold_left
       (ip_loop_body align_left_matrix align_right_matrix
                     left_size right_size)
       (combine ip1 ip2) BBox2.default).

(** ** The world of a run: settings, files and calls to collaborators *)

Inductive File : Type :=
| ImageFile (img : DispSeedImageType)
| DataFile
| CorruptFile.

Inductive CostFunctionType : Type :=
| ABSOLUTE_DIFFERENCE
| SQUARED_DIFFERENCE
| CROSS_CORRELATION
| CENSUS_TRANSFORM
| TERNARY_CENSUS_TRANSFORM.

(** The arguments of [pyramid_correlate] that the low-resolution stage
    chooses. *)
Record PyramidArgs : Type := mkPyramidArgs {
  pa_search_range : BBox2i.t;
  pa_cost_mode : CostFunctionType;
  pa_corr_timeout : Z;
  pa_collar_size : Z;
  pa_blob_filter_area : Q
}.

Inductive Event : Type :=
| PyramidCorrelate (args : PyramidArgs)
| RmOutliersUsingThresh (kernel_h kernel_v : Z) (threshold min_matches : Q)
| RmOutliersUsingQuantiles (percentile multiple : Q)
| ProduceDemDisparity
| UsingCachedDsub (file : string)
| UsingCachedMatchFile (file : string)
| UsingCachedNormalizedImages
| WriteCroppedImage (file : string)
| IpMatchingWAlignment (match_filename : string)
| HomographyIpMatching (match_filename : string).

Record World : Type := mkWorld {
  stereo_settings : StereoSettings;
  files : gmap string File;
  events : list Event
}.

Definition set_search_range (r : BBox2i.t) (s : StereoSettings)
    : StereoSettings :=
  mkSettings (seed_mode s) (use_local_homography s) r
             (left_image_crop_win s) (right_image_crop_win s)
             (trans_crop_win s) (seed_percent_pad s) (corr_timeout s)
             (corr_blob_filter_area s) (rm_quantile_percentile s)
             (rm_quantile_multiple s) (rm_threshold s) (rm_min_matches s)
             (alignment_method s).

Definition get_settings : M World StereoSettings :=
  fun w => (inr (stereo_settings w), w).

Definition put_search_range (r : BBox2i.t) : M World unit :=
  modify (fun w => mkWorld (set_search_range r (stereo_settings w))
                           (files w) (events w)).

Definition log_event (e : Event) : M World unit :=
  modify (fun w => mkWorld (stereo_settings w) (files w) (events w ++ [e])).

(** [boost::filesystem::exists]. *)
Definition fs_exists (f : string) : M World bool :=
  fun w => (inr (bool_decide (is_Some (files w !! f))), w).

(** [boost::filesystem::remove]. *)
Definition fs_remove (f : string) : M World unit :=
  modify (fun w => mkWorld (stereo_settings w) (delete f (files w))
                           (events w)).

(** Writing an image file. *)
Definition write_image (f : string) (img : DispSeedImageType) : M World unit :=
  modify (fun w => mkWorld (stereo_settings w)
                           (<[f := ImageFile img]> (files w)) (events w)).

(** Opening an image file ([DiskImageView], [DiskImageResource::open],
    [read_image]): [IOErr] for a missing file, [ArgumentErr] for a file
    that is not a readable image. *)
Definition open_image (f : string) : M World DispSeedImageType :=
  fun w =>
    match files w !! f with
    | Some (ImageFile img) => (inr img, w)
    | Some _ => (inl (ArgumentErr f), w)
    | None => (inl (IOErr f), w)
    end.

Definition is_IOErr_or_ArgumentErr (e : Exception) : bool :=
  match e with
  | IOErr _ | ArgumentErr _ => true
  | _ => false
  end.

(** ** stereo_corr.cc: the low-resolution stage *)

Definition DEFAULT_COLLAR_SIZE : Z := 512.

Record ASPGlobalOptions : Type := mkOptions {
  out_prefix : string;
  raster_tile_size : Vector2i
}.

Definition downsample_scale_of (left_sub Lmask : DispSeedImageType)
    : Vector2 :=
  (ddiv (inject_Z (cols left_sub)) (inject_Z (cols Lmask)),
   ddiv (inject_Z (rows left_sub)) (inject_Z (rows Lmask))).

(** [read_search_range]: read the search range from D_sub and scale it to
    the full image. *)
Definition read_search_range (opt : ASPGlobalOptions) : M World unit :=
  let! s := get_settings in
  if seed_mode s =? 0 then ret tt
  else
    let! Lmask := open_image (out_prefix opt +:+ "-lMask.tif") in
    let! Rmask := open_image (out_prefix opt +:+ "-rMask.tif") in
    let! left_sub := open_image (out_prefix opt +:+ "-L_sub.tif") in
    let! right_sub := open_image (out_prefix opt +:+ "-R_sub.tif") in
    let downsample_scale := downsample_scale_of left_sub Lmask in
    let d_sub_file := out_prefix opt +:+ "-D_sub.tif" in
    let! found := fs_exists d_sub_file in
    if negb found then ret tt
    else
      let! sub_disp := open_image d_sub_file in
      let search_range := BBox2f.to_int (get_disparity_range sub_disp) in
      let lo := floor2 (elem_quot (to_Vector2 (BBox2i.min search_range))
                                  downsample_scale) in
      let hi := ceil2 (elem_quot (to_Vector2 (BBox2i.max search_range))
                                 downsample_scale) in
      put_search_range (BBox2i.mk (to_Vector2i lo) (to_Vector2i hi)).

Section LowRes.

(** The external collaborators of the low-resolution stage. *)
Variable pyramid_correlate : PyramidArgs -> DispSeedImageType.
Variable rm_outliers_using_thresh :
  Z -> Z -> Q -> Q -> DispSeedImageType -> DispSeedImageType.
Variable rm_outliers_using_quantiles :
  Q -> Q -> DispSeedImageType -> DispSeedImageType.
Variable produce_dem_disparity : ASPGlobalOptions -> M World unit.

(** [produce_lowres_disparity]: produces the low-resolution disparity file
    D_sub. The calls to the engine and to the filters are logged; the
    timing probe [calc_seconds_per_op] and the arguments of the engine that
    the stage does not choose are left out. The arguments of the two
    filters are logged as the expressions of the source, not evaluated. *)
Definition produce_lowres_disparity (opt : ASPGlobalOptions) : M World unit :=
  let! Lmask := open_image (out_prefix opt +:+ "-lMask.tif") in
  let! Rmask := open_image (out_prefix opt +:+ "-rMask.tif") in
  let! left_sub := open_image (out_prefix opt +:+ "-L_sub.tif") in
  let! right_sub := open_image (out_prefix opt +:+ "-R_sub.tif") in
  let! left_mask_sub := open_image (out_prefix opt +:+ "-lMask_sub.tif") in
  let! right_mask_sub := open_image (out_prefix opt +:+ "-rMask_sub.tif") in
  let downsample_scale := downsample_scale_of left_sub Lmask in
  let mean_scale :=
    ddiv (dadd (fst downsample_scale) (snd downsample_scale)) 2 in
  let! s := get_settings in
  let lo := floor2 (elem_prod downsample_scale
                              (to_Vector2 (BBox2i.min (search_range s)))) in
  let hi := ceil2 (elem_prod downsample_scale
                             (to_Vector2 (BBox2i.max (search_range s)))) in
  let search_range := BBox2i.mk (to_Vector2i lo) (to_Vector2i hi) in
  let! _ :=
    if seed_mode s =? 1 then
      let pad := fdiv (seed_percent_pad s) 2 in
      let expansion :=
        to_Vector2i
          (fmul (float32 (inject_Z (BBox2i.width search_range))) pad,
           fmul (float32 (inject_Z (BBox2i.height search_range))) pad) in
      let search_range :=
        BBox2i.mk (fst (BBox2i.min search_range) - fst expansion,
                   snd (BBox2i.min search_range) - snd expansion)
                  (fst (BBox2i.max search_range) + fst expansion,
                   snd (BBox2i.max search_range) + snd expansion) in
      let cost_mode := CROSS_CORRELATION in
      let corr_timeout := 5 * corr_timeout s in
      if Qle_bool (rm_quantile_multiple s) 0 then
        let collar_size :=
          if (cols left_sub <? fst (raster_tile_size opt)) &&
             (rows left_sub <? snd (raster_tile_size opt))
          then 0 else DEFAULT_COLLAR_SIZE in
        let args :=
          mkPyramidArgs search_range cost_mode corr_timeout collar_size
            (dmul (inject_Z (corr_blob_filter_area s)) mean_scale) in
        let! _ := log_event (PyramidCorrelate args) in
        let threshold := (rm_threshold s * 2 / 3)%Q in
        let min_matches :=
          (inject_Z (rm_min_matches s) / 100 * (1 # 2) / (6 # 10))%Q in
        let! _ := log_event (RmOutliersUsingThresh 1 1 threshold
                                                   min_matches) in
        write_image (out_prefix opt +:+ "-D_sub.tif")
          (rm_outliers_using_thresh 1 1 threshold min_matches
             (pyramid_correlate args))
      else
        let args :=
          mkPyramidArgs search_range cost_mode corr_timeout 0 0 in
        let! _ := log_event (PyramidCorrelate args) in
        let disp_image := pyramid_correlate args in
        let! _ := log_event (RmOutliersUsingQuantiles
                               (rm_quantile_percentile s)
                               (rm_quantile_multiple s)) in
        write_image (out_prefix opt +:+ "-D_sub.tif")
          (rm_outliers_using_quantiles (rm_quantile_percentile s)
             (rm_quantile_multiple s) disp_image)
    else if seed_mode s =? 2 then
      let! _ := log_event ProduceDemDisparity in
      produce_dem_disparity opt
    else ret tt in
  read_search_range opt.

(** The block of [lowres_correlation] that performs disparity on the sub
    images: reuse D_sub, or build it. *)
Definition lowres_correlation_dsub (opt : ASPGlobalOptions) : M World unit :=
  let! s := get_settings in
  if 0 <? seed_mode s then
    let rebuild := crop_left_and_right s in
    let sub_disp_file := out_prefix opt +:+ "-D_sub.tif" in
    let! rebuild :=
      try_catch (let! test := open_image sub_disp_file in ret rebuild)
                is_IOErr_or_ArgumentErr
                (ret true) in
    if (rebuild : bool) then produce_lowres_disparity opt
    else log_event (UsingCachedDsub sub_disp_file)
  else ret tt.

End LowRes.

(** ** StereoSession.cc *)

Section Session.

(** The two interest-point matchers; each writes its match file and tells
    whether inliers were found. *)
Variable ip_matching_w_alignment : string -> M World bool.
Variable homography_ip_matching : string -> M World bool.

(** [StereoSession::ip_matching]: the default interest-point matching. *)
Definition ip_matching (nadir_facing : bool)
    (input_file1 input_file2 match_filename : string) : M World bool :=
  let! s := get_settings in
  let crop_left_and_right := crop_left_and_right s in
  let! found := fs_exists match_filename in
  if negb crop_left_and_right && found then
    let! _ := log_event (UsingCachedMatchFile match_filename) in
    ret true
  else
    let! image1 := open_image input_file1 in
    let! image2 := open_image input_file2 in
    let! inlier :=
      if nadir_facing then
        let! _ := log_event (IpMatchingWAlignment match_filename) in
        ip_matching_w_alignment match_filename
      else
        let! _ := log_event (HomographyIpMatching match_filename) in
        homography_ip_matching match_filename in
    if negb inlier then
      let! _ := fs_remove match_filename in
      vw_throw (IOErr "Unable to match left and right images.")
    else ret inlier.

End Session.

(** What [shared_preprocessing_hook] assigns to its file-name arguments;
    the cropped names stay [None] when the hook returns before setting
    them. *)
Record HookOutputs : Type := mkOutputs {
  left_output_file : string;
  right_output_file : string;
  cropped_files : option (string * string)
}.

(** [StereoSession::shared_preprocessing_hook], without the no-data values
    and the georeferences. *)
Definition shared_preprocessing_hook (m_out_prefix : string)
    (left_input_file right_input_file : string) : M World HookOutputs :=
  let left_output_file := m_out_prefix +:+ "-L.tif" in
  let right_output_file := m_out_prefix +:+ "-R.tif" in
  let! s := get_settings in
  let crop_left_and_right := crop_left_and_right s in
  let! left_found := fs_exists left_output_file in
  let! right_found := fs_exists right_output_file in
  let! cached :=
    if left_found && right_found && negb crop_left_and_right then
      try_catch
        (let! out_left := open_image left_output_file in
         let! out_right := open_image right_output_file in
         let! _ := log_event UsingCachedNormalizedImages in
         ret true)
        is_IOErr_or_ArgumentErr
        (ret false)
    else ret false in
  if (cached : bool) then
    ret (mkOutputs left_output_file right_output_file None)
  else
    let! left_rsrc := open_image left_input_file in
    let! right_rsrc := open_image right_input_file in
    if crop_left_and_right then
      let left_cropped_file := m_out_prefix +:+ "-L-cropped.tif" in
      let right_cropped_file := m_out_prefix +:+ "-R-cropped.tif" in
      let! left_orig_image := open_image left_input_file in
      let! right_orig_image := open_image right_input_file in
      let left_win := BBox2i.crop (left_image_crop_win s)
                                  (bounding_box left_orig_image) in
      let right_win := BBox2i.crop (right_image_crop_win s)
                                   (bounding_box right_orig_image) in
      let! _ := log_event (WriteCroppedImage left_cropped_file) in
      let! _ := write_image left_cropped_file
                            (crop left_orig_image left_win) in
      let! _ := log_event (WriteCroppedImage right_cropped_file) in
      let! _ := write_image right_cropped_file
                            (crop right_orig_image right_win) in
      ret (mkOutputs left_output_file right_output_file
                     (Some (left_cropped_file, right_cropped_file)))
    else
      ret (mkOutputs left_output_file right_output_file
                     (Some (left_input_file, right_input_file))).

(** [camera_pixel_offset]: the upper-left corners of the crop windows,
    kept when both windows are specified. *)
Definition camera_pixel_offset (s : StereoSettings)
    (input_dem left_image_file right_image_file curr_image_file : string)
    : Exception + Vector2 :=
  if negb (String.eqb input_dem "") then inr (0%Q, 0%Q)
  else
    let offsets :=
      if BBox2i.neqb (left_image_crop_win s) (BBox2i.xywh 0 0 0 0) &&
         BBox2i.neqb (right_image_crop_win s) (BBox2i.xywh 0 0 0 0)
      then (to_Vector2 (BBox2i.min (left_image_crop_win s)),
            to_Vector2 (BBox2i.min (right_image_crop_win s)))
      else ((0%Q, 0%Q), (0%Q, 0%Q)) in
    if String.eqb curr_image_file left_image_file then inr (fst offsets)
    else if String.eqb curr_image_file right_image_file
         then inr (snd offsets)
         else inl (ArgumentErr
                "Supplied image file does not match left or right image file.").


(** ** stereo_corr.cc: the set-up of [stereo_correlation] *)

(** An [int] as [operator<<] prints it. *)
Definition print_int (z : Z) : string := NilZero.string_of_int (Z.to_int z).

(** The [switch] on [stereo_settings().cost_mode]; [use_sgm] is
    [stereo_settings().use_sgm]. *)
Definition select_cost_mode (cost_mode : Z) (use_sgm : bool)
    : Exception + CostFunctionType :=
  if cost_mode =? 0 then inr ABSOLUTE_DIFFERENCE
  else if cost_mode =? 1 then inr SQUARED_DIFFERENCE
  else if cost_mode =? 2 then inr CROSS_CORRELATION
  else if cost_mode =? 3 then
    if negb use_sgm
    then inl (ArgumentErr
                ("Cannot use census transform without SGM!" +:+ newline))
    else inr CENSUS_TRANSFORM
  else if cost_mode =? 4 then
    if negb use_sgm
    then inl (ArgumentErr
                ("Cannot use ternary census transform without SGM!"
                 +:+ newline))
    else inr TERNARY_CENSUS_TRANSFORM
  else inl (ArgumentErr
              ("Unknown value " +:+ print_int cost_mode
               +:+ " for cost-mode." +:+ newline)).

(** An [ImageViewRef] that nothing was assigned to: it has no column and
    no row, which is how [prerasterize_helper] tells that no spread was
    provided. *)
Definition unassigned_view : DispSeedImageType :=
  mkImage 0 0 (fun _ _ => None).

Definition catch_all (e : Exception) : bool := true.

(** The loading of [sub_disp_spread]: mandatory for seed modes 2 and 3,
    optional for seed mode 1, where any failure to open it is swallowed. *)
Definition load_sub_disp_spread (opt : ASPGlobalOptions)
    : M World DispSeedImageType :=
  let spread_file := out_prefix opt +:+ "-D_sub_spread.tif" in
  let! s := get_settings in
  if (seed_mode s =? 2) || (seed_mode s =? 3) then open_image spread_file
  else if seed_mode s =? 1 then
    let! found := fs_exists spread_file in
    if (found : bool) then
      try_catch (open_image spread_file) catch_all (ret unassigned_view)
    else ret unassigned_view
  else ret unassigned_view.

(** ** StereoSession.cc: [load_adjusted_model] *)

(** [InputErr], thrown for a missing adjustment file. *)
Inductive InputErr : Type := mkInputErr (msg : string).

Section AdjustedModel.

(** Cameras, the adjustments read from a file, and the collaborators:
    [vw::camera::AdjustedCameraModel], [asp::bundle_adjust_file_name] and
    [asp::read_adjustments]. *)
Variable Camera : Type.
Variable Adjustment : Type.
Variable no_adjustment : Adjustment.
Variable AdjustedCameraModel : Camera -> Adjustment -> Vector2 -> Camera.
Variable bundle_adjust_file_name : string -> string -> string -> string.
Variable read_adjustments : string -> Adjustment.

(** [load_adjusted_model]: the camera as it is when nothing adjusts it,
    and else the camera adjusted by the corrections of the file, if there
    is a prefix, and by the pixel offset. [ba_pref] is
    [stereo_settings().bundle_adjust_prefix]; [found] tells which files
    exist. *)
Definition load_adjusted_model (ba_pref : string) (found : string -> bool)
    (cam : Camera) (image_file camera_file : string)
    (pixel_offset : Vector2) : InputErr + Camera :=
  if String.eqb ba_pref "" &&
     (Qeq_bool (fst pixel_offset) 0 && Qeq_bool (snd pixel_offset) 0)
  then inr cam
  else
    if negb (String.eqb ba_pref "") then
      let adjust_file :=
        bundle_adjust_file_name ba_pref image_file camera_file in
      if found adjust_file
      then inr (AdjustedCameraModel cam (read_adjustments adjust_file)
                                    pixel_offset)
      else inl (mkInputErr ("Missing adjusted camera model: " +:+ adjust_file))
    else inr (AdjustedCameraModel cam no_adjustment pixel_offset).

End AdjustedModel.
(** ** Sample inputs

    Small concrete fields, views and worlds on which the properties below
    are exercised. *)

Definition const_image (w h : Z) (p : PixelMask) : DispSeedImageType :=
  mkImage w h (fun _ _ => p).

Definition no_image : DispSeedImageType := const_image 0 0 None.

Definition identity_hom : ImageView Matrix3x3 :=
  mkImage 1 1 (fun _ _ => identity_matrix).

Definition unset_win : BBox2i.t := BBox2i.xywh 0 0 0 0.

Definition sample_settings (mode : Z) (hom : bool) : StereoSettings :=
  mkSettings mode hom (BBox2i.mk (-20, -5) (20, 5)) unset_win unset_win
             (BBox2i.xywh 0 0 16 16) (1 # 4) 0 0 (1 # 1) 0 2 60
             "homography".

(** A 16 x 16 image over a 2 x 2 seed: the upscale factor is (8, 8). *)
Definition sample_view (seed spread : DispSeedImageType)
    (crop_win : BBox2i.t) : SeededCorrelatorView :=
  make_SeededCorrelatorView 16 16 seed spread identity_hom crop_win.

Definition sample_tile : BBox2i.t := BBox2i.xywh 0 0 16 16.

(** An engine that finds the disparity (1, 1) everywhere. *)
Definition sample_engine (c : EngineCall) : CropView :=
  mkCrop (const_image (BBox2i.width (call_tile c))
                      (BBox2i.height (call_tile c)) (Some (1, 1)))
         (- fst (BBox2i.min (call_tile c)))
         (- snd (BBox2i.min (call_tile c))) 16 16.

(** A spread field with the columns of the seed and one row more. *)
Definition tall_spread_view : SeededCorrelatorView :=
  sample_view (const_image 2 2 (Some (1, 1))) (const_image 2 3 (Some (0, 0)))
              (BBox2i.xywh 0 0 16 16).

(** A seed without any valid disparity, and no spread field. *)
Definition blank_seed_view : SeededCorrelatorView :=
  sample_view (const_image 2 2 None) no_image (BBox2i.xywh 0 0 16 16).

(** The same seed with a spread field of (2, 2). *)
Definition blank_spread_view : SeededCorrelatorView :=
  sample_view (const_image 2 2 None) (const_image 2 2 (Some (2, 2)))
              (BBox2i.xywh 0 0 16 16).

(** A run directory with the six images of the low-resolution stage. *)
Definition sample_opt : ASPGlobalOptions := mkOptions "run" (1024, 1024).

Definition sample_files : gmap string File :=
  <["run-lMask.tif" := ImageFile (const_image 16 16 None)]>
  (<["run-rMask.tif" := ImageFile (const_image 16 16 None)]>
  (<["run-L_sub.tif" := ImageFile (const_image 2 2 None)]>
  (<["run-R_sub.tif" := ImageFile (const_image 2 2 None)]>
  (<["run-lMask_sub.tif" := ImageFile (const_image 2 2 None)]>
  (<["run-rMask_sub.tif" := ImageFile (const_image 2 2 None)]> ∅))))).

Definition sample_world (s : StereoSettings) (fs : gmap string File)
    : World :=
  mkWorld s fs [].

(** Collaborators that find the disparity (1, 1) and filter nothing. *)
Definition sample_correlate (_ : PyramidArgs) : DispSeedImageType :=
  const_image 2 2 (Some (1, 1)).

Definition sample_thresh (_ _ : Z) (_ _ : Q) (d : DispSeedImageType)
    : DispSeedImageType := d.

Definition sample_quant (_ _ : Q) (d : DispSeedImageType)
    : DispSeedImageType := d.

Definition sample_dem (_ : ASPGlobalOptions) : M World unit := ret tt.

(** The run directory with a readable cached D_sub. *)
Definition cached_world : World :=
  sample_world (sample_settings 1 false)
    (<["run-D_sub.tif" := ImageFile (const_image 2 2 (Some (1, 1)))]>
       sample_files).

(** The run directory in seed mode 1 with a positive quantile multiple. *)
Definition quantile_world : World :=
  sample_world
    (mkSettings 1 false (BBox2i.mk (-20, -5) (20, 5)) unset_win unset_win
                (BBox2i.xywh 0 0 16 16) (1 # 4) 0 5 (85 # 100) 3 2 60
                "homography")
    sample_files.

(** Two matches: the first one differs by (2, 7/2) once aligned, the left
    point of the second one is sent to infinity by [proj_left]. *)
Definition proj_left : Matrix3x3 := mkMatrix 1 0 0 0 1 0 (-1) 0 4.

Definition sample_ip1 : list InterestPoint := [mkIP 2 5; mkIP 4 1].
Definition sample_ip2 : list InterestPoint := [mkIP 3 6; mkIP 5 1].

(** A match whose left point lies on the right border of a 16 x 16 image,
    after a match inside both images. *)
Definition border_ip1 : list InterestPoint := [mkIP 2 5; mkIP 16 5].
Definition border_ip2 : list InterestPoint := [mkIP 3 6; mkIP 10 8].

(** The settings with an empty left crop window that is not the zero box
    and a right crop window of 10 x 10. *)
Definition empty_left_crop_settings : StereoSettings :=
  mkSettings 1 false (BBox2i.mk (-20, -5) (20, 5)) (BBox2i.xywh 5 5 0 0)
             (BBox2i.xywh 0 0 10 10) (BBox2i.xywh 0 0 16 16) (1 # 4) 0 0
             (1 # 1) 0 2 60 "homography".

(** The run directory in seed mode 3 with a D_sub that is not an image. *)
Definition corrupt_dsub_world : World :=
  mkWorld
    (mkSettings 3 false (BBox2i.mk (-20, -5) (20, 5)) unset_win unset_win
                (BBox2i.xywh 0 0 16 16) (1 # 4) 0 0 (1 # 1) 0 2 60
                "homography")
    (<["run-D_sub.tif" := CorruptFile]> sample_files) [].


(** A matcher that writes its match file and finds no inlier. *)
Definition failing_matcher (match_filename : string) : M World bool :=
  fun w => (inr false,
            mkWorld (stereo_settings w)
                    (<[match_filename := DataFile]> (files w)) (events w)).

Definition input_files : gmap string File :=
  <["left.tif" := ImageFile (const_image 16 16 None)]>
  (<["right.tif" := ImageFile (const_image 16 16 None)]> ∅).

(** Only the left crop window is set. *)
Definition left_crop_settings : StereoSettings :=
  mkSettings 1 false (BBox2i.mk (-20, -5) (20, 5)) (BBox2i.xywh 4 4 8 8)
             unset_win (BBox2i.xywh 0 0 16 16) (1 # 4) 0 0 (1 # 1) 0 2 60
             "homography".

(** Seeds and spreads for the widening by the spread field. *)

(** Two valid cells, (0,0) and (10,10), in the first row of the seed. *)
Definition two_cell_seed : DispSeedImageType :=
  mkImage 2 2 (fun x y => if y =? 0
                          then (if x =? 0 then Some (0, 0) else Some (10, 10))
                          else None).

(** A spread of (1,1), valid in the first cell only. *)
Definition one_cell_spread : DispSeedImageType :=
  mkImage 2 2 (fun x y => if (x =? 0) && (y =? 0) then Some (1, 1) else None).

(** One valid cell with disparity (4,0), and its spread (3,0). *)
Definition single_seed : DispSeedImageType :=
  mkImage 2 2 (fun x y => if (x =? 0) && (y =? 0) then Some (4, 0) else None).

Definition single_spread : DispSeedImageType :=
  mkImage 2 2 (fun x y => if (x =? 0) && (y =? 0) then Some (3, 0) else None).

(** A projective homography whose denominator is 1 - x/5. *)
Definition projective_hom : ImageView Matrix3x3 :=
  mkImage 1 1 (fun _ _ => mkMatrix 1 0 0 0 1 0 (-1 # 5) 0 1).

Definition projective_view : SeededCorrelatorView :=
  make_SeededCorrelatorView 16 16 single_seed no_image projective_hom
                            (BBox2i.xywh 0 0 16 16).

(** An image of 2 x 2 pixels over a seed of 2 x 2 cells, so that the
    upscale factor is 1, with the disparity [(d, 0)] in every cell. *)
Definition unit_scale_view (d : Z) : SeededCorrelatorView :=
  make_SeededCorrelatorView 2 2 (const_image 2 2 (Some (d, 0))) no_image
                            identity_hom (BBox2i.xywh 0 0 2 2).

Definition unit_scale_tile : BBox2i.t := BBox2i.xywh 0 0 2 2.
(** ** Sample inputs of the further properties *)

(** A matcher that writes its match file and finds inliers. *)
Definition matching_matcher (match_filename : string) : M World bool :=
  fun w => (inr true,
            mkWorld (stereo_settings w)
                    (<[match_filename := DataFile]> (files w)) (events w)).

(** Both crop windows are set. *)
Definition both_crop_settings : StereoSettings :=
  mkSettings 1 false (BBox2i.mk (-20, -5) (20, 5)) (BBox2i.xywh 4 4 8 8)
             (BBox2i.xywh 6 2 20 8) (BBox2i.xywh 0 0 16 16) (1 # 4) 0 0
             (1 # 1) 0 2 60 "homography".

(** The two inputs and a match file left by an earlier run. *)
Definition matched_files : gmap string File :=
  <["run-left__right.match" := DataFile]> input_files.

(** Cameras as names, adjustments as the name of the file they were read
    from. *)
Inductive SampleCamera : Type :=
| PlainCamera (name : string)
| Adjusted (cam : SampleCamera) (adjustment : string) (offset : Vector2).

Definition sample_adjust_file (prefix image camera : string) : string :=
  prefix +:+ "-" +:+ image +:+ ".adjust".

(** A view whose crop window is empty. *)
Definition short_spread_view_no_window : SeededCorrelatorView :=
  sample_view (const_image 2 2 (Some (1, 1))) (const_image 2 1 (Some (0, 0)))
              unset_win.

(** A spread field that differs from the seed in both sizes. *)
Definition wrong_spread_view : SeededCorrelatorView :=
  sample_view (const_image 2 2 (Some (1, 1))) (const_image 1 1 (Some (0, 0)))
              (BBox2i.xywh 0 0 16 16).

(** ** Predicates used in the statements *)

(** [lo] and [hi] bound the valid pixels of [l] and each of their four
    coordinates is the coordinate of a valid pixel of [l]. *)
Definition spans (l : list PixelMask) (lo hi : Vector2i) : Prop :=
  (forall v, In (Some v) l ->
     fst lo <= fst v <= fst hi /\ snd lo <= snd v <= snd hi) /\
  (exists v, In (Some v) l /\ fst lo = fst v) /\
  (exists v, In (Some v) l /\ snd lo = snd v) /\
  (exists v, In (Some v) l /\ fst hi = fst v) /\
  (exists v, In (Some v) l /\ snd hi = snd v).

(** No valid pixel inside the extent of the field. *)
Definition no_valid_disparity (img : DispSeedImageType) : Prop :=
  forall x y, 0 <= x < cols img -> 0 <= y < rows img -> px img x y = None.

Definition zero_box : BBox2f.t := BBox2f.xywh 0 0 0 0.

Definition normalized (b : BBox2f.t) : Prop :=
  (fst (BBox2f.min b) <= fst (BBox2f.max b) /\
   snd (BBox2f.min b) <= snd (BBox2f.max b))%Q.

(** Every coordinate of the two corners is within [-M, M]. *)
Definition within (M : Z) (b : BBox2f.t) : Prop :=
  (- inject_Z M <= fst (BBox2f.min b) <= inject_Z M /\
   - inject_Z M <= snd (BBox2f.min b) <= inject_Z M /\
   - inject_Z M <= fst (BBox2f.max b) <= inject_Z M /\
   - inject_Z M <= snd (BBox2f.max b) <= inject_Z M)%Q.

(** Every coordinate of the two corners is an integer that a [float]
    holds exactly. *)
Definition fits_float (b : BBox2i.t) : Prop :=
  Z.abs (fst (BBox2i.min b)) <= 2 ^ 24 /\
  Z.abs (snd (BBox2i.min b)) <= 2 ^ 24 /\
  Z.abs (fst (BBox2i.max b)) <= 2 ^ 24 /\
  Z.abs (snd (BBox2i.max b)) <= 2 ^ 24.

(** The view as the constructor leaves it, with a spread field, if there
    is one, that covers the extent of the seed: the crops that
    [prerasterize_helper] takes of the seed and of the spread then lie
    inside the two fields. *)
Definition reads_inside (v : SeededCorrelatorView) : Prop :=
  m_seed_bbox v = bounding_box (m_sub_disp v) /\
  (has_sub_disp_spread v = true ->
   cols (m_sub_disp v) <= cols (m_sub_disp_spread v) /\
   rows (m_sub_disp v) <= rows (m_sub_disp_spread v)).

(** A field whose valid pixels have no negative component. *)
Definition nonneg_field (img : DispSeedImageType) : Prop :=
  forall x y v, 0 <= x < cols img -> 0 <= y < rows img ->
                px img x y = Some v -> 0 <= fst v /\ 0 <= snd v.

(** The file is there and opens as an image. *)
Definition readable_image (w : World) (f : string) : bool :=
  match files w !! f with
  | Some (ImageFile _) => true
  | _ => false
  end.

(** The world after one more logged event. *)
Definition logged (e : Event) (w : World) : World :=
  mkWorld (stereo_settings w) (files w) (events w ++ [e]).


(** An interest point through an alignment matrix: its third homogeneous
    coordinate and its normalized position. *)
Definition third_coordinate (m : Matrix3x3) (p : InterestPoint) : Q :=
  snd (matrix_times_vector m (ip_x p, ip_y p, 1%Q)).

Definition aligned (m : Matrix3x3) (p : InterestPoint) : Vector2 :=
  let '(x, y, w) := matrix_times_vector m (ip_x p, ip_y p, 1%Q) in
  (ddiv x w, ddiv y w).

(** The point is a position of an image of the given size: its
    coordinates are at least 0 and below the size. *)
Definition inside_image (size p : Vector2) : Prop :=
  (0 <= fst p < fst size /\ 0 <= snd p < snd size)%Q.

(** The point has a coordinate below 0 or above the size. *)
Definition beyond_image (size p : Vector2) : Prop :=
  (fst p < 0 \/ snd p < 0 \/ fst size < fst p \/ snd size < snd p)%Q.

(** The point has its coordinates between 0 and the size, both
    included. *)
Definition on_image (size p : Vector2) : bool :=
  Qle_bool 0 (fst p) && Qle_bool (fst p) (fst size) &&
  Qle_bool 0 (snd p) && Qle_bool (snd p) (snd size).

(** The (right - left) difference of a match that the estimator keeps:
    no third homogeneous coordinate is zero and both points are on their
    images. *)
Definition surviving_disparity (align_left align_right : Matrix3x3)
    (left_size right_size : Vector2)
    (ips : InterestPoint * InterestPoint) : option Vector2 :=
  if Qeq_bool (third_coordinate align_left (fst ips)) 0 ||
     Qeq_bool (third_coordinate align_right (snd ips)) 0
  then None
  else
    let l := aligned align_left (fst ips) in
    let r := aligned align_right (snd ips) in
    if on_image left_size l && on_image right_size r
    then Some (dsub (fst r) (fst l), dsub (snd r) (snd l))
    else None.

(** The differences that the estimator keeps. *)
Definition surviving_disparities (align_left align_right : Matrix3x3)
    (left_size right_size : Vector2)
    (ip1 ip2 : list InterestPoint) : list Vector2 :=
  omap (surviving_disparity align_left align_right left_size right_size)
       (combine ip1 ip2).

(** The bounding box of a list of points. *)
Definition bounding_box_of_points (pts : list Vector2) : option BBox2.t :=
  match pts with
  | [] => None
  | p :: rest => Some (fold_left BBox2.grow_point rest (BBox2.mk p p))
  end.

(** The estimator as described: the bounding box of the surviving
    differences, grown outward to integers. *)
Definition ip_search_range_spec (align_left align_right : Matrix3x3)
    (left_size right_size : Vector2)
    (ip1 ip2 : list InterestPoint) : option BBox2i.t :=
  option_map grow_bbox2_to_int
    (bounding_box_of_points
       (surviving_disparities align_left align_right left_size right_size
                              ip1 ip2)).

(** The point is inside the integer box. *)
Definition inside_int_box (b : BBox2i.t) (p : Vector2) : Prop :=
  (inject_Z (fst (BBox2i.min b)) <= fst p /\
   fst p < inject_Z (fst (BBox2i.max b)) /\
   inject_Z (snd (BBox2i.min b)) <= snd p /\
   snd p < inject_Z (snd (BBox2i.max b)))%Q.

(** The coordinates of the point, rounded outward, are values of [int]. *)
Definition fits_int (p : Vector2) : Prop :=
  (inject_Z (- 2 ^ 31) <= fst p < inject_Z (2 ^ 31 - 1) /\
   inject_Z (- 2 ^ 31) <= snd p < inject_Z (2 ^ 31 - 1))%Q.

(** A computation that leaves the world as it found it. *)
Definition preserves_world {A} (m : M World A) : Prop :=
  forall w, snd (m w) = w.

(** The matcher that [ip_matching] selects, after the call is logged. *)
Definition selected_matcher (wa hm : string -> M World bool)
    (nadir_facing : bool) (match_filename : string) : M World bool :=
  if nadir_facing
  then fun w => wa match_filename
                   (logged (IpMatchingWAlignment match_filename) w)
  else fun w => hm match_filename
                   (logged (HomographyIpMatching match_filename) w).

(** The settings with both crop windows unset. *)
Definition clear_crop_windows (s : StereoSettings) : StereoSettings :=
  mkSettings (seed_mode s) (use_local_homography s) (search_range s)
             (BBox2i.xywh 0 0 0 0) (BBox2i.xywh 0 0 0 0)
             (trans_crop_win s) (seed_percent_pad s) (corr_timeout s)
             (corr_blob_filter_area s) (rm_quantile_percentile s)
             (rm_quantile_multiple s) (rm_threshold s) (rm_min_matches s)
             (alignment_method s).

(** The view with another spread field, with none, and with a spread
    field of the size of the seed that is zero everywhere. *)
Definition with_spread (v : SeededCorrelatorView) (sp : DispSeedImageType)
    : SeededCorrelatorView :=
  mkView (m_left_cols v) (m_left_rows v) (m_sub_disp v) sp (m_local_hom v)
         (m_upscale_factor v) (m_seed_bbox v) (m_trans_crop_win v).

Definition without_spread (v : SeededCorrelatorView) : SeededCorrelatorView :=
  with_spread v (mkImage 0 0 (fun _ _ => None)).

Definition zero_spread (v : SeededCorrelatorView) : SeededCorrelatorView :=
  with_spread v (mkImage (cols (m_sub_disp v)) (rows (m_sub_disp v))
                         (fun _ _ => Some (0, 0))).

(** The spread is valid wherever the seed is. *)
Definition covers (sp seed : DispSeedImageType) : Prop :=
  forall x y d, 0 <= x < cols seed -> 0 <= y < rows seed ->
                px seed x y = Some d -> exists e, px sp x y = Some e.

(** The disparity [d] of pixel [(x, y)] of the sub-region, transformed and
    not yet rounded. *)
Definition warp (subregion : BBox2i.t) (T : Matrix3x3) (x y : Z)
    (d : Vector2i) : Vector2 :=
  let beg := (fst (BBox2i.min subregion) + x,
              snd (BBox2i.min subregion) + y) in
  let tend := forward T (to_Vector2 (fst beg + fst d, snd beg + snd d)) in
  ((fst tend - inject_Z (fst beg))%Q, (snd tend - inject_Z (snd beg))%Q).

Definition round_vector (p : Vector2) : Vector2i :=
  (Qround_away (fst p), Qround_away (snd p)).

(** The denominator of the homography at the end point of the disparity
    [d] of pixel [(x, y)] of the sub-region. *)
Definition denominator (subregion : BBox2i.t) (T : Matrix3x3) (x y : Z)
    (d : Vector2i) : Q :=
  snd (mat_apply T
         (to_Vector2 (fst (BBox2i.min subregion) + x + fst d,
                      snd (BBox2i.min subregion) + y + snd d))).

(** The homography has no pole between the end points of seed + spread
    and of seed - spread: at every pixel where both are valid its
    denominator has the same sign at the two ends. *)
Definition no_pole (subregion : BBox2i.t) (T : Matrix3x3)
    (seed sp : DispSeedImageType) : Prop :=
  forall x y d e,
    0 <= x < cols seed -> 0 <= y < rows seed ->
    px seed x y = Some d -> px sp x y = Some e ->
    let up := (fst d + fst e, snd d + snd e) in
    let lo := (fst d - fst e, snd d - snd e) in
    (0 < denominator subregion T x y up * denominator subregion T x y lo)%Q.

(** The box holds the point [p], corners included. *)
Definition holds (b : BBox2.t) (p : Vector2) : Prop :=
  (fst (BBox2.min b) <= fst p <= fst (BBox2.max b) /\
   snd (BBox2.min b) <= snd p <= snd (BBox2.max b))%Q.

(** The corners of the box are values of [float]. *)
Definition float_box (r : BBox2f.t) : Prop :=
  (float32 (fst (BBox2f.min r)) == fst (BBox2f.min r) /\
   float32 (snd (BBox2f.min r)) == snd (BBox2f.min r) /\
   float32 (fst (BBox2f.max r)) == fst (BBox2f.max r) /\
   float32 (snd (BBox2f.max r)) == snd (BBox2f.max r))%Q.

(** The event is the call of one of the two outlier filters. *)
Definition is_outlier_filter (e : Event) : bool :=
  match e with
  | RmOutliersUsingThresh _ _ _ _ => true
  | RmOutliersUsingQuantiles _ _ => true
  | _ => false
  end.
(** ** Predicates of the further properties *)

(** From [w] to [w'] nothing changed but, at most, the search range of the
    settings. *)
Definition only_search_range_changes (w w' : World) : Prop :=
  files w' = files w /\
  events w' = events w /\
  stereo_settings w' =
    set_search_range (search_range (stereo_settings w')) (stereo_settings w).


(** The suffixes of the six images that the low-resolution stage opens. *)
Definition lowres_inputs : list string :=
  ["-lMask.tif"; "-rMask.tif"; "-L_sub.tif"; "-R_sub.tif";
   "-lMask_sub.tif"; "-rMask_sub.tif"].

(** Two crop views with the same geometry: offsets, extent and size of
    the child. *)
Definition same_geometry (a b : CropView) : Prop :=
  ci a = ci b /\ cj a = cj b /\ cw a = cw b /\ ch a = ch b /\
  cols (child a) = cols (child b) /\ rows (child a) = rows (child b).

(** Every valid disparity of the field has its components within
    [-B, B]. *)
Definition bounded_field (B : Z) (img : DispSeedImageType) : Prop :=
  forall x y v, 0 <= x < cols img -> 0 <= y < rows img ->
                px img x y = Some v ->
                Z.abs (fst v) <= B /\ Z.abs (snd v) <= B.

(** * Rounding to [float] and [double] *)


(** ** Powers of two *)

Lemma pow2_pos (e : Z) : (0 < pow2 e)%Q.
Proof. apply Qpower_0_lt. reflexivity. Qed.

Lemma pow2_add (a b : Z) : (pow2 (a + b) == pow2 a * pow2 b)%Q.
Proof. apply Qpower_plus. discriminate. Qed.

Lemma pow2_le (a b : Z) : a <= b -> (pow2 a <= pow2 b)%Q.
Proof. intros H. apply Qpower_le_compat_l; [exact H|]. unfold Qle. simpl. lia. Qed.

Lemma pow2_lt (a b : Z) : a < b -> (pow2 a < pow2 b)%Q.
Proof. intros H. apply Qpower_lt_compat_l; [exact H|]. reflexivity. Qed.

Lemma pow2_lt_inv (a b : Z) : (pow2 a < pow2 b)%Q -> a < b.
Proof.
  intros H. destruct (Z.lt_ge_cases a b) as [L|G]; [exact L|].
  apply pow2_le in G. lra.
Qed.

Lemma pow2_Z (e : Z) : 0 <= e -> (pow2 e == inject_Z (2 ^ e))%Q.
Proof. intros H. unfold pow2. rewrite Zpower_Qpower by exact H. reflexivity. Qed.

Lemma pow2_succ (e : Z) : (pow2 (e + 1) == 2 * pow2 e)%Q.
Proof. rewrite pow2_add. change (pow2 1) with 2%Q. ring. Qed.

Lemma pow2_pred (e : Z) : (pow2 (e - 1) == pow2 e / 2)%Q.
Proof.
  assert (H := pow2_succ (e - 1)). replace (e - 1 + 1) with e in H by lia.
  rewrite H. field.
Qed.

(** ** The exponent of a value *)

Lemma Qabs_make (q : Q) : Qabs q = Z.abs (Qnum q) # Qden q.
Proof. destruct q. reflexivity. Qed.

Lemma pow2_ratio (a b : Z) : 0 <= a -> 0 <= b ->
  (pow2 (a - b) == inject_Z (2 ^ a) / inject_Z (2 ^ b))%Q.
Proof.
  intros Ha Hb. replace (a - b) with (a + - b) by lia.
  rewrite pow2_add. unfold pow2 at 2. rewrite Qpower_opp. fold (pow2 b).
  rewrite !pow2_Z by assumption. reflexivity.
Qed.

Lemma Qdiv_lt_cross (x y z w : Q) :
  (0 < y)%Q -> (0 < w)%Q -> (x * w < z * y)%Q -> (x / y < z / w)%Q.
Proof.
  intros Hy Hw H. apply Qlt_shift_div_r; [exact Hy|].
  apply Qlt_shift_div_l in H; [|exact Hw].
  assert (E : (z / w * y == z * y / w)%Q) by (field; lra).
  rewrite E. exact H.
Qed.

Lemma ilog2_spec (q : Q) :
  ~ (q == 0)%Q -> (pow2 (ilog2 q) <= Qabs q < pow2 (ilog2 q + 1))%Q.
Proof.
  intros Hq. unfold ilog2.
  set (n := Z.abs (Qnum q)). set (d := Zpos (Qden q)).
  assert (Hn : 0 < n).
  { subst n. destruct q as [a b]. unfold Qeq in Hq. simpl in *. lia. }
  assert (Hd : 0 < d) by (subst d; lia).
  destruct (Z.log2_spec n Hn) as [N1 N2].
  destruct (Z.log2_spec d Hd) as [D1 D2].
  set (a := Z.log2 n) in *. set (b := Z.log2 d) in *.
  assert (Ha : 0 <= a) by apply Z.log2_nonneg.
  assert (Hb : 0 <= b) by apply Z.log2_nonneg.
  assert (Eq : (Qabs q == inject_Z n / inject_Z d)%Q).
  { rewrite Qabs_make. fold n. rewrite (Qmake_Qdiv n (Qden q)). reflexivity. }
  assert (Pd : (0 < inject_Z d)%Q) by (rewrite <- (Zlt_Qlt 0); exact Hd).
  assert (PA : 0 < 2 ^ a) by (apply Z.pow_pos_nonneg; lia).
  assert (PB : 0 < 2 ^ b) by (apply Z.pow_pos_nonneg; lia).
  assert (EA : 2 ^ (a + 1) = 2 * 2 ^ a) by (rewrite Z.pow_add_r by lia; lia).
  assert (EB : 2 ^ (b + 1) = 2 * 2 ^ b) by (rewrite Z.pow_add_r by lia; lia).
  replace (Z.succ a) with (a + 1) in N2 by lia.
  replace (Z.succ b) with (b + 1) in D2 by lia.
  assert (U : (Qabs q < pow2 (a - b + 1))%Q).
  { rewrite Eq. replace (a - b + 1) with ((a + 1) - b) by lia.
    rewrite pow2_ratio by lia.
    apply Qdiv_lt_cross; [exact Pd| rewrite <- (Zlt_Qlt 0); exact PB |].
    rewrite <- !inject_Z_mult, <- Zlt_Qlt. nia. }
  assert (L : (pow2 (a - b - 1) <= Qabs q)%Q).
  { rewrite Eq. replace (a - b - 1) with (a - (b + 1)) by lia.
    rewrite pow2_ratio by lia. apply Qlt_le_weak.
    apply Qdiv_lt_cross; [rewrite <- (Zlt_Qlt 0); lia | exact Pd |].
    rewrite <- !inject_Z_mult, <- Zlt_Qlt. nia. }
  destruct (Qle_bool (pow2 (a - b)) (Qabs q)) eqn:E.
  - apply Qle_bool_iff in E. split; [exact E|exact U].
  - split; [exact L|].
    replace (a - b - 1 + 1) with (a - b) by lia.
    apply Qnot_le_lt. intros C. apply Qle_bool_iff in C. congruence.
Qed.

Lemma ilog2_unique (q : Q) (l : Z) :
  (pow2 l <= Qabs q < pow2 (l + 1))%Q -> ilog2 q = l.
Proof.
  intros [H1 H2].
  assert (Hq : ~ (q == 0)%Q).
  { intros C. rewrite C in H1. pose proof (pow2_pos l).
    change (Qabs 0) with 0%Q in H1. lra. }
  destruct (ilog2_spec q Hq) as [S1 S2].
  assert (A : ilog2 q < l + 1) by (apply pow2_lt_inv; lra).
  assert (B : l < ilog2 q + 1) by (apply pow2_lt_inv; lra).
  lia.
Qed.

(** ** Rounding to the nearest integer, ties to even *)

Lemma round_even_comp (q q' : Q) : (q == q')%Q -> round_even q = round_even q'.
Proof.
  intros H. unfold round_even. rewrite (Qfloor_comp _ _ H).
  assert (E : ((q - inject_Z (Qfloor q') ?= 1 # 2) =
               (q' - inject_Z (Qfloor q') ?= 1 # 2))%Q).
  { apply Qcompare_comp; [rewrite H; reflexivity|reflexivity]. }
  rewrite E. reflexivity.
Qed.

Lemma Qfloor_frac (q : Q) :
  (0 <= q - inject_Z (Qfloor q) < 1)%Q.
Proof.
  pose proof (Qfloor_le q). pose proof (Qlt_floor q).
  rewrite inject_Z_plus in H0. change (inject_Z 1) with 1%Q in H0. lra.
Qed.

Lemma round_even_cases (q : Q) :
  (round_even q = Qfloor q /\ (q - inject_Z (Qfloor q) <= 1 # 2)%Q) \/
  (round_even q = Qfloor q + 1 /\ (1 # 2 <= q - inject_Z (Qfloor q))%Q).
Proof.
  unfold round_even.
  destruct (Qcompare_spec (q - inject_Z (Qfloor q)) (1 # 2)) as [E|L|G].
  - destruct (Z.even (Qfloor q)); [left|right]; split; try reflexivity; lra.
  - left. split; [reflexivity|lra].
  - right. split; [reflexivity|lra].
Qed.

Lemma round_even_bounds (q : Q) :
  (inject_Z (round_even q) - (1 # 2) <= q <= inject_Z (round_even q) + (1 # 2))%Q.
Proof.
  pose proof (Qfloor_frac q) as F.
  destruct (round_even_cases q) as [[E H]|[E H]]; rewrite E.
  - lra.
  - rewrite inject_Z_plus. change (inject_Z 1) with 1%Q. lra.
Qed.

Lemma round_even_le_int (q : Q) (n : Z) :
  (q <= inject_Z n)%Q -> round_even q <= n.
Proof.
  intros H. pose proof (Qfloor_frac q) as F.
  destruct (round_even_cases q) as [[E _]|[E H1]]; rewrite E.
  - rewrite Zle_Qle. lra.
  - assert (L : Qfloor q < n).
    { rewrite Zlt_Qlt. lra. }
    lia.
Qed.

Lemma round_even_ge_int (q : Q) (n : Z) :
  (inject_Z n <= q)%Q -> n <= round_even q.
Proof.
  intros H.
  assert (L : n <= Qfloor q).
  { rewrite <- (Qfloor_Z n). apply Qfloor_resp_le. exact H. }
  destruct (round_even_cases q) as [[E _]|[E _]]; rewrite E; lia.
Qed.

Lemma round_even_Z (n : Z) : round_even (inject_Z n) = n.
Proof.
  apply Z.le_antisymm.
  - apply round_even_le_int. apply Qle_refl.
  - apply round_even_ge_int. apply Qle_refl.
Qed.

Lemma round_even_mono (q q' : Q) : (q <= q')%Q -> round_even q <= round_even q'.
Proof.
  intros H.
  assert (L : Qfloor q <= Qfloor q') by (apply Qfloor_resp_le; exact H).
  destruct (Z.eq_dec (Qfloor q) (Qfloor q')) as [E|N].
  - unfold round_even. rewrite <- E.
    destruct (Qcompare_spec (q - inject_Z (Qfloor q)) (1 # 2)) as [E1|L1|G1];
      destruct (Qcompare_spec (q' - inject_Z (Qfloor q)) (1 # 2)) as [E2|L2|G2];
      try lia; try lra; destruct (Z.even (Qfloor q)); lia.
  - assert (A : round_even q <= Qfloor q + 1)
      by (destruct (round_even_cases q) as [[E _]|[E _]]; rewrite E; lia).
    assert (B : Qfloor q' <= round_even q')
      by (destruct (round_even_cases q') as [[E _]|[E _]]; rewrite E; lia).
    lia.
Qed.

Lemma round_even_opp (q : Q) : round_even (- q) = - round_even q.
Proof.
  pose proof (Qfloor_frac q) as F. pose proof (Qfloor_frac (- q)) as F'.
  destruct (Qeq_dec q (inject_Z (Qfloor q))) as [I|NI].
  - rewrite (round_even_comp q _ I).
    assert (I' : (- q == inject_Z (- Qfloor q))%Q)
      by (rewrite inject_Z_opp, <- I; reflexivity).
    rewrite (round_even_comp _ _ I'), !round_even_Z. reflexivity.
  - assert (Fl : Qfloor (- q) = - Qfloor q - 1).
    { assert (A : Qfloor (- q) < - Qfloor q).
      { rewrite Zlt_Qlt, inject_Z_opp.
        assert (~ (q - inject_Z (Qfloor q) == 0)%Q) by (intros C; apply NI; lra).
        destruct (Qlt_le_dec 0 (q - inject_Z (Qfloor q))); [|lra]. lra. }
      assert (B : - Qfloor q - 2 < Qfloor (- q)).
      { rewrite Zlt_Qlt. unfold Z.sub. rewrite inject_Z_plus, !inject_Z_opp.
        change (inject_Z 2) with 2%Q. lra. }
      lia. }
    unfold round_even. rewrite Fl.
    assert (Ev : Z.even (- Qfloor q - 1) = negb (Z.even (Qfloor q))).
    { replace (- Qfloor q - 1) with (- (Qfloor q + 1)) by lia.
      rewrite Z.even_opp, Z.even_add. simpl. destruct (Z.even (Qfloor q)); reflexivity. }
    rewrite Ev.
    assert (Ej : (inject_Z (- Qfloor q - 1) == - inject_Z (Qfloor q) - 1)%Q).
    { unfold Z.sub. rewrite inject_Z_plus, !inject_Z_opp. reflexivity. }
    destruct (Qcompare_spec (q - inject_Z (Qfloor q)) (1 # 2)) as [E1|L1|G1];
      destruct (Qcompare_spec (- q - inject_Z (- Qfloor q - 1)) (1 # 2))
        as [E2|L2|G2]; rewrite Ej in *; try lra;
      try (destruct (Z.even (Qfloor q)); simpl; lia); lia.
Qed.

(** ** Rounding to a format *)

Lemma ilog2_comp (q q' : Q) : ~ (q == 0)%Q -> (q == q')%Q -> ilog2 q = ilog2 q'.
Proof.
  intros H0 H. apply ilog2_unique. rewrite H.
  apply ilog2_spec. rewrite <- H. exact H0.
Qed.

Lemma round_to_comp (f : Format) (q q' : Q) :
  (q == q')%Q -> round_to f q = round_to f q'.
Proof. intros H. unfold round_to. rewrite (Qred_complete _ _ H). reflexivity. Qed.

Lemma round_to_zero (f : Format) (q : Q) : (q == 0)%Q -> round_to f q = 0%Q.
Proof.
  intros H. rewrite (round_to_comp f q 0 H). reflexivity.
Qed.

Lemma round_to_nonzero (f : Format) (q : Q) :
  ~ (q == 0)%Q ->
  (round_to f q ==
   inject_Z (round_even (q / pow2 (exponent f q))) * pow2 (exponent f q))%Q.
Proof.
  intros H. unfold round_to.
  assert (R : (Qred q == q)%Q) by apply Qred_correct.
  destruct (Qeq_bool (Qred q) 0) eqn:E.
  - apply Qeq_bool_iff in E. rewrite R in E. contradiction.
  - assert (X : exponent f (Qred q) = exponent f q).
    { unfold exponent. rewrite (ilog2_comp (Qred q) q); [reflexivity| |exact R].
      rewrite R. exact H. }
    rewrite X.
    rewrite (round_even_comp (Qred q / pow2 (exponent f q))
                             (q / pow2 (exponent f q))).
    + reflexivity.
    + rewrite R. reflexivity.
Qed.

Lemma exponent_opp (f : Format) (q : Q) : exponent f (- q) = exponent f q.
Proof.
  unfold exponent, ilog2. destruct q as [n d].
  assert (E : Qabs (- (n # d)) = Qabs (n # d)).
  { unfold Qabs, Qopp. cbn [Qnum Qden]. rewrite Z.abs_opp. reflexivity. }
  rewrite E. unfold Qopp. cbn [Qnum Qden]. rewrite Z.abs_opp. reflexivity.
Qed.

Lemma round_to_opp (f : Format) (q : Q) :
  (round_to f (- q) == - round_to f q)%Q.
Proof.
  destruct (Qeq_dec q 0) as [Z|NZ].
  - rewrite (round_to_zero f q Z).
    rewrite (round_to_zero f (- q)); [reflexivity|]. rewrite Z. reflexivity.
  - rewrite (round_to_nonzero f (- q)), (round_to_nonzero f q NZ).
    + rewrite exponent_opp.
      rewrite (round_even_comp (- q / pow2 (exponent f q))
                               (- (q / pow2 (exponent f q)))).
      * rewrite round_even_opp, inject_Z_opp. ring.
      * pose proof (pow2_pos (exponent f q)). field. lra.
    + intros C. apply NZ. lra.
Qed.

Lemma exponent_ge_emin (f : Format) (q : Q) : emin f <= exponent f q.
Proof. unfold exponent. lia. Qed.

Lemma exponent_ge_log (f : Format) (q : Q) :
  ilog2 q - prec f + 1 <= exponent f q.
Proof. unfold exponent. lia. Qed.

(** The scaled value is below [2 ^ prec] in magnitude. *)
Lemma scaled_bound (f : Format) (q : Q) :
  0 < prec f -> ~ (q == 0)%Q ->
  (Qabs (q / pow2 (exponent f q)) < inject_Z (2 ^ prec f))%Q.
Proof.
  intros Hp H. destruct (ilog2_spec q H) as [_ U].
  pose proof (pow2_pos (exponent f q)) as P.
  unfold Qdiv. rewrite Qabs_Qmult, Qabs_Qinv, (Qabs_pos (pow2 _)) by lra.
  apply Qlt_shift_div_r; [exact P|].
  rewrite <- pow2_Z by lia. rewrite <- pow2_add.
  eapply Qlt_le_trans; [exact U|]. apply pow2_le.
  pose proof (exponent_ge_log f q). lia.
Qed.

Lemma round_to_representable (f : Format) (q : Q) :
  0 < prec f -> representable f (round_to f q).
Proof.
  intros Hp. destruct (Qeq_dec q 0) as [Z|NZ].
  - rewrite (round_to_zero f q Z). exists 0, (emin f).
    split; [ring|]. split; [|lia]. simpl. apply Z.pow_nonneg. lia.
  - exists (round_even (q / pow2 (exponent f q))), (exponent f q).
    split; [apply round_to_nonzero; exact NZ|].
    split; [|apply exponent_ge_emin].
    pose proof (scaled_bound f q Hp NZ) as B.
    apply Qabs_Qlt_condition in B. destruct B as [B1 B2].
    apply Z.abs_le. split.
    + apply round_even_ge_int. rewrite inject_Z_opp. lra.
    + apply round_even_le_int. lra.
Qed.

Lemma pow2_le_inv (a b : Z) : (pow2 a <= pow2 b)%Q -> a <= b.
Proof.
  intros H. destruct (Z.le_gt_cases a b) as [L|G]; [exact L|].
  apply pow2_lt in G. lra.
Qed.

Lemma Qabs_inject_Z (m : Z) : (Qabs (inject_Z m) == inject_Z (Z.abs m))%Q.
Proof. unfold Qabs, inject_Z. reflexivity. Qed.

Lemma round_to_id (f : Format) (x : Q) :
  0 < prec f -> representable f x -> (round_to f x == x)%Q.
Proof.
  intros Hp (m & e' & Hx & Hm & He).
  destruct (Qeq_dec x 0) as [Z|NZ].
  { rewrite (round_to_zero f x Z). symmetry. exact Z. }
  rewrite (round_to_nonzero f x NZ).
  set (e := exponent f x).
  pose proof (pow2_pos e) as Pe. pose proof (pow2_pos e') as Pe'.
  assert (K : exists k : Z, (x / pow2 e == inject_Z k)%Q).
  { destruct (Z.le_gt_cases e e') as [L|G].
    - exists (m * 2 ^ (e' - e)).
      rewrite inject_Z_mult, <- pow2_Z by lia.
      rewrite Hx. replace e' with ((e' - e) + e) at 1 by lia.
      rewrite pow2_add. field. lra.
    - (* e' < e: the mantissa is the power of two itself *)
      assert (Ex : e = ilog2 x - prec f + 1).
      { unfold e, exponent in *. lia. }
      destruct (ilog2_spec x NZ) as [L1 _].
      assert (Ax : (Qabs x == inject_Z (Z.abs m) * pow2 e')%Q).
      { rewrite Hx, Qabs_Qmult, Qabs_inject_Z, (Qabs_pos (pow2 e')) by lra.
        reflexivity. }
      assert (B : (Qabs x <= pow2 (prec f + e'))%Q).
      { rewrite Ax, pow2_add, (pow2_Z (prec f)) by lia.
        apply Qmult_le_compat_r; [|lra]. rewrite <- Zle_Qle. exact Hm. }
      assert (Ll : ilog2 x <= prec f + e') by (apply pow2_le_inv; lra).
      assert (El : ilog2 x = prec f + e') by lia.
      assert (Am : Z.abs m = 2 ^ prec f).
      { apply Z.le_antisymm; [exact Hm|].
        rewrite Zle_Qle, <- pow2_Z by lia.
        rewrite El, pow2_add in L1. rewrite Ax in L1.
        apply Qmult_le_r in L1; [exact L1|exact Pe']. }
      assert (E2 : e = e' + 1) by lia.
      assert (P2 : 2 ^ prec f = 2 * 2 ^ (prec f - 1)).
      { replace (prec f) with (1 + (prec f - 1)) at 1 by lia.
        rewrite Z.pow_add_r by lia. reflexivity. }
      exists (m / 2).
      assert (M2 : m = 2 * (m / 2)).
      { destruct (Z.abs_eq_or_opp m) as [A|A]; rewrite A in Am.
        - rewrite Am, P2. rewrite Z.mul_comm, Z.div_mul by lia. lia.
        - assert (m = - (2 ^ prec f)) as -> by lia.
          rewrite P2. replace (- (2 * 2 ^ (prec f - 1)))
            with ((- 2 ^ (prec f - 1)) * 2) by lia.
          rewrite Z.div_mul by lia. lia. }
      rewrite Hx, E2, pow2_succ. rewrite M2 at 1. rewrite inject_Z_mult.
      change (inject_Z 2) with 2%Q. field. lra. }
  destruct K as [k Hk].
  rewrite (round_even_comp _ _ Hk), round_even_Z, <- Hk. field. lra.
Qed.

Lemma representable_Z (f : Format) (n : Z) :
  0 < prec f -> emin f <= 0 -> Z.abs n <= 2 ^ prec f ->
  representable f (inject_Z n).
Proof.
  intros Hp He Hn. exists n, 0. split; [|split; assumption].
  change (pow2 0) with 1%Q. ring.
Qed.

Lemma round_to_Z (f : Format) (n : Z) :
  0 < prec f -> emin f <= 0 -> Z.abs n <= 2 ^ prec f ->
  (round_to f (inject_Z n) == inject_Z n)%Q.
Proof.
  intros Hp He Hn. apply round_to_id; [exact Hp|].
  apply representable_Z; assumption.
Qed.

Lemma round_to_nonneg (f : Format) (q : Q) : (0 <= q)%Q -> (0 <= round_to f q)%Q.
Proof.
  intros H. destruct (Qeq_dec q 0) as [Z|NZ].
  - rewrite (round_to_zero f q Z). apply Qle_refl.
  - rewrite (round_to_nonzero f q NZ).
    pose proof (pow2_pos (exponent f q)) as P.
    apply Qmult_le_0_compat; [|lra].
    rewrite <- (Zle_Qle 0). apply round_even_ge_int.
    apply Qle_shift_div_l; [exact P|]. change (inject_Z 0) with 0%Q. lra.
Qed.

Lemma ilog2_mono (x y : Q) : (0 < x)%Q -> (x <= y)%Q -> ilog2 x <= ilog2 y.
Proof.
  intros Hx H.
  assert (Nx : ~ (x == 0)%Q) by lra. assert (Ny : ~ (y == 0)%Q) by lra.
  destruct (ilog2_spec x Nx) as [X1 _]. destruct (ilog2_spec y Ny) as [_ Y2].
  rewrite Qabs_pos in X1, Y2 by lra.
  assert (L : ilog2 x < ilog2 y + 1) by (apply pow2_lt_inv; lra). lia.
Qed.

Lemma round_to_mono_pos (f : Format) (x y : Q) :
  0 < prec f -> (0 < x)%Q -> (x <= y)%Q -> (round_to f x <= round_to f y)%Q.
Proof.
  intros Hp Hx H.
  assert (Nx : ~ (x == 0)%Q) by lra. assert (Ny : ~ (y == 0)%Q) by lra.
  rewrite (round_to_nonzero f x Nx), (round_to_nonzero f y Ny).
  pose proof (ilog2_mono x y Hx H) as Lg.
  pose proof (pow2_pos (exponent f x)) as Px.
  pose proof (pow2_pos (exponent f y)) as Py.
  destruct (Z.eq_dec (exponent f x) (exponent f y)) as [E|N].
  - rewrite E in *. apply Qmult_le_compat_r; [|lra].
    rewrite <- Zle_Qle. apply round_even_mono.
    apply Qmult_le_compat_r; [exact H|]. apply Qlt_le_weak, Qinv_lt_0_compat, Py.
  - assert (Ey : exponent f y = ilog2 y - prec f + 1)
      by (unfold exponent in *; lia).
    assert (Ll : ilog2 x + 1 <= ilog2 y) by (unfold exponent in *; lia).
    assert (Ex : exponent f x < exponent f y) by (unfold exponent in *; lia).
    destruct (ilog2_spec x Nx) as [_ X2]. destruct (ilog2_spec y Ny) as [Y1 _].
    rewrite Qabs_pos in X2, Y1 by lra.
    apply Qle_trans with (pow2 (ilog2 y)).
    + (* round x <= 2 ^ ly *)
      replace (ilog2 y) with ((ilog2 y - exponent f x) + exponent f x) by lia.
      rewrite pow2_add. apply Qmult_le_compat_r; [|lra].
      rewrite (pow2_Z (ilog2 y - exponent f x)) by lia.
      rewrite <- Zle_Qle. apply round_even_le_int.
      rewrite <- pow2_Z by lia.
      apply Qle_shift_div_r; [exact Px|]. rewrite <- pow2_add.
      replace (ilog2 y - exponent f x + exponent f x) with (ilog2 y) by lia.
      apply Qle_trans with (pow2 (ilog2 x + 1)); [lra|]. apply pow2_le. lia.
    + replace (ilog2 y) with ((prec f - 1) + exponent f y) at 1 by lia.
      rewrite pow2_add. apply Qmult_le_compat_r; [|lra].
      rewrite (pow2_Z (prec f - 1)) by lia.
      rewrite <- Zle_Qle. apply round_even_ge_int.
      rewrite <- pow2_Z by lia.
      apply Qle_shift_div_l; [exact Py|]. rewrite <- pow2_add.
      replace (prec f - 1 + exponent f y) with (ilog2 y) by lia. exact Y1.
Qed.

Lemma round_to_mono (f : Format) (x y : Q) :
  0 < prec f -> (x <= y)%Q -> (round_to f x <= round_to f y)%Q.
Proof.
  intros Hp H. destruct (Qlt_le_dec 0 x) as [Px|Nx].
  - apply round_to_mono_pos; assumption.
  - assert (Rx : (round_to f x <= 0)%Q).
    { pose proof (round_to_nonneg f (- x)) as A.
      rewrite round_to_opp in A. lra. }
    destruct (Qlt_le_dec y 0) as [Ny|Py].
    + pose proof (round_to_mono_pos f (- y) (- x) Hp) as A.
      rewrite !round_to_opp in A. lra.
    + pose proof (round_to_nonneg f y Py). lra.
Qed.

(** The error of one rounding. *)
Lemma round_to_error (f : Format) (q : Q) :
  ~ (q == 0)%Q ->
  (Qabs (round_to f q - q) <= pow2 (exponent f q - 1))%Q.
Proof.
  intros NZ. rewrite (round_to_nonzero f q NZ).
  set (e := exponent f q). pose proof (pow2_pos e) as P.
  assert (Q1 : (q == q / pow2 e * pow2 e)%Q) by (field; lra).
  pose proof (round_even_bounds (q / pow2 e)) as [B1 B2].
  set (s := (q / pow2 e)%Q) in *.
  set (m := inject_Z (round_even s)) in *.
  rewrite pow2_pred.
  assert (A1 : ((m - (1 # 2)) * pow2 e <= s * pow2 e)%Q)
    by (apply Qmult_le_compat_r; lra).
  assert (A2 : (s * pow2 e <= (m + (1 # 2)) * pow2 e)%Q)
    by (apply Qmult_le_compat_r; lra).
  rewrite <- Q1 in A1, A2. clearbody m. clear B1 B2 Q1. clearbody s.
  set (p := pow2 e) in *. clearbody p.
  apply Qabs_Qle_condition.
  assert (E1 : ((m - (1 # 2)) * p == m * p - p / 2)%Q) by field.
  assert (E2 : ((m + (1 # 2)) * p == m * p + p / 2)%Q) by field.
  rewrite E1 in A1. rewrite E2 in A2.
  set (mp := (m * p)%Q) in *. clearbody mp. split; lra.
Qed.

(** The relative error of one rounding of a value in the normal range. *)
Lemma round_to_relative_error (f : Format) (q : Q) :
  (pow2 (emin f + prec f - 1) <= Qabs q)%Q ->
  (Qabs (round_to f q - q) <= Qabs q * pow2 (- prec f))%Q.
Proof.
  intros Hn.
  assert (NZ : ~ (q == 0)%Q).
  { intros C. rewrite C in Hn. pose proof (pow2_pos (emin f + prec f - 1)).
    change (Qabs 0) with 0%Q in Hn. lra. }
  destruct (ilog2_spec q NZ) as [L1 L2].
  assert (Ll : emin f + prec f - 1 < ilog2 q + 1) by (apply pow2_lt_inv; lra).
  assert (E : exponent f q = ilog2 q - prec f + 1) by (unfold exponent; lia).
  eapply Qle_trans; [apply round_to_error; exact NZ|].
  rewrite E. replace (ilog2 q - prec f + 1 - 1) with (ilog2 q + - prec f) by lia.
  rewrite pow2_add. apply Qmult_le_compat_r; [exact L1|].
  apply Qlt_le_weak, pow2_pos.
Qed.

(** ** [float] and [double] *)

Lemma float32_comp (q q' : Q) : (q == q')%Q -> float32 q = float32 q'.
Proof. apply round_to_comp. Qed.

Lemma double_comp (q q' : Q) : (q == q')%Q -> double q = double q'.
Proof. apply round_to_comp. Qed.

Lemma float32_mono (x y : Q) : (x <= y)%Q -> (float32 x <= float32 y)%Q.
Proof. apply round_to_mono. reflexivity. Qed.

Lemma double_mono (x y : Q) : (x <= y)%Q -> (double x <= double y)%Q.
Proof. apply round_to_mono. reflexivity. Qed.

Lemma float32_Z (n : Z) :
  Z.abs n <= 2 ^ 24 -> (float32 (inject_Z n) == inject_Z n)%Q.
Proof. intros H. apply round_to_Z; [reflexivity|discriminate|exact H]. Qed.

Lemma double_Z (n : Z) :
  Z.abs n <= 2 ^ 53 -> (double (inject_Z n) == inject_Z n)%Q.
Proof. intros H. apply round_to_Z; [reflexivity|discriminate|exact H]. Qed.

Lemma float32_idem (q : Q) : (float32 (float32 q) == float32 q)%Q.
Proof.
  apply round_to_id; [reflexivity|]. apply round_to_representable. reflexivity.
Qed.

Lemma double_relative_error (q : Q) :
  (DBL_MIN <= Qabs q)%Q ->
  (Qabs (double q - q) <= Qabs q * pow2 (-53))%Q.
Proof. intros H. apply (round_to_relative_error binary64). exact H. Qed.

(** ** Conversions to [int] *)

Lemma Qtrunc_nonneg_floor (q : Q) : (0 <= q)%Q -> Qtrunc q = Qfloor q.
Proof.
  destruct q as [n d]. unfold Qle, Qtrunc, Qfloor. cbn [Qnum Qden].
  intros H. apply Z.quot_div_nonneg; lia.
Qed.

Lemma Qtrunc_nonpos_ceiling (q : Q) : (q <= 0)%Q -> Qtrunc q = Qceiling q.
Proof.
  destruct q as [n d]. unfold Qle, Qtrunc, Qceiling, Qfloor, Qopp.
  cbn [Qnum Qden]. intros H.
  assert (Hn : n <= 0) by lia.
  replace n with (- (- n)) at 1 by lia.
  rewrite Z.quot_opp_l by lia. rewrite Z.quot_div_nonneg by lia. reflexivity.
Qed.

Lemma Qtrunc_comp (q q' : Q) : (q == q')%Q -> Qtrunc q = Qtrunc q'.
Proof.
  intros H. destruct (Qlt_le_dec q 0) as [N|P].
  - rewrite !Qtrunc_nonpos_ceiling by lra. apply Qceiling_comp, H.
  - rewrite !Qtrunc_nonneg_floor by lra. apply Qfloor_comp, H.
Qed.

Lemma Qtrunc_Z (n : Z) : Qtrunc (inject_Z n) = n.
Proof. unfold Qtrunc, inject_Z. cbn [Qnum Qden]. apply Z.quot_1_r. Qed.

Lemma to_int32_id (z : Z) : - 2 ^ 31 <= z < 2 ^ 31 -> to_int32 z = z.
Proof.
  intros [H1 H2]. unfold to_int32.
  apply Z.leb_le in H1. apply Z.ltb_lt in H2. rewrite H1, H2. reflexivity.
Qed.

Lemma int32_of_double_Z (q : Q) (n : Z) :
  (q == inject_Z n)%Q -> - 2 ^ 31 <= n < 2 ^ 31 -> int32_of_double q = n.
Proof.
  intros E H. unfold int32_of_double.
  rewrite (Qtrunc_comp _ _ E), Qtrunc_Z. apply to_int32_id, H.
Qed.

(** ** Two roundings: a factor that is a rounded ratio *)

Lemma eps_val : (eps == 1 # 9007199254740992)%Q.
Proof. reflexivity. Qed.

Lemma DBL_MIN_small : (DBL_MIN <= pow2 (-1001))%Q.
Proof. apply pow2_le. lia. Qed.

Lemma double_near (u : Q) :
  (pow2 (-1000) <= u)%Q ->
  (u * (1 - eps) <= double u <= u * (1 + eps))%Q.
Proof.
  intros H. pose proof (pow2_pos (-1000)) as P.
  assert (N : (DBL_MIN <= Qabs u)%Q).
  { rewrite Qabs_pos by lra. eapply Qle_trans; [|exact H]. apply pow2_le. lia. }
  pose proof (double_relative_error u N) as E.
  rewrite (Qabs_pos u) in E by lra.
  apply Qabs_Qle_condition in E. fold eps in E. destruct E as [E1 E2].
  assert (X1 : (u * (1 - eps) == u - u * eps)%Q) by ring.
  assert (X2 : (u * (1 + eps) == u + u * eps)%Q) by ring.
  rewrite X1, X2. set (ue := (u * eps)%Q) in *. clearbody ue. split; lra.
Qed.

(** ** Products and quotients with a rounded ratio *)


Lemma Qabs_le_mult (a b c : Q) :
  (0 <= a)%Q -> (b <= c)%Q -> (a * b <= a * c)%Q.
Proof.
  intros Ha H. rewrite !(Qmult_comm a). apply Qmult_le_compat_r; assumption.
Qed.

Lemma Qinv_le_contravar (a b : Q) :
  (0 < a)%Q -> (a <= b)%Q -> (/ b <= / a)%Q.
Proof.
  intros Ha H. apply Qle_shift_inv_l; [exact Ha|].
  assert (E : (/ b * a == a / b)%Q) by (field; lra). rewrite E.
  apply Qle_shift_div_r; lra.
Qed.

Lemma pow2_m1001 : (pow2 (-1001) == pow2 (-1000) * (1 # 2))%Q.
Proof.
  replace (-1001) with (-1000 - 1) by lia. rewrite pow2_pred. field.
Qed.

Lemma pow2_1000_inv : (pow2 (-1000) * pow2 1000 == 1)%Q.
Proof. rewrite <- pow2_add. reflexivity. Qed.

(** The product of a value and a rounded factor, rounded. *)
Lemma dmul_two_roundings (a u : Q) :
  (pow2 (-1000) <= u)%Q -> (a == 0)%Q \/ (1 <= Qabs a)%Q ->
  (Qabs (dmul a (double u) - a * u) <= Qabs a * u * (4 * eps))%Q.
Proof.
  intros Hu Ha. pose proof (pow2_pos (-1000)) as P.
  destruct (double_near u Hu) as [N1 N2].
  assert (Pu : (0 < u)%Q) by (set (p := pow2 (-1000)) in *; clearbody p; lra).
  destruct Ha as [Z|A1].
  - unfold dmul.
    rewrite (double_comp (a * double u) 0) by (rewrite Z; ring).
    assert (E : (double 0 - a * u == 0)%Q)
      by (rewrite Z; change (double 0) with 0%Q; ring).
    rewrite E, Z. change (Qabs 0) with 0%Q. rewrite !Qmult_0_l. apply Qle_refl.
  - remember (Qabs a) as A eqn:EA. remember (double u) as u' eqn:Eu'.
    assert (HA : (0 <= A)%Q) by (rewrite EA; apply Qabs_nonneg).
    assert (Pu' : (0 < u')%Q).
    { rewrite eps_val in N1.
      assert (X : (0 < u * (1 - (1 # 9007199254740992)))%Q).
      { apply Qmult_lt_0_compat; lra. }
      lra. }
    assert (T : (Qabs (a * u') == A * u')%Q)
      by (rewrite Qabs_Qmult, (Qabs_pos u'), EA by lra; reflexivity).
    assert (Half : (u * (1 # 2) <= u')%Q).
    { eapply Qle_trans; [|exact N1]. apply Qabs_le_mult; [lra|].
      rewrite eps_val. lra. }
    assert (Nt : (DBL_MIN <= Qabs (a * u'))%Q).
    { rewrite T. eapply Qle_trans; [apply DBL_MIN_small|].
      assert (X : (pow2 (-1001) <= u * (1 # 2))%Q).
      { rewrite pow2_m1001. set (p := pow2 (-1000)) in *. clearbody p. lra. }
      assert (Y : (1 * u' <= A * u')%Q)
        by (apply Qmult_le_compat_r; lra).
      lra. }
    pose proof (double_relative_error (a * u') Nt) as E. fold eps in E.
    rewrite T in E. unfold dmul.
    assert (D : (Qabs (a * u' - a * u) <= A * (u * eps))%Q).
    { assert (X : (a * u' - a * u == a * (u' - u))%Q) by ring.
      rewrite X, Qabs_Qmult, <- EA. apply Qabs_le_mult; [exact HA|].
      apply Qabs_Qle_condition.
      assert (X1 : (u * (1 - eps) == u - u * eps)%Q) by ring.
      assert (X2 : (u * (1 + eps) == u + u * eps)%Q) by ring.
      rewrite X1 in N1. rewrite X2 in N2.
      set (ue := (u * eps)%Q) in *. clearbody ue. split; lra. }
    assert (Tr : (Qabs (double (a * u') - a * u)
                  <= Qabs (double (a * u') - a * u') + Qabs (a * u' - a * u))%Q).
    { assert (X : (double (a * u') - a * u ==
                   (double (a * u') - a * u') + (a * u' - a * u))%Q) by ring.
      rewrite X at 1. apply Qabs_triangle. }
    assert (B : (A * u' * eps <= A * (u * (1 + eps)) * eps)%Q).
    { apply Qmult_le_compat_r; [|rewrite eps_val; lra].
      apply Qabs_le_mult; assumption. }
    assert (F : (A * (u * (1 + eps)) * eps + A * (u * eps)
                 <= A * u * (4 * eps))%Q).
    { assert (W : (0 <= A * u)%Q) by (apply Qmult_le_0_compat; lra).
      assert (X : (A * (u * (1 + eps)) * eps + A * (u * eps) ==
                   (A * u) * ((1 + eps) * eps + eps))%Q) by ring.
      rewrite X. apply Qabs_le_mult; [exact W|]. rewrite eps_val. lra. }
    lra.
Qed.

(** The quotient of a value and a rounded factor, rounded. *)
Lemma ddiv_two_roundings (a u : Q) :
  (pow2 (-1000) <= u <= pow2 1000)%Q -> (a == 0)%Q \/ (1 <= Qabs a)%Q ->
  (Qabs (ddiv a (double u) - a / u) <= Qabs a / u * (4 * eps))%Q.
Proof.
  intros [Hu Hv] Ha. pose proof (pow2_pos (-1000)) as P.
  destruct (double_near u Hu) as [N1 N2].
  assert (Pu : (0 < u)%Q) by (set (p := pow2 (-1000)) in *; clearbody p; lra).
  destruct Ha as [Z|A1].
  - unfold ddiv.
    rewrite (double_comp (a / double u) 0)
      by (rewrite Z; unfold Qdiv; ring).
    assert (E : (double 0 - a / u == 0)%Q)
      by (rewrite Z; change (double 0) with 0%Q; unfold Qdiv; ring).
    rewrite E, Z. change (Qabs 0) with 0%Q. unfold Qdiv.
    rewrite !Qmult_0_l. apply Qle_refl.
  - remember (Qabs a) as A eqn:EA. remember (double u) as u' eqn:Eu'.
    assert (HA : (0 <= A)%Q) by (rewrite EA; apply Qabs_nonneg).
    assert (Half : (u * (1 # 2) <= u')%Q).
    { eapply Qle_trans; [|exact N1]. apply Qabs_le_mult; [lra|].
      rewrite eps_val. lra. }
    assert (Dbl : (u' <= u * 2)%Q).
    { eapply Qle_trans; [exact N2|]. apply Qabs_le_mult; [lra|].
      rewrite eps_val. lra. }
    assert (Pu' : (0 < u')%Q) by lra.
    assert (T : (Qabs (a / u') == A / u')%Q).
    { unfold Qdiv. rewrite Qabs_Qmult, Qabs_Qinv, (Qabs_pos u'), EA by lra.
      reflexivity. }
    assert (I1 : (/ u' <= 2 / u)%Q).
    { assert (X : (2 / u == / (u * (1 # 2)))%Q) by (field; lra).
      rewrite X. apply Qinv_le_contravar; lra. }
    assert (I2 : (/ (u * 2) <= / u')%Q)
      by (apply Qinv_le_contravar; lra).
    assert (Nt : (DBL_MIN <= Qabs (a / u'))%Q).
    { rewrite T. eapply Qle_trans; [apply DBL_MIN_small|].
      assert (X : (pow2 (-1001) <= / (u * 2))%Q).
      { apply Qle_shift_inv_l; [lra|].
        rewrite pow2_m1001. pose proof pow2_1000_inv as W.
        assert (V : (pow2 (-1000) * u <= pow2 (-1000) * pow2 1000)%Q)
          by (apply Qabs_le_mult; lra).
        set (p := pow2 (-1000)) in *.
        assert (X : (p * (1 # 2) * (u * 2) == p * u)%Q) by field. rewrite X.
        set (pu := (p * u)%Q) in *. set (pq := (p * pow2 1000)%Q) in *.
        clearbody pu pq. lra. }
      assert (Y : (1 * / u' <= A * / u')%Q).
      { apply Qmult_le_compat_r; [lra|].
        apply Qlt_le_weak, Qinv_lt_0_compat, Pu'. }
      unfold Qdiv. lra. }
    pose proof (double_relative_error (a / u') Nt) as E. fold eps in E.
    rewrite T in E.
    (* |a/u' - a/u| = A |u - u'| / (u u') <= A eps / u' *)
    assert (D : (Qabs (a / u' - a / u) <= A * (eps * / u'))%Q).
    { assert (X : (a / u' - a / u == a * ((u - u') * / u * / u'))%Q)
        by (field; lra).
      rewrite X, Qabs_Qmult, <- EA. apply Qabs_le_mult; [exact HA|].
      rewrite Qabs_Qmult, (Qabs_pos (/ u'))
        by (apply Qlt_le_weak, Qinv_lt_0_compat, Pu').
      apply Qmult_le_compat_r;
        [|apply Qlt_le_weak, Qinv_lt_0_compat, Pu'].
      rewrite Qabs_Qmult, (Qabs_pos (/ u))
        by (apply Qlt_le_weak, Qinv_lt_0_compat, Pu).
      apply Qle_shift_div_r; [exact Pu|].
      apply Qabs_Qle_condition.
      assert (X1 : (u * (1 - eps) == u - eps * u)%Q) by ring.
      assert (X2 : (u * (1 + eps) == u + eps * u)%Q) by ring.
      rewrite X1 in N1. rewrite X2 in N2.
      set (ue := (eps * u)%Q) in *. clearbody ue. split; lra. }
    assert (Tr : (Qabs (double (a / u') - a / u)
                  <= Qabs (double (a / u') - a / u') + Qabs (a / u' - a / u))%Q).
    { assert (X : (double (a / u') - a / u ==
                   (double (a / u') - a / u') + (a / u' - a / u))%Q) by ring.
      rewrite X at 1. apply Qabs_triangle. }
    assert (F : (A / u' * eps + A * (eps * / u') <= A / u * (4 * eps))%Q).
    { assert (X : (A / u' * eps + A * (eps * / u') ==
                   (A * (2 * eps)) * / u')%Q) by (field; lra).
      assert (Y : (A / u * (4 * eps) == (A * (2 * eps)) * (2 / u))%Q)
        by (field; lra).
      rewrite X, Y. apply Qabs_le_mult; [|exact I1].
      apply Qmult_le_0_compat; [exact HA|]. rewrite eps_val. lra. }
    unfold ddiv. lra.
Qed.

(** ** Ratios of sizes *)

Lemma int_zero_or_big (a : Z) :
  (inject_Z a == 0)%Q \/ (1 <= Qabs (inject_Z a))%Q.
Proof.
  destruct (Z.eq_dec a 0) as [->|N]; [left; reflexivity|right].
  rewrite Qabs_inject_Z. rewrite <- (Zle_Qle 1). lia.
Qed.

Lemma inject_Z_pos (n : Z) : 0 < n -> (0 < inject_Z n)%Q.
Proof. intros H. rewrite <- (Zlt_Qlt 0). exact H. Qed.

Lemma pow2_31 : (pow2 31 == inject_Z (2 ^ 31))%Q.
Proof. apply pow2_Z. lia. Qed.

Lemma ratio_bounds (n m : Z) :
  0 < n < 2 ^ 31 -> 0 < m < 2 ^ 31 ->
  (pow2 (-1000) <= inject_Z n / inject_Z m <= pow2 1000)%Q.
Proof.
  intros [N1 N2] [M1 M2].
  pose proof (inject_Z_pos n N1) as Pn. pose proof (inject_Z_pos m M1) as Pm.
  assert (Bn : (1 <= inject_Z n <= pow2 31)%Q).
  { rewrite pow2_31, <- (Zle_Qle 1), <- Zle_Qle. lia. }
  assert (Bm : (1 <= inject_Z m <= pow2 31)%Q).
  { rewrite pow2_31, <- (Zle_Qle 1), <- Zle_Qle. lia. }
  assert (L : (pow2 (-1000) <= pow2 (-31))%Q) by (apply pow2_le; lia).
  assert (U : (pow2 31 <= pow2 1000)%Q) by (apply pow2_le; lia).
  assert (I : (pow2 (-31) * pow2 31 == 1)%Q)
    by (rewrite <- pow2_add; reflexivity).
  pose proof (pow2_pos (-31)) as P1. pose proof (pow2_pos 31) as P2.
  split.
  - eapply Qle_trans; [exact L|].
    apply Qle_shift_div_l; [exact Pm|].
    assert (X : (pow2 (-31) * inject_Z m <= pow2 (-31) * pow2 31)%Q)
      by (apply Qabs_le_mult; lra).
    set (a := (pow2 (-31) * inject_Z m)%Q) in *.
    set (b := (pow2 (-31) * pow2 31)%Q) in *. clearbody a b.
    set (c := pow2 (-31)) in *. set (d := pow2 31) in *. clearbody c d.
    clear L U. lra.
  - eapply Qle_trans; [|exact U].
    apply Qle_shift_div_r; [exact Pm|].
    assert (X : (pow2 31 * 1 <= pow2 31 * inject_Z m)%Q)
      by (apply Qabs_le_mult; lra).
    set (a := (pow2 31 * inject_Z m)%Q) in *. clearbody a.
    clear L U I P1. set (d := pow2 31) in *. clearbody d. lra.
Qed.

Lemma pow2_m51 : (4 * eps == 1 / inject_Z (2 ^ 51))%Q.
Proof. reflexivity. Qed.

(** A value within [1/k] of the rational [t/k] has a floor that is at most
    the floor of [t/k] and a ceiling that is at least its ceiling. *)
Lemma near_rational (y : Q) (t k : Z) :
  0 < k ->
  (Qabs (y - inject_Z t / inject_Z k) < 1 / inject_Z k)%Q ->
  Qfloor y <= Qfloor (inject_Z t / inject_Z k) /\
  Qceiling (inject_Z t / inject_Z k) <= Qceiling y.
Proof.
  intros Hk H. pose proof (inject_Z_pos k Hk) as Pk.
  set (x := (inject_Z t / inject_Z k)%Q) in *.
  apply Qabs_Qlt_condition in H. destruct H as [H1 H2].
  assert (Xk : (x * inject_Z k == inject_Z t)%Q) by (unfold x; field; lra).
  split.
  - (* x <= floor x + 1 - 1/k *)
    pose proof (Qlt_floor x) as F.
    assert (G : t + 1 <= (Qfloor x + 1) * k).
    { assert (t < (Qfloor x + 1) * k); [|lia].
      rewrite Zlt_Qlt, inject_Z_mult, <- Xk.
      apply Qmult_lt_compat_r; assumption. }
    rewrite Zle_Qle, inject_Z_plus, inject_Z_mult, <- Xk in G.
    change (inject_Z 1) with 1%Q in G.
    assert (G' : (x + 1 / inject_Z k <= inject_Z (Qfloor x + 1))%Q).
    { apply Qmult_lt_0_le_reg_r with (inject_Z k); [exact Pk|].
      assert (E : ((x + 1 / inject_Z k) * inject_Z k ==
                   x * inject_Z k + 1)%Q) by (field; lra).
      rewrite E. exact G. }
    assert (L : Qfloor y < Qfloor x + 1).
    { rewrite Zlt_Qlt. eapply Qle_lt_trans; [apply Qfloor_le|].
      set (ik := (1 / inject_Z k)%Q) in *. clearbody ik. clearbody x. lra. }
    lia.
  - pose proof (Qceiling_lt x) as F.
    assert (G : (Qceiling x - 1) * k <= t - 1).
    { assert ((Qceiling x - 1) * k < t); [|lia].
      rewrite Zlt_Qlt, inject_Z_mult, <- Xk.
      apply Qmult_lt_compat_r; assumption. }
    rewrite Zle_Qle in G. unfold Z.sub in G.
    rewrite inject_Z_plus, inject_Z_mult, <- Xk in G.
    change (inject_Z (-1)) with (- 1)%Q in G.
    assert (G' : (inject_Z (Qceiling x + -1) <= x - 1 / inject_Z k)%Q).
    { apply Qmult_lt_0_le_reg_r with (inject_Z k); [exact Pk|].
      assert (E : ((x - 1 / inject_Z k) * inject_Z k ==
                   x * inject_Z k + - 1)%Q) by (field; lra).
      rewrite E. exact G. }
    assert (L : Qceiling x + -1 < Qceiling y).
    { rewrite Zlt_Qlt. eapply Qlt_le_trans; [|apply Qle_ceiling].
      set (ik := (1 / inject_Z k)%Q) in *. clearbody ik. clearbody x. lra. }
    lia.
Qed.

(** An integer times the [double] ratio of two sizes, rounded: its floor
    and its ceiling enclose the exact product. *)
Lemma dmul_ratio_floor_ceil (a n m : Z) :
  0 < n < 2 ^ 31 -> 0 < m < 2 ^ 31 -> Z.abs a * n < 2 ^ 51 ->
  let y := dmul (inject_Z a) (ddiv (inject_Z n) (inject_Z m)) in
  (inject_Z (Qfloor y) <= inject_Z a * (inject_Z n / inject_Z m) /\
   inject_Z a * (inject_Z n / inject_Z m) <= inject_Z (Qceiling y))%Q.
Proof.
  intros Hn Hm Ha y.
  pose proof (inject_Z_pos m (proj1 Hm)) as Pm.
  pose proof (inject_Z_pos n (proj1 Hn)) as Pn.
  destruct (ratio_bounds n m Hn Hm) as [R1 _].
  pose proof (dmul_two_roundings (inject_Z a) (inject_Z n / inject_Z m) R1
                (int_zero_or_big a)) as E.
  fold (ddiv (inject_Z n) (inject_Z m)) in E. fold y in E.
  assert (X : (inject_Z a * (inject_Z n / inject_Z m) ==
               inject_Z (a * n) / inject_Z m)%Q)
    by (rewrite inject_Z_mult; field; lra).
  assert (B : (Qabs (inject_Z a) * (inject_Z n / inject_Z m) * (4 * eps)
               < 1 / inject_Z m)%Q).
  { rewrite Qabs_inject_Z, pow2_m51.
    assert (P51 : (0 < inject_Z (2 ^ 51))%Q) by reflexivity.
    assert (Y : (inject_Z (Z.abs a) * (inject_Z n / inject_Z m)
                 * (1 / inject_Z (2 ^ 51)) ==
                 (inject_Z (Z.abs a * n) / inject_Z (2 ^ 51))
                 * (1 / inject_Z m))%Q)
      by (rewrite inject_Z_mult; field; split; lra).
    rewrite Y.
    assert (W : (inject_Z (Z.abs a * n) / inject_Z (2 ^ 51) < 1)%Q).
    { apply Qlt_shift_div_r; [exact P51|]. rewrite Qmult_1_l, <- Zlt_Qlt.
      exact Ha. }
    assert (V : (0 < 1 / inject_Z m)%Q).
    { apply Qlt_shift_div_l; [exact Pm|]. rewrite Qmult_0_l. reflexivity. }
    rewrite <- (Qmult_1_l (1 / inject_Z m)) at 2.
    apply Qmult_lt_compat_r; assumption. }
  rewrite X in E.
  destruct (near_rational y (a * n) m (proj1 Hm)) as [F C].
  { eapply Qle_lt_trans; [exact E|exact B]. }
  rewrite X. split.
  - eapply Qle_trans; [|apply Qfloor_le]. rewrite <- Zle_Qle. exact F.
  - eapply Qle_trans; [apply Qle_ceiling|]. rewrite <- Zle_Qle. exact C.
Qed.

(** An integer divided by the [double] ratio of two sizes, rounded. *)
Lemma ddiv_ratio_error (a n m : Z) :
  0 < n < 2 ^ 31 -> 0 < m < 2 ^ 31 ->
  let y := ddiv (inject_Z a) (ddiv (inject_Z n) (inject_Z m)) in
  (Qabs (y - inject_Z (a * m) / inject_Z n)
   <= inject_Z (Z.abs a * m) / inject_Z (2 ^ 51) * (1 / inject_Z n))%Q.
Proof.
  intros Hn Hm y.
  pose proof (inject_Z_pos m (proj1 Hm)) as Pm.
  pose proof (inject_Z_pos n (proj1 Hn)) as Pn.
  pose proof (ddiv_two_roundings (inject_Z a) (inject_Z n / inject_Z m)
                (ratio_bounds n m Hn Hm) (int_zero_or_big a)) as E.
  fold (ddiv (inject_Z n) (inject_Z m)) in E. fold y in E.
  assert (X : (inject_Z a / (inject_Z n / inject_Z m) ==
               inject_Z (a * m) / inject_Z n)%Q)
    by (rewrite inject_Z_mult; field; split; lra).
  rewrite X in E. eapply Qle_trans; [exact E|].
  rewrite Qabs_inject_Z, pow2_m51.
  assert (P51 : (0 < inject_Z (2 ^ 51))%Q) by reflexivity.
  apply Qle_lteq. right. rewrite inject_Z_mult. field. repeat split; lra.
Qed.

Lemma ddiv_ratio_floor_ceil (a n m : Z) :
  0 < n < 2 ^ 31 -> 0 < m < 2 ^ 31 -> Z.abs a * m < 2 ^ 51 ->
  let y := ddiv (inject_Z a) (ddiv (inject_Z n) (inject_Z m)) in
  (inject_Z (Qfloor y) <= inject_Z a / (inject_Z n / inject_Z m) /\
   inject_Z a / (inject_Z n / inject_Z m) <= inject_Z (Qceiling y))%Q.
Proof.
  intros Hn Hm Ha y.
  pose proof (inject_Z_pos m (proj1 Hm)) as Pm.
  pose proof (inject_Z_pos n (proj1 Hn)) as Pn.
  pose proof (ddiv_ratio_error a n m Hn Hm) as E. fold y in E.
  assert (X : (inject_Z a / (inject_Z n / inject_Z m) ==
               inject_Z (a * m) / inject_Z n)%Q)
    by (rewrite inject_Z_mult; field; split; lra).
  assert (P51 : (0 < inject_Z (2 ^ 51))%Q) by reflexivity.
  assert (W : (inject_Z (Z.abs a * m) / inject_Z (2 ^ 51) < 1)%Q).
  { apply Qlt_shift_div_r; [exact P51|]. rewrite Qmult_1_l, <- Zlt_Qlt.
    exact Ha. }
  assert (V : (0 < 1 / inject_Z n)%Q).
  { apply Qlt_shift_div_l; [exact Pn|]. rewrite Qmult_0_l. reflexivity. }
  destruct (near_rational y (a * m) n (proj1 Hn)) as [F C].
  { eapply Qle_lt_trans; [exact E|].
    rewrite <- (Qmult_1_l (1 / inject_Z n)) at 2.
    apply Qmult_lt_compat_r; assumption. }
  rewrite X. split.
  - eapply Qle_trans; [|apply Qfloor_le]. rewrite <- Zle_Qle. exact F.
  - eapply Qle_trans; [apply Qle_ceiling|]. rewrite <- Zle_Qle. exact C.
Qed.

(** * Properties *)

(** ** Loops over integer ranges *)

Lemma existsb_zrange (c lo hi : Z) :
  existsb (Z.eqb c) (zrange lo hi) = (lo <=? c) && (c <? hi).
Proof.
  unfold zrange.
  destruct ((lo <=? c) && (c <? hi)) eqn:E.
  - apply andb_prop in E as [H1 H2].
    apply Z.leb_le in H1. apply Z.ltb_lt in H2.
    apply existsb_exists. exists c. split; [|apply Z.eqb_refl].
    apply in_map_iff. exists (Z.to_nat (c - lo)). split; [lia|].
    apply in_seq. lia.
  - apply not_true_is_false. intros H.
    apply existsb_exists in H as [x [Hin Hx]]. apply Z.eqb_eq in Hx. subst x.
    apply in_map_iff in Hin as [i [Hi Hin]]. apply in_seq in Hin.
    apply andb_false_iff in E as [E|E].
    + apply Z.leb_gt in E. lia.
    + apply Z.ltb_ge in E. lia.
Qed.

(** ** Crop views *)

Lemma cv_get_set (d : CropView) (x y a b : Z) (v : PixelMask) :
  cv_get (cv_set d x y v) a b =
  if (a =? x) && (b =? y) then v else cv_get d a b.
Proof.
  unfold cv_get, cv_set. simpl.
  replace (a + ci d =? x + ci d) with (a =? x)
    by (destruct (Z.eqb_spec a x), (Z.eqb_spec (a + ci d) (x + ci d)); lia).
  replace (b + cj d =? y + cj d) with (b =? y)
    by (destruct (Z.eqb_spec b y), (Z.eqb_spec (b + cj d) (y + cj d)); lia).
  reflexivity.
Qed.

(** The inner loop of [mask_outside] over the rows [l] of column [col]. *)
Lemma mask_rows_get (win : BBox2i.t) (col : Z) (l : list Z) :
  forall (d : CropView) (c r : Z),
    cv_get
      (fold_left
         (fun d row =>
            if negb (BBox2i.contains win (col, row))
            then cv_set d col row None else d) l d) c r =
    if (c =? col) && existsb (Z.eqb r) l && negb (BBox2i.contains win (col, r))
    then None else cv_get d c r.
Proof.
  induction l as [|row l IH]; intros d c r; simpl.
  - rewrite andb_false_r. reflexivity.
  - rewrite IH. clear IH.
    destruct (Z.eqb_spec c col) as [->|Hc]; simpl; [|
      destruct (BBox2i.contains win (col, row)); simpl;
      [reflexivity | rewrite cv_get_set;
                     destruct (Z.eqb_spec c col); [contradiction|reflexivity]]].
    destruct (Z.eqb_spec r row) as [->|Hr]; simpl.
    + destruct (BBox2i.contains win (col, row)) eqn:E; simpl.
      * rewrite andb_false_r. reflexivity.
      * rewrite cv_get_set, !Z.eqb_refl. simpl.
        destruct (existsb _ l); reflexivity.
    + destruct (existsb (Z.eqb r) l && negb (BBox2i.contains win (col, r)));
        [reflexivity|].
      destruct (BBox2i.contains win (col, row)); simpl; [reflexivity|].
      rewrite cv_get_set.
      destruct (Z.eqb_spec r row); [contradiction|].
      rewrite andb_false_r. reflexivity.
Qed.

(** Both loops: a pixel is invalidated when it was visited and is outside
    the window, and is the engine's pixel otherwise. *)
Lemma mask_outside_get (win bbox : BBox2i.t) (d : CropView) (c r : Z) :
  cv_get (mask_outside win bbox d) c r =
  if BBox2i.contains bbox (c, r) && negb (BBox2i.contains win (c, r))
  then None else cv_get d c r.
Proof.
  unfold mask_outside.
  assert (G : forall lc d0,
    cv_get
      (fold_left
         (fun d col =>
            fold_left
              (fun d row =>
                 if negb (BBox2i.contains win (col, row))
                 then cv_set d col row None else d)
              (zrange (snd (BBox2i.min bbox)) (snd (BBox2i.max bbox))) d)
         lc d0) c r =
    if existsb (Z.eqb c) lc &&
       existsb (Z.eqb r)
               (zrange (snd (BBox2i.min bbox)) (snd (BBox2i.max bbox))) &&
       negb (BBox2i.contains win (c, r))
    then None else cv_get d0 c r).
  { induction lc as [|col lc IH]; intros d0; simpl; [reflexivity|].
    rewrite IH, mask_rows_get. clear IH.
    destruct (Z.eqb_spec c col) as [->|Hc]; simpl.
    - destruct (existsb (Z.eqb r) _ && negb _) eqn:E;
        destruct (existsb (Z.eqb col) lc); simpl; rewrite ?E; reflexivity.
    - reflexivity. }
  rewrite G, !existsb_zrange.
  unfold BBox2i.contains. simpl.
  destruct (fst (BBox2i.min bbox) <=? c), (c <? fst (BBox2i.max bbox)),
    (snd (BBox2i.min bbox) <=? r), (r <? snd (BBox2i.max bbox));
    reflexivity.
Qed.

(** ** The dispatcher and the crop window *)

(** C2. Every cell of the field that [prerasterize] returns for a tile and
    that lies outside the crop window [m_trans_crop_win] is invalid. A tile
    that does not intersect the window comes back as an all-invalid field of
    the tile's width and height, with the log of engine invocations
    unchanged; a tile that intersects it invokes the engine once, and the
    cells of the tile outside the window are invalid in the result. *)
Theorem prerasterize_outside_crop_invalid
    (engine : EngineCall -> CropView) (s : StereoSettings) (ts : Z)
    (v : SeededCorrelatorView) (bbox : BBox2i.t) (log : list EngineCall) :
  (BBox2i.empty (BBox2i.crop bbox (m_trans_crop_win v)) = true ->
   exists d,
     prerasterize engine s ts v bbox log = (inr d, log) /\
     cols (child d) = BBox2i.width bbox /\
     rows (child d) = BBox2i.height bbox /\
     forall x y, cv_get d x y = None) /\
  (BBox2i.empty (BBox2i.crop bbox (m_trans_crop_win v)) = false ->
   forall r, local_search_range s ts v bbox = inr r ->
   exists d,
     prerasterize engine s ts v bbox log =
       (inr d, log ++ [mkCall (use_local_homography s) r bbox])) /\
  (forall d log',
     prerasterize engine s ts v bbox log = (inr d, log') ->
     forall col row,
       BBox2i.contains bbox (col, row) = true ->
       BBox2i.contains (m_trans_crop_win v) (col, row) = false ->
       cv_get d col row = None).
Proof.
  unfold prerasterize, prerasterize_helper.
  destruct (BBox2i.empty (BBox2i.crop bbox (m_trans_crop_win v))) eqn:E.
  - split; [|split].
    + intros _. eexists. split; [reflexivity|]. simpl. auto.
    + discriminate.
    + intros d log' H col row _ _. unfold ret in H.
      injection H as <- _. reflexivity.
  - split; [discriminate|split].
    + intros _ r Hr. rewrite Hr. eexists. reflexivity.
    + intros d log' H col row Hin Hout.
      destruct (local_search_range s ts v bbox) as [e|r].
      * discriminate.
      * unfold bind, modify, ret in H. injection H as <- _.
        rewrite mask_outside_get, Hin, Hout. reflexivity.
Qed.

Lemma prerasterize_outside_crop_invalid_witness :
  cv_get
    (mask_outside (BBox2i.xywh 0 0 8 8) sample_tile
       (sample_engine (mkCall false (BBox2i.mk (0, 0) (24, 24)) sample_tile)))
    12 3 = None.
Proof.
  apply (proj2 (proj2 (prerasterize_outside_crop_invalid
                  sample_engine (sample_settings 1 false) 1024
                  (sample_view (const_image 2 2 (Some (1, 1))) no_image
                               (BBox2i.xywh 0 0 8 8))
                  sample_tile [])) _
               [mkCall false (BBox2i.mk (0, 0) (24, 24)) sample_tile]).
  - vm_compute. reflexivity.
  - reflexivity.
  - reflexivity.
Defined.

(** ** The sanity check on the spread field *)

(** What the check tests: the spread field is there and BOTH its width and
    its height differ from the seed's. *)
Lemma spread_size_check_fails_iff (v : SeededCorrelatorView) :
  spread_size_check_fails v = true <->
  has_sub_disp_spread v = true /\
  cols (m_sub_disp_spread v) <> cols (m_sub_disp v) /\
  rows (m_sub_disp_spread v) <> rows (m_sub_disp v).
Proof.
  unfold spread_size_check_fails.
  rewrite !andb_true_iff, !negb_true_iff, !Z.eqb_neq. tauto.
Qed.

(** C3. The code at a spread field whose height differs from the seed's
    while the widths agree (seed 2 x 2, spread 2 x 3, so that every pixel
    read from the spread exists): the spread field is taken as provided,
    the sanity check does not fire, and the tile is evaluated to a search
    range instead of failing. *)
Theorem spread_height_mismatch_not_rejected :
  has_sub_disp_spread tall_spread_view = true /\
  cols (m_sub_disp_spread tall_spread_view) =
    cols (m_sub_disp tall_spread_view) /\
  rows (m_sub_disp_spread tall_spread_view) <>
    rows (m_sub_disp tall_spread_view) /\
  reads_inside tall_spread_view /\
  spread_size_check_fails tall_spread_view = false /\
  local_search_range (sample_settings 1 false) 1024 tall_spread_view
                     sample_tile = inr (BBox2i.mk (0, 0) (24, 24)).
Proof.
  split; [reflexivity|]. split; [reflexivity|]. split; [discriminate|].
  split; [|split].
  - split; [reflexivity|]. intros _. cbn. lia.
  - reflexivity.
  - vm_compute. reflexivity.
Qed.

(** ** Rounding, expansion and scaling of the tile's range *)

(** The shape of the result in seed mode > 0. *)
Lemma local_search_range_seeded (s : StereoSettings) (ts : Z)
    (v : SeededCorrelatorView) (bbox r : BBox2i.t) :
  0 < seed_mode s ->
  local_search_range s ts v bbox = inr r ->
  spread_size_check_fails v = false /\
  r = BBox2f.to_int
        (scale_to_fullres (m_upscale_factor v)
           (BBox2f.expand
              (BBox2f.of_int (grow_bbox_to_int (unrounded_range s ts v bbox)))
              1)).
Proof.
  intros Hm H. unfold local_search_range, local_search_range_f in H.
  apply Z.ltb_lt in Hm. rewrite Hm in H.
  destruct (spread_size_check_fails v); [discriminate|].
  injection H as <-. split; reflexivity.
Qed.

Lemma local_search_range_seeded_eq (s : StereoSettings) (ts : Z)
    (v : SeededCorrelatorView) (bbox : BBox2i.t) :
  0 < seed_mode s -> spread_size_check_fails v = false ->
  local_search_range s ts v bbox =
  inr (BBox2f.to_int
         (scale_to_fullres (m_upscale_factor v)
            (BBox2f.expand
               (BBox2f.of_int (grow_bbox_to_int (unrounded_range s ts v bbox)))
               1))).
Proof.
  intros Hm Hc. unfold local_search_range, local_search_range_f.
  apply Z.ltb_lt in Hm. rewrite Hm, Hc. reflexivity.
Qed.

Lemma within_nonneg (M : Z) (b : BBox2f.t) : within M b -> 0 <= M.
Proof.
  intros ([H1 H2] & _). rewrite Zle_Qle. change (inject_Z 0) with 0%Q. lra.
Qed.

Lemma Qfloor_within (x : Q) (M : Z) :
  (- inject_Z M <= x <= inject_Z M)%Q -> - M <= Qfloor x <= M.
Proof.
  intros [H1 H2]. split.
  - rewrite <- (Qfloor_Z (- M)). apply Qfloor_resp_le.
    rewrite inject_Z_opp. exact H1.
  - rewrite <- (Qfloor_Z M). apply Qfloor_resp_le. exact H2.
Qed.

Lemma Qceiling_within (x : Q) (M : Z) :
  (- inject_Z M <= x <= inject_Z M)%Q -> - M <= Qceiling x <= M.
Proof.
  intros [H1 H2]. split.
  - rewrite <- (Qceiling_Z (- M)). apply Qceiling_resp_le.
    rewrite inject_Z_opp. exact H1.
  - rewrite <- (Qceiling_Z M). apply Qceiling_resp_le. exact H2.
Qed.

(** A product of a value within [-A, A] and a factor within [0, U]. *)
Lemma Qmult_within (a u A U : Q) :
  (- A <= a <= A)%Q -> (0 <= u <= U)%Q -> (- (A * U) <= a * u <= A * U)%Q.
Proof.
  intros [A1 A2] [U1 U2].
  assert (HA : (0 <= A)%Q) by lra.
  assert (X1 : (a * u <= A * u)%Q) by (apply Qmult_le_compat_r; assumption).
  assert (X2 : (- A * u <= a * u)%Q) by (apply Qmult_le_compat_r; assumption).
  assert (X3 : (A * u <= A * U)%Q) by (apply Qabs_le_mult; assumption).
  assert (E : (- A * u == - (A * u))%Q) by ring. rewrite E in X2.
  set (au := (a * u)%Q) in *. set (Au := (A * u)%Q) in *.
  set (AU := (A * U)%Q) in *. clearbody au Au AU. split; lra.
Qed.

(** The [double] product of a small integer and a small factor. *)
Lemma dmul_within (a : Z) (u : Q) (A U : Z) :
  Z.abs a <= A -> (0 <= u <= inject_Z U)%Q -> A * U <= 2 ^ 24 ->
  (- inject_Z (A * U) <= dmul (inject_Z a) u <= inject_Z (A * U))%Q.
Proof.
  intros Ha Hu Hb.
  assert (P : (- inject_Z A <= inject_Z a <= inject_Z A)%Q).
  { rewrite <- inject_Z_opp, <- !Zle_Qle. lia. }
  destruct (Qmult_within _ _ _ _ P Hu) as [B1 B2].
  rewrite <- inject_Z_mult in B1, B2.
  assert (HAU : 0 <= A * U).
  { destruct Hu as [U1 U2]. assert (0 <= U).
    { rewrite Zle_Qle. eapply Qle_trans; eassumption. }
    apply Z.mul_nonneg_nonneg; lia. }
  assert (Z1 : (double (inject_Z (A * U)) == inject_Z (A * U))%Q)
    by (apply double_Z; lia).
  assert (Z2 : (double (inject_Z (- (A * U))) == inject_Z (- (A * U)))%Q)
    by (apply double_Z; lia).
  unfold dmul. split.
  - rewrite <- inject_Z_opp, <- Z2. apply double_mono.
    rewrite inject_Z_opp. exact B1.
  - rewrite <- Z1. apply double_mono. exact B2.
Qed.

(** The corner [min] of the box, from the integer before the expansion to
    the [int] the correlator receives. *)
Lemma scale_min_small (a : Z) (u : Q) (M U : Z) :
  Z.abs a <= M -> (0 <= u <= inject_Z U)%Q -> 1 <= U ->
  (M + 2) * U <= 2 ^ 24 ->
  int32_of_double
    (float32 (inject_Z (Qfloor (dmul (fsub (float32 (inject_Z a)) 1) u)))) =
  Qfloor (dmul (inject_Z (a - 1)) u).
Proof.
  intros Ha Hu HU Hb.
  assert (HM : M + 2 <= 2 ^ 24) by nia.
  assert (E1 : (fsub (float32 (inject_Z a)) 1 == inject_Z (a - 1))%Q).
  { unfold fsub.
    rewrite (float32_comp (float32 (inject_Z a) - 1) (inject_Z (a - 1))).
    - apply float32_Z. lia.
    - rewrite float32_Z by lia. unfold Z.sub.
      rewrite inject_Z_plus, inject_Z_opp. reflexivity. }
  unfold dmul at 1.
  rewrite (double_comp (fsub (float32 (inject_Z a)) 1 * u)
                       (inject_Z (a - 1) * u)) by (rewrite E1; reflexivity).
  fold (dmul (inject_Z (a - 1)) u).
  destruct (dmul_within (a - 1) u (M + 2) U) as [B1 B2];
    [lia|exact Hu|exact Hb|].
  rewrite <- inject_Z_opp in B1.
  pose proof (Qfloor_within _ _ (conj B1 B2)) as F.
  rewrite inject_Z_opp in B1.
  apply int32_of_double_Z; [|lia].
  apply float32_Z. lia.
Qed.

(** The corner [max] of the box. *)
Lemma scale_max_small (a : Z) (u : Q) (M U : Z) :
  Z.abs a <= M -> (0 <= u <= inject_Z U)%Q -> 1 <= U ->
  (M + 2) * U <= 2 ^ 24 ->
  int32_of_double
    (float32
       (inject_Z (Qceiling (dmul (fadd (float32 (inject_Z (a + 1))) 1) u)))) =
  Qceiling (dmul (inject_Z (a + 2)) u).
Proof.
  intros Ha Hu HU Hb.
  assert (HM : M + 2 <= 2 ^ 24) by nia.
  assert (E1 : (fadd (float32 (inject_Z (a + 1))) 1 == inject_Z (a + 2))%Q).
  { unfold fadd.
    rewrite (float32_comp (float32 (inject_Z (a + 1)) + 1)
                          (inject_Z (a + 2))).
    - apply float32_Z. lia.
    - rewrite float32_Z by lia. replace (a + 2) with (a + 1 + 1) by lia.
      rewrite (inject_Z_plus (a + 1) 1). reflexivity. }
  unfold dmul at 1.
  rewrite (double_comp (fadd (float32 (inject_Z (a + 1))) 1 * u)
                       (inject_Z (a + 2) * u)) by (rewrite E1; reflexivity).
  fold (dmul (inject_Z (a + 2)) u).
  destruct (dmul_within (a + 2) u (M + 2) U) as [B1 B2];
    [lia|exact Hu|exact Hb|].
  rewrite <- inject_Z_opp in B1.
  pose proof (Qceiling_within _ _ (conj B1 B2)) as F.
  apply int32_of_double_Z; [|lia].
  apply float32_Z. lia.
Qed.

(** A range within [-M, M], [M] small: every [float] of the chain holds
    an integer exactly, and only the [double] product rounds. *)
Lemma round_expand_scale_small (u : Vector2) (r : BBox2f.t) (M U : Z) :
  within M r ->
  (0 <= fst u <= inject_Z U)%Q -> (0 <= snd u <= inject_Z U)%Q ->
  1 <= U -> (M + 2) * U <= 2 ^ 24 ->
  grow_bbox_to_int r =
    BBox2i.mk (Qfloor (fst (BBox2f.min r)), Qfloor (snd (BBox2f.min r)))
              (Qfloor (fst (BBox2f.max r)) + 1,
               Qfloor (snd (BBox2f.max r)) + 1) /\
  BBox2f.to_int
    (scale_to_fullres u
       (BBox2f.expand (BBox2f.of_int (grow_bbox_to_int r)) 1)) =
  BBox2i.mk
    (Qfloor (dmul (inject_Z (Qfloor (fst (BBox2f.min r)) - 1)) (fst u)),
     Qfloor (dmul (inject_Z (Qfloor (snd (BBox2f.min r)) - 1)) (snd u)))
    (Qceiling (dmul (inject_Z (Qfloor (fst (BBox2f.max r)) + 2)) (fst u)),
     Qceiling (dmul (inject_Z (Qfloor (snd (BBox2f.max r)) + 2)) (snd u))).
Proof.
  intros Hw Hx Hy HU Hb.
  pose proof (within_nonneg _ _ Hw) as HM0.
  destruct Hw as (W1 & W2 & W3 & W4).
  assert (HM : M + 2 <= 2 ^ 24) by nia.
  pose proof (Qfloor_within _ _ W1) as F1.
  pose proof (Qfloor_within _ _ W2) as F2.
  pose proof (Qfloor_within _ _ W3) as F3.
  pose proof (Qfloor_within _ _ W4) as F4.
  assert (G : grow_bbox_to_int r =
    BBox2i.mk (Qfloor (fst (BBox2f.min r)), Qfloor (snd (BBox2f.min r)))
              (Qfloor (fst (BBox2f.max r)) + 1,
               Qfloor (snd (BBox2f.max r)) + 1)).
  { unfold grow_bbox_to_int, grow_corners_to_int.
    rewrite !to_int32_id by lia. reflexivity. }
  split; [exact G|]. rewrite G.
  unfold BBox2f.to_int, scale_to_fullres, BBox2f.expand, BBox2f.of_int,
    to_Vector2i, to_Vector2f, floor2, ceil2, elem_prod.
  cbn [fst snd BBox2i.min BBox2i.max BBox2f.min BBox2f.max].
  rewrite (scale_min_small _ (fst u) M U) by (try lia; assumption).
  rewrite (scale_min_small _ (snd u) M U) by (try lia; assumption).
  rewrite (scale_max_small _ (fst u) M U) by (try lia; assumption).
  rewrite (scale_max_small _ (snd u) M U) by (try lia; assumption).
  reflexivity.
Qed.

(** The upscale factor that the constructor stores: the [double] nearest
    to the ratio of the sizes. *)
Lemma ddiv_sizes_bound (n m U : Z) :
  0 < n -> 0 < m -> n <= U * m -> U <= 2 ^ 53 ->
  (0 <= ddiv (inject_Z n) (inject_Z m) <= inject_Z U)%Q.
Proof.
  intros Hn Hm H HU.
  pose proof (inject_Z_pos n Hn) as Pn. pose proof (inject_Z_pos m Hm) as Pm.
  assert (HU0 : 0 <= U) by nia.
  unfold ddiv. split.
  - apply round_to_nonneg. apply Qle_shift_div_l; [exact Pm|]. lra.
  - rewrite <- (double_Z U) by lia. apply double_mono.
    apply Qle_shift_div_r; [exact Pm|].
    rewrite <- inject_Z_mult, <- Zle_Qle. exact H.
Qed.

(** At a seed disparity of [2 ^ 24] and an upscale factor of 1 the [float]
    box cannot hold the integer next to its max corner: the range
    [2 ^ 24, 2 ^ 24] is rounded to the integer box [2 ^ 24, 2 ^ 24 + 1),
    and the box returned ends at [2 ^ 24], below the max corner expanded by
    one. *)
Lemma expand_by_one_at_float_limit :
  reads_inside (unit_scale_view (2 ^ 24)) /\
  (fst (BBox2f.max (unrounded_range (sample_settings 1 false) 1024
                      (unit_scale_view (2 ^ 24)) unit_scale_tile))
   == inject_Z (2 ^ 24))%Q /\
  (fst (m_upscale_factor (unit_scale_view (2 ^ 24))) == 1)%Q /\
  local_search_range (sample_settings 1 false) 1024
                     (unit_scale_view (2 ^ 24)) unit_scale_tile =
    inr (BBox2i.mk (2 ^ 24 - 1, -1) (2 ^ 24, 2)).
Proof.
  split; [|split; [|split]].
  - split; [reflexivity|]. intros C. discriminate C.
  - vm_compute. reflexivity.
  - vm_compute. reflexivity.
  - vm_compute. reflexivity.
Qed.

(** C4, as stated, fails: it is not the case that for every tile in seed
    mode > 0 the box returned reaches the max corner of the range expanded
    by one unit and scaled. The range is held in a box of [float], in
    which the expansion by one is lost from [2 ^ 24] on. *)
Lemma expansion_lost_beyond_float :
  ~ (forall (s : StereoSettings) (ts : Z) (v : SeededCorrelatorView)
            (bbox r : BBox2i.t),
       0 < seed_mode s -> reads_inside v ->
       local_search_range s ts v bbox = inr r ->
       ((fst (BBox2f.max (unrounded_range s ts v bbox)) + 1)
          * fst (m_upscale_factor v)
        <= inject_Z (fst (BBox2i.max r)))%Q).
Proof.
  intros H.
  destruct expand_by_one_at_float_limit as (R & U & K & E).
  specialize (H (sample_settings 1 false) 1024 (unit_scale_view (2 ^ 24))
                unit_scale_tile _ ltac:(simpl; lia) R E).
  rewrite U, K in H. vm_compute in H. apply H. reflexivity.
Qed.

(** C4, amended. In seed mode > 0, for a view that the constructor built
    from an image and a seed of positive sizes, with a spread field, if
    any, that covers the seed, and a range before rounding
    that lies within [-M, M] with [(M + 2) * U] at most [2 ^ 24], [U]
    bounding the ratios of the sizes (so that a [float] holds every corner
    exactly): the range is first rounded outward to the integer box [ib]
    ([floor] of the min corner, [floor + 1] of the max corner, so [ib]
    contains it), then [ib] is expanded by exactly one unit on every side,
    then the result is multiplied by the per-axis upscale factor with
    [floor] on the min corner and [ceil] on the max corner of the [double]
    products; the box returned contains the expanded box scaled by the
    exact ratios of the sizes. *)
Theorem local_search_range_round_expand_scale
    (s : StereoSettings) (ts : Z) (left_cols left_rows : Z)
    (seed spread : DispSeedImageType) (hom : ImageView Matrix3x3)
    (win bbox r : BBox2i.t) (M U : Z) :
  let v := make_SeededCorrelatorView left_cols left_rows seed spread hom
                                     win in
  let u := unrounded_range s ts v bbox in
  let kx := (inject_Z left_cols / inject_Z (cols seed))%Q in
  let ky := (inject_Z left_rows / inject_Z (rows seed))%Q in
  0 < seed_mode s -> reads_inside v ->
  0 < cols seed < 2 ^ 31 -> 0 < rows seed < 2 ^ 31 ->
  0 < left_cols < 2 ^ 27 -> 0 < left_rows < 2 ^ 27 ->
  left_cols <= U * cols seed -> left_rows <= U * rows seed ->
  within M u -> (M + 2) * U <= 2 ^ 24 ->
  local_search_range s ts v bbox = inr r ->
  exists ib : BBox2i.t,
    ib = grow_bbox_to_int u /\
    (inject_Z (fst (BBox2i.min ib)) <= fst (BBox2f.min u) /\
     inject_Z (snd (BBox2i.min ib)) <= snd (BBox2f.min u) /\
     fst (BBox2f.max u) < inject_Z (fst (BBox2i.max ib)) /\
     snd (BBox2f.max u) < inject_Z (snd (BBox2i.max ib)))%Q /\
    let eb := BBox2i.expand ib 1 in
    r = BBox2i.mk
          (Qfloor (dmul (inject_Z (fst (BBox2i.min eb)))
                        (fst (m_upscale_factor v))),
           Qfloor (dmul (inject_Z (snd (BBox2i.min eb)))
                        (snd (m_upscale_factor v))))
          (Qceiling (dmul (inject_Z (fst (BBox2i.max eb)))
                          (fst (m_upscale_factor v))),
           Qceiling (dmul (inject_Z (snd (BBox2i.max eb)))
                          (snd (m_upscale_factor v)))) /\
    (inject_Z (fst (BBox2i.min r)) <= inject_Z (fst (BBox2i.min eb)) * kx /\
     inject_Z (snd (BBox2i.min r)) <= inject_Z (snd (BBox2i.min eb)) * ky /\
     inject_Z (fst (BBox2i.max eb)) * kx <= inject_Z (fst (BBox2i.max r)) /\
     inject_Z (snd (BBox2i.max eb)) * ky <= inject_Z (snd (BBox2i.max r)))%Q.
Proof.
  intros v u kx ky Hm _ Hsc Hsr Hc Hr HUx HUy Hw Hb H.
  apply local_search_range_seeded in H as [_ H]; [|exact Hm].
  pose proof (within_nonneg _ _ Hw) as HM0.
  assert (HU : 1 <= U) by nia.
  assert (HM : M + 2 <= 2 ^ 24) by nia.
  assert (HU53 : U <= 2 ^ 53) by nia.
  assert (Bx : (0 <= fst (m_upscale_factor v) <= inject_Z U)%Q).
  { apply ddiv_sizes_bound; lia. }
  assert (By : (0 <= snd (m_upscale_factor v) <= inject_Z U)%Q).
  { apply ddiv_sizes_bound; lia. }
  destruct (round_expand_scale_small (m_upscale_factor v) u M U Hw Bx By HU Hb)
    as [G E].
  fold u in H. rewrite E in H.
  destruct Hw as (W1 & W2 & W3 & W4).
  pose proof (Qfloor_within _ _ W1) as F1.
  pose proof (Qfloor_within _ _ W2) as F2.
  pose proof (Qfloor_within _ _ W3) as F3.
  pose proof (Qfloor_within _ _ W4) as F4.
  exists (grow_bbox_to_int u). split; [reflexivity|]. rewrite G.
  cbn [fst snd BBox2i.min BBox2i.max BBox2i.expand].
  split.
  { repeat split; first [apply Qfloor_le | apply Qlt_floor]. }
  replace (Qfloor (fst (BBox2f.max u)) + 1 + 1)
    with (Qfloor (fst (BBox2f.max u)) + 2) by lia.
  replace (Qfloor (snd (BBox2f.max u)) + 1 + 1)
    with (Qfloor (snd (BBox2f.max u)) + 2) by lia.
  split; [exact H|]. rewrite H.
  cbn [fst snd BBox2i.min BBox2i.max m_upscale_factor v
       make_SeededCorrelatorView].
  subst kx ky.
  repeat split;
    first [ apply (dmul_ratio_floor_ceil _ left_cols (cols seed))
          | apply (dmul_ratio_floor_ceil _ left_rows (rows seed)) ];
    nia.
Qed.

Lemma local_search_range_round_expand_scale_witness :
  exists ib : BBox2i.t,
    ib = BBox2i.mk (4, -2) (5, -1) /\
    BBox2i.mk (24, -24) (48, 0) =
      BBox2i.mk (Qfloor (dmul (inject_Z (fst (BBox2i.min ib) - 1)) 8),
                 Qfloor (dmul (inject_Z (snd (BBox2i.min ib) - 1)) 8))
                (Qceiling (dmul (inject_Z (fst (BBox2i.max ib) + 1)) 8),
                 Qceiling (dmul (inject_Z (snd (BBox2i.max ib) + 1)) 8)).
Proof.
  destruct (local_search_range_round_expand_scale
              (sample_settings 1 false) 1024 16 16
              (const_image 2 2 (Some (4, -2))) no_image identity_hom
              (BBox2i.xywh 0 0 16 16) sample_tile
              (BBox2i.mk (24, -24) (48, 0)) 4 8)
    as (ib & Hib & _ & _ & _).
  - simpl. lia.
  - split; [reflexivity|]. intros C. discriminate C.
  - simpl. lia.
  - simpl. lia.
  - lia.
  - lia.
  - simpl. lia.
  - simpl. lia.
  - vm_compute. repeat split; discriminate.
  - lia.
  - vm_compute. reflexivity.
  - exists ib. split; [rewrite Hib; vm_compute; reflexivity|].
    rewrite Hib. vm_compute. reflexivity.
Defined.

(** ** The range of the valid disparities of a field *)

Lemma in_zrange (c lo hi : Z) : In c (zrange lo hi) <-> lo <= c < hi.
Proof.
  unfold zrange. rewrite in_map_iff. split.
  - intros [i [<- Hi]]. apply in_seq in Hi. lia.
  - intros H. exists (Z.to_nat (c - lo)). split; [lia|].
    apply in_seq. lia.
Qed.

Lemma in_pixels {A} (img : ImageView A) (p : A) :
  In p (pixels img) <->
  exists x y, 0 <= x < cols img /\ 0 <= y < rows img /\ p = px img x y.
Proof.
  unfold pixels. rewrite in_flat_map. split.
  - intros [y [Hy Hp]]. apply in_map_iff in Hp as [x [<- Hx]].
    apply in_zrange in Hy. apply in_zrange in Hx.
    exists x, y. auto.
  - intros (x & y & Hx & Hy & ->). exists y. split.
    + apply in_zrange. exact Hy.
    + apply in_map_iff. exists x. split; [reflexivity|].
      apply in_zrange. exact Hx.
Qed.

Lemma fold_accumulate_some (l : list PixelMask) :
  forall (pre : list PixelMask) (lo hi : Vector2i),
    spans pre lo hi ->
    exists lo' hi',
      fold_left accumulate l (Some (lo, hi)) = Some (lo', hi') /\
      spans (pre ++ l) lo' hi'.
Proof.
  induction l as [|p l IH]; intros pre lo hi Hs.
  - exists lo, hi. rewrite app_nil_r. auto.
  - assert (Hl : pre ++ p :: l = (pre ++ [p]) ++ l)
      by (rewrite <- app_assoc; reflexivity).
    rewrite Hl. destruct p as [v|]; simpl.
    + apply IH. destruct Hs as (Hb & (a1 & Ha1 & Ea1) & (a2 & Ha2 & Ea2) &
                                 (a3 & Ha3 & Ea3) & (a4 & Ha4 & Ea4)).
      unfold spans. simpl.
      split; [|split; [|split; [|split]]].
      * intros w Hw. apply in_app_or in Hw as [Hw|[Hw|[]]].
        -- specialize (Hb w Hw). lia.
        -- injection Hw as <-. lia.
      * destruct (Z.min_spec (fst lo) (fst v)) as [[_ E]|[_ E]]; rewrite E.
        -- exists a1. split; [apply in_or_app; auto|assumption].
        -- exists v. split; [apply in_or_app; simpl; auto|reflexivity].
      * destruct (Z.min_spec (snd lo) (snd v)) as [[_ E]|[_ E]]; rewrite E.
        -- exists a2. split; [apply in_or_app; auto|assumption].
        -- exists v. split; [apply in_or_app; simpl; auto|reflexivity].
      * destruct (Z.max_spec (fst hi) (fst v)) as [[_ E]|[_ E]]; rewrite E.
        -- exists v. split; [apply in_or_app; simpl; auto|reflexivity].
        -- exists a3. split; [apply in_or_app; auto|assumption].
      * destruct (Z.max_spec (snd hi) (snd v)) as [[_ E]|[_ E]]; rewrite E.
        -- exists v. split; [apply in_or_app; simpl; auto|reflexivity].
        -- exists a4. split; [apply in_or_app; auto|assumption].
    + apply IH. destruct Hs as (Hb & (a1 & Ha1 & Ea1) & (a2 & Ha2 & Ea2) &
                                 (a3 & Ha3 & Ea3) & (a4 & Ha4 & Ea4)).
      split; [|split; [|split; [|split]]].
      * intros w Hw. apply in_app_or in Hw as [Hw|[Hw|[]]];
          [auto|discriminate].
      * exists a1. split; [apply in_or_app; auto|assumption].
      * exists a2. split; [apply in_or_app; auto|assumption].
      * exists a3. split; [apply in_or_app; auto|assumption].
      * exists a4. split; [apply in_or_app; auto|assumption].
Qed.

Lemma fold_accumulate_none (l : list PixelMask) :
  (fold_left accumulate l None = None /\ forall p, In p l -> p = None) \/
  (exists lo hi, fold_left accumulate l None = Some (lo, hi) /\ spans l lo hi).
Proof.
  assert (G : forall pre, (forall p, In p pre -> p = None) ->
    (fold_left accumulate l None = None /\
     forall p, In p (pre ++ l) -> p = None) \/
    (exists lo hi, fold_left accumulate l None = Some (lo, hi) /\
                   spans (pre ++ l) lo hi)).
  { induction l as [|p l IH]; intros pre Hpre.
    - left. rewrite app_nil_r. auto.
    - assert (Hl : pre ++ p :: l = (pre ++ [p]) ++ l)
        by (rewrite <- app_assoc; reflexivity).
      rewrite Hl. destruct p as [v|]; simpl.
      + right. apply fold_accumulate_some.
        assert (Hv : In (Some v) (pre ++ [Some v]))
          by (apply in_or_app; simpl; auto).
        split; [|repeat split; exists v; auto].
        intros w Hw. apply in_app_or in Hw as [Hw|[Hw|[]]].
        * apply Hpre in Hw. discriminate.
        * injection Hw as <-. lia.
      + apply IH. intros p Hp. apply in_app_or in Hp as [Hp|[Hp|[]]]; auto. }
  apply (G []). intros p [].
Qed.

Lemma get_disparity_range_no_valid (img : DispSeedImageType) :
  no_valid_disparity img -> get_disparity_range img = zero_box.
Proof.
  intros H. unfold get_disparity_range.
  destruct (fold_accumulate_none (pixels img))
    as [[E _]|(lo & hi & E & _ & (v & Hv & _) & _)].
  - rewrite E. reflexivity.
  - apply in_pixels in Hv as (x & y & Hx & Hy & Hv).
    specialize (H x y Hx Hy).
    assert (C : Some v = None) by (etransitivity; [exact Hv|exact H]).
    discriminate C.
Qed.

(** The two shapes of [get_disparity_range]: the zero box of a field
    without valid pixel, or the span of its valid pixels. *)
Lemma get_disparity_range_cases (img : DispSeedImageType) :
  (no_valid_disparity img /\ get_disparity_range img = zero_box) \/
  (exists lo hi,
     get_disparity_range img = BBox2f.mk (to_Vector2f lo) (to_Vector2f hi) /\
     spans (pixels img) lo hi).
Proof.
  unfold get_disparity_range.
  destruct (fold_accumulate_none (pixels img))
    as [[E Hn]|(lo & hi & E & Hs)]; rewrite E.
  - left. split; [|reflexivity].
    intros x y Hx Hy. apply Hn. apply in_pixels. eauto.
  - right. eauto.
Qed.

(** ** Normalized boxes *)

Lemma Qlt_bool_iff (a b : Q) : Qlt_bool a b = true <-> (a < b)%Q.
Proof.
  unfold Qlt_bool. rewrite negb_true_iff. split.
  - intros H. destruct (Qlt_le_dec a b) as [L|L]; [exact L|].
    apply Qle_bool_iff in L. congruence.
  - intros H. apply not_true_is_false. intros C.
    apply Qle_bool_iff in C. lra.
Qed.

Lemma Qlt_bool_false (a b : Q) : Qlt_bool a b = false -> (b <= a)%Q.
Proof.
  intros H. destruct (Qlt_le_dec a b) as [L|L]; [|exact L].
  apply Qlt_bool_iff in L. congruence.
Qed.

Lemma Qmin'_le_l (a b : Q) : (BBox2f.Qmin' a b <= a)%Q.
Proof.
  unfold BBox2f.Qmin'. destruct (Qlt_bool b a) eqn:E; [|lra].
  apply Qlt_bool_iff in E. lra.
Qed.

Lemma Qmin'_le_r (a b : Q) : (BBox2f.Qmin' a b <= b)%Q.
Proof.
  unfold BBox2f.Qmin'. destruct (Qlt_bool b a) eqn:E; [lra|].
  apply Qlt_bool_false in E. exact E.
Qed.

Lemma Qmax'_ge_l (a b : Q) : (a <= BBox2f.Qmax' a b)%Q.
Proof.
  unfold BBox2f.Qmax'. destruct (Qlt_bool a b) eqn:E; [|lra].
  apply Qlt_bool_iff in E. lra.
Qed.

Lemma Qmax'_ge_r (a b : Q) : (b <= BBox2f.Qmax' a b)%Q.
Proof.
  unfold BBox2f.Qmax'. destruct (Qlt_bool a b) eqn:E; [lra|].
  apply Qlt_bool_false in E. exact E.
Qed.

Lemma grow_point_normalized (b : BBox2f.t) (p : Vector2) :
  normalized b -> normalized (BBox2f.grow_point b p).
Proof.
  intros [H1 H2]. unfold normalized, BBox2f.grow_point.
  cbn [fst snd BBox2f.min BBox2f.max].
  pose proof (Qmin'_le_l (fst (BBox2f.min b)) (fst p)).
  pose proof (Qmax'_ge_l (fst (BBox2f.max b)) (fst p)).
  pose proof (Qmin'_le_l (snd (BBox2f.min b)) (snd p)).
  pose proof (Qmax'_ge_l (snd (BBox2f.max b)) (snd p)).
  split; lra.
Qed.

Lemma grow_normalized (b c : BBox2f.t) :
  normalized b -> normalized (BBox2f.grow b c).
Proof.
  intros H. unfold BBox2f.grow. auto using grow_point_normalized.
Qed.

Lemma spans_ordered (l : list PixelMask) (lo hi : Vector2i) :
  spans l lo hi -> fst lo <= fst hi /\ snd lo <= snd hi.
Proof.
  intros (Hb & (v & Hv & _) & _). specialize (Hb v Hv). lia.
Qed.

Lemma get_disparity_range_normalized (img : DispSeedImageType) :
  normalized (get_disparity_range img).
Proof.
  destruct (get_disparity_range_cases img) as [[_ E]|(lo & hi & E & Hs)];
    rewrite E.
  - unfold normalized, zero_box. cbn. split; apply Qle_refl.
  - apply spans_ordered in Hs as [H1 H2].
    unfold normalized, to_Vector2f. cbn [fst snd BBox2f.min BBox2f.max].
    split; apply float32_mono; rewrite <- Zle_Qle; assumption.
Qed.

Lemma get_disparity_range_nonneg (img : DispSeedImageType) :
  nonneg_field img ->
  (0 <= fst (BBox2f.max (get_disparity_range img)) /\
   0 <= snd (BBox2f.max (get_disparity_range img)))%Q.
Proof.
  intros Hn.
  destruct (get_disparity_range_cases img)
    as [[_ E]|(lo & hi & E & Hb & _ & _ & (a & Ha & Ea) & (b & Hb' & Eb))];
    rewrite E.
  - unfold zero_box. cbn. split; apply Qle_refl.
  - apply in_pixels in Ha as (x & y & Hx & Hy & Ha).
    apply in_pixels in Hb' as (x' & y' & Hx' & Hy' & Hb').
    symmetry in Ha, Hb'.
    apply (Hn x y a Hx Hy) in Ha. apply (Hn x' y' b Hx' Hy') in Hb'.
    unfold to_Vector2f. cbn [fst snd BBox2f.min BBox2f.max].
    split; apply round_to_nonneg; rewrite <- (Zle_Qle 0); lia.
Qed.

(** The spread field of the tile never turns the box inside out when the
    homography is in use, and does not either without homography when the
    spread has no negative component. *)
Lemma unrounded_range_normalized (s : StereoSettings) (ts : Z)
    (v : SeededCorrelatorView) (bbox : BBox2i.t) :
  (use_local_homography s = false ->
   has_sub_disp_spread v = true ->
   nonneg_field (crop (m_sub_disp_spread v) (seed_bbox_of v bbox))) ->
  normalized (unrounded_range s ts v bbox).
Proof.
  intros Hn. unfold unrounded_range.
  assert (H0 : normalized (seed_range s ts v bbox)).
  { unfold seed_range. destruct (negb (use_local_homography s));
      apply get_disparity_range_normalized. }
  destruct (has_sub_disp_spread v); [|exact H0].
  unfold spread_range. destruct (use_local_homography s); simpl.
  - apply grow_normalized, get_disparity_range_normalized.
  - destruct (get_disparity_range_nonneg _ (Hn eq_refl eq_refl)) as [P1 P2].
    destruct H0 as [H1 H2].
    unfold normalized, BBox2f.max_add, BBox2f.min_sub, fsub, fadd.
    cbn [fst snd BBox2f.min BBox2f.max]. split; apply float32_mono; lra.
Qed.

(** One rounding of the product of an integer and a factor. *)
Lemma dmul_int_error (a : Z) (u : Q) :
  (DBL_MIN <= u)%Q ->
  (Qabs (dmul (inject_Z a) u - inject_Z a * u)
   <= inject_Z (Z.abs a) * u * eps)%Q.
Proof.
  intros Hu. assert (Pm : (0 < DBL_MIN)%Q) by apply pow2_pos.
  destruct (Z.eq_dec a 0) as [->|N].
  - unfold dmul. rewrite (double_comp (inject_Z 0 * u) 0) by ring.
    change (double 0) with 0%Q.
    assert (E : (0 - inject_Z 0 * u == 0)%Q) by ring. rewrite E.
    change (Qabs 0) with 0%Q. change (inject_Z (Z.abs 0)) with 0%Q.
    rewrite !Qmult_0_l. apply Qle_refl.
  - assert (T : (Qabs (inject_Z a * u) == inject_Z (Z.abs a) * u)%Q).
    { rewrite Qabs_Qmult, Qabs_inject_Z, (Qabs_pos u); [reflexivity|].
      set (m := DBL_MIN) in *. clearbody m. lra. }
    assert (Nt : (DBL_MIN <= Qabs (inject_Z a * u))%Q).
    { rewrite T.
      assert (X : (1 * u <= inject_Z (Z.abs a) * u)%Q).
      { apply Qmult_le_compat_r.
        - rewrite <- (Zle_Qle 1). lia.
        - set (m := DBL_MIN) in *. clearbody m. lra. }
      set (m := DBL_MIN) in *. clearbody m.
      set (t := (inject_Z (Z.abs a) * u)%Q) in *. clearbody t. lra. }
    pose proof (double_relative_error _ Nt) as E. rewrite T in E. exact E.
Qed.

(** The rounded products of two integers of moderate size and a positive
    factor keep their order. *)
Lemma dmul_int_lt (a b : Z) (u : Q) :
  a < b -> Z.abs a <= 2 ^ 26 -> Z.abs b <= 2 ^ 26 -> (DBL_MIN <= u)%Q ->
  (dmul (inject_Z a) u < dmul (inject_Z b) u)%Q.
Proof.
  intros Hab Ha Hb Hu. assert (Pm : (0 < DBL_MIN)%Q) by apply pow2_pos.
  pose proof (dmul_int_error a u Hu) as Ea.
  pose proof (dmul_int_error b u Hu) as Eb.
  apply Qabs_Qle_condition in Ea, Eb.
  assert (Pu : (0 < u)%Q) by (set (m := DBL_MIN) in *; clearbody m; lra).
  assert (Xa : (inject_Z (Z.abs a) * u * eps <= u * (1 # 4))%Q).
  { assert (E : (inject_Z (Z.abs a) * u * eps == u * (inject_Z (Z.abs a) * eps))%Q)
      by ring.
    rewrite E. apply Qabs_le_mult; [lra|].
    apply Qle_trans with (inject_Z (2 ^ 26) * eps)%Q.
    - apply Qmult_le_compat_r; [rewrite <- Zle_Qle; exact Ha|].
      rewrite eps_val. discriminate.
    - rewrite eps_val. discriminate. }
  assert (Xb : (inject_Z (Z.abs b) * u * eps <= u * (1 # 4))%Q).
  { assert (E : (inject_Z (Z.abs b) * u * eps == u * (inject_Z (Z.abs b) * eps))%Q)
      by ring.
    rewrite E. apply Qabs_le_mult; [lra|].
    apply Qle_trans with (inject_Z (2 ^ 26) * eps)%Q.
    - apply Qmult_le_compat_r; [rewrite <- Zle_Qle; exact Hb|].
      rewrite eps_val. discriminate.
    - rewrite eps_val. discriminate. }
  assert (D : (inject_Z a * u + u <= inject_Z b * u)%Q).
  { assert (E : (inject_Z a * u + u == (inject_Z a + 1) * u)%Q) by ring.
    rewrite E. apply Qmult_le_compat_r; [|lra].
    change 1%Q with (inject_Z 1).
    rewrite <- (inject_Z_plus a 1), <- Zle_Qle. lia. }
  set (ya := dmul (inject_Z a) u) in *. set (yb := dmul (inject_Z b) u) in *.
  set (xa := (inject_Z a * u)%Q) in *. set (xb := (inject_Z b * u)%Q) in *.
  set (ea := (inject_Z (Z.abs a) * u * eps)%Q) in *.
  set (eb := (inject_Z (Z.abs b) * u * eps)%Q) in *.
  clearbody ya yb xa xb ea eb. clear Hu Pm. lra.
Qed.

(** Rounding, expanding and scaling a range of moderate size by positive
    factors gives a box that is not empty. *)
Lemma round_expand_scale_not_empty (upscale : Vector2) (u : BBox2f.t)
    (M U : Z) :
  within M u -> normalized u ->
  (DBL_MIN <= fst upscale <= inject_Z U)%Q ->
  (DBL_MIN <= snd upscale <= inject_Z U)%Q ->
  (M + 2) * U <= 2 ^ 24 ->
  BBox2i.empty
    (BBox2f.to_int
       (scale_to_fullres upscale
          (BBox2f.expand (BBox2f.of_int (grow_bbox_to_int u)) 1))) = false.
Proof.
  intros Hw [N1 N2] [Hx1 Hx2] [Hy1 Hy2] Hb.
  assert (Pm : (0 < DBL_MIN)%Q) by apply pow2_pos.
  pose proof (within_nonneg _ _ Hw) as HM0.
  assert (HU : 1 <= U).
  { assert (0 < U); [|lia]. rewrite Zlt_Qlt.
    set (m := DBL_MIN) in *. clearbody m. change (inject_Z 0) with 0%Q. lra. }
  assert (HM : M + 2 <= 2 ^ 24) by nia.
  assert (Bx : (0 <= fst upscale <= inject_Z U)%Q)
    by (set (m := DBL_MIN) in *; clearbody m; split; lra).
  assert (By : (0 <= snd upscale <= inject_Z U)%Q)
    by (set (m := DBL_MIN) in *; clearbody m; split; lra).
  destruct (round_expand_scale_small upscale u M U Hw Bx By HU Hb) as [_ E].
  rewrite E. clear E.
  destruct Hw as (W1 & W2 & W3 & W4).
  pose proof (Qfloor_within _ _ W1) as F1.
  pose proof (Qfloor_within _ _ W2) as F2.
  pose proof (Qfloor_within _ _ W3) as F3.
  pose proof (Qfloor_within _ _ W4) as F4.
  apply Qfloor_resp_le in N1, N2.
  unfold BBox2i.empty. cbn [fst snd BBox2i.min BBox2i.max].
  apply orb_false_iff. split; apply Z.leb_gt; rewrite Zlt_Qlt.
  - eapply Qle_lt_trans; [apply Qfloor_le|].
    eapply Qlt_le_trans; [|apply Qle_ceiling].
    apply dmul_int_lt; try lia. exact Hx1.
  - eapply Qle_lt_trans; [apply Qfloor_le|].
    eapply Qlt_le_trans; [|apply Qle_ceiling].
    apply dmul_int_lt; try lia. exact Hy1.
Qed.

(** ** The refiner and the global search range *)

Lemma transform_disparities_no_valid (b : bool) (sub : BBox2i.t)
    (T : Matrix3x3) (img : DispSeedImageType) :
  no_valid_disparity img ->
  no_valid_disparity (transform_disparities b sub T img).
Proof.
  intros H x y Hx Hy. simpl in *. rewrite (H x y Hx Hy). reflexivity.
Qed.

(** The seed of [blank_seed_view] has no valid disparity under the sample
    tile, the global range is [-20, 20] x [-5, 5], and the refiner returns
    the zero box rounded, expanded and scaled by 8 instead. *)
Lemma blank_seed_range :
  no_valid_disparity
    (crop (m_sub_disp blank_seed_view)
          (seed_bbox_of blank_seed_view sample_tile)) /\
  search_range (sample_settings 1 false) = BBox2i.mk (-20, -5) (20, 5) /\
  local_search_range (sample_settings 1 false) 1024 blank_seed_view
                     sample_tile = inr (BBox2i.mk (-8, -8) (16, 16)).
Proof.
  split; [|split]; try reflexivity.
  intros x y _ _. reflexivity.
Qed.

(** C1, as stated, fails: it is not the case that every tile whose seed
    sub-region holds no valid disparity gets the global search range. *)
Lemma refiner_fallback_refuted :
  ~ (forall (s : StereoSettings) (ts : Z) (v : SeededCorrelatorView)
            (bbox : BBox2i.t),
       no_valid_disparity (crop (m_sub_disp v) (seed_bbox_of v bbox)) ->
       local_search_range s ts v bbox = inr (search_range s)).
Proof.
  intros H.
  destruct blank_seed_range as (Hn & _ & Hr).
  specialize (H (sample_settings 1 false) 1024 blank_seed_view sample_tile Hn).
  rewrite Hr in H. discriminate H.
Qed.

(** Three inputs at which the box returned is empty: seed mode 0 hands
    back the global range, empty or not; without homography a negative
    spread turns the seed range inside out; and at a seed disparity of
    [2 ^ 25] the [float] box holds neither of the two integers next to
    it, so the expansion by one is lost on both sides. *)
Lemma refiner_empty_box_inputs :
  local_search_range
    (set_search_range (BBox2i.xywh 3 2 0 0) (sample_settings 0 false))
    1024 blank_seed_view sample_tile = inr (BBox2i.xywh 3 2 0 0) /\
  BBox2i.empty (BBox2i.xywh 3 2 0 0) = true /\
  local_search_range (sample_settings 1 false) 1024
    (sample_view (const_image 2 2 (Some (1, 1)))
                 (const_image 2 2 (Some (-3, -3))) (BBox2i.xywh 0 0 16 16))
    sample_tile = inr (BBox2i.mk (24, 24) (0, 0)) /\
  BBox2i.empty (BBox2i.mk (24, 24) (0, 0)) = true /\
  local_search_range (sample_settings 1 false) 1024
    (unit_scale_view (2 ^ 25)) unit_scale_tile =
    inr (BBox2i.mk (2 ^ 25, -1) (2 ^ 25, 2)) /\
  BBox2i.empty (BBox2i.mk (2 ^ 25, -1) (2 ^ 25, 2)) = true.
Proof. repeat split; vm_compute; reflexivity. Qed.

(** In seed mode 0 the global range passes through a [BBox2f]: it comes
    back as it is when its corners are integers that a [float] holds. *)
Lemma through_float_box (b : BBox2i.t) :
  fits_float b -> BBox2f.to_int (BBox2f.of_int b) = b.
Proof.
  intros (H1 & H2 & H3 & H4). destruct b as [[a1 a2] [b1 b2]].
  cbn [fst snd BBox2i.min BBox2i.max] in *.
  unfold BBox2f.to_int, BBox2f.of_int, to_Vector2i, to_Vector2f.
  cbn [fst snd BBox2i.min BBox2i.max BBox2f.min BBox2f.max].
  rewrite (int32_of_double_Z _ a1), (int32_of_double_Z _ a2),
    (int32_of_double_Z _ b1), (int32_of_double_Z _ b2);
    first [reflexivity | apply float32_Z; assumption | lia].
Qed.

(** C1, amended. The global search range is returned, for every tile, in
    seed mode 0 only (it passes through a [float] box, which leaves it as
    it is when its corners are at most [2 ^ 24] in magnitude). In seed
    mode > 0 the refiner never consults it: the result is the same
    whatever the global range is, and a seed sub-region without valid
    disparity yields the zero box [BBox2f(0,0,0,0)] as the range read from
    the seed. In seed mode > 0 the box returned is never empty, provided
    the crops lie inside the seed and the spread, the upscale factors are
    positive normal [double] bounded by [U], the range before rounding
    lies within [-M, M] with [(M + 2) * U] at most [2 ^ 24] and, when a
    spread field is used without homography, the spread has no negative
    component. *)
Theorem local_search_range_no_fallback (s : StereoSettings) (ts : Z)
    (v : SeededCorrelatorView) (bbox : BBox2i.t) :
  (seed_mode s <= 0 -> fits_float (search_range s) ->
   local_search_range s ts v bbox = inr (search_range s)) /\
  (0 < seed_mode s ->
   (forall g : BBox2i.t,
      local_search_range (set_search_range g s) ts v bbox =
      local_search_range s ts v bbox) /\
   (reads_inside v ->
    no_valid_disparity (crop (m_sub_disp v) (seed_bbox_of v bbox)) ->
    seed_range s ts v bbox = zero_box) /\
   (forall (r : BBox2i.t) (M U : Z),
      reads_inside v ->
      (DBL_MIN <= fst (m_upscale_factor v) <= inject_Z U)%Q ->
      (DBL_MIN <= snd (m_upscale_factor v) <= inject_Z U)%Q ->
      within M (unrounded_range s ts v bbox) ->
      (M + 2) * U <= 2 ^ 24 ->
      (use_local_homography s = false ->
       has_sub_disp_spread v = true ->
       nonneg_field (crop (m_sub_disp_spread v) (seed_bbox_of v bbox))) ->
      local_search_range s ts v bbox = inr r ->
      BBox2i.empty r = false)).
Proof.
  split.
  - intros Hm Hf. unfold local_search_range, local_search_range_f.
    destruct (Z.ltb_spec 0 (seed_mode s)); [lia|].
    rewrite through_float_box by exact Hf. reflexivity.
  - intros Hm. split; [|split].
    + intros g. unfold local_search_range, local_search_range_f.
      change (seed_mode (set_search_range g s)) with (seed_mode s).
      destruct (Z.ltb_spec 0 (seed_mode s)); [reflexivity|lia].
    + intros _ Hn. unfold seed_range.
      destruct (negb (use_local_homography s)).
      * apply get_disparity_range_no_valid, Hn.
      * apply get_disparity_range_no_valid,
          transform_disparities_no_valid, Hn.
    + intros r M U _ Hx Hy Hw Hb Hs Hr.
      apply local_search_range_seeded in Hr as [_ Hr]; [|exact Hm]. subst r.
      apply (round_expand_scale_not_empty _ _ M U); auto.
      apply unrounded_range_normalized, Hs.
Qed.

Lemma local_search_range_no_fallback_witness :
  seed_range (sample_settings 1 false) 1024 blank_spread_view sample_tile =
    zero_box /\
  BBox2i.empty (BBox2i.mk (-24, -24) (32, 32)) = false.
Proof.
  destruct (local_search_range_no_fallback
              (sample_settings 1 false) 1024 blank_spread_view sample_tile)
    as [_ H].
  assert (R : reads_inside blank_spread_view).
  { split; [reflexivity|]. intros _. cbn. lia. }
  destruct H as (_ & Hz & He); [simpl; lia|].
  split.
  - apply Hz; [exact R|]. intros x y _ _. reflexivity.
  - apply (He _ 2 8).
    + exact R.
    + vm_compute. split; discriminate.
    + vm_compute. split; discriminate.
    + vm_compute. repeat split; discriminate.
    + lia.
    + intros _ _ x y w _ _ Hw. cbn in Hw. injection Hw as <-. simpl. lia.
    + vm_compute. reflexivity.
Defined.

(** ** Steps of the monad *)

Lemma bind_open_image {A} (f : string) (img : DispSeedImageType)
    (k : DispSeedImageType -> M World A) (w : World) :
  files w !! f = Some (ImageFile img) ->
  bind (open_image f) k w = k img w.
Proof. intros H. unfold bind, open_image. rewrite H. reflexivity. Qed.

Lemma bind_get_settings {A} (k : StereoSettings -> M World A) (w : World) :
  bind get_settings k w = k (stereo_settings w) w.
Proof. reflexivity. Qed.

Lemma bind_log_event {A} (e : Event) (k : unit -> M World A) (w : World) :
  bind (log_event e) k w = k tt (logged e w).
Proof. reflexivity. Qed.

Lemma bind_fs_exists {A} (f : string) (k : bool -> M World A) (w : World) :
  bind (fs_exists f) k w = k (bool_decide (is_Some (files w !! f))) w.
Proof. reflexivity. Qed.

Lemma open_image_readable (f : string) (w : World) :
  readable_image w f = true ->
  exists img, files w !! f = Some (ImageFile img).
Proof.
  unfold readable_image. destruct (files w !! f) as [[img| |]|];
    try discriminate. eauto.
Qed.

Lemma open_image_unreadable (f : string) (w : World) :
  readable_image w f = false ->
  exists e, open_image f w = (inl e, w) /\ is_IOErr_or_ArgumentErr e = true.
Proof.
  unfold readable_image, open_image.
  destruct (files w !! f) as [[img| |]|]; try discriminate; eauto.
Qed.

(** ** Reuse of the cached low-resolution disparity *)

(** The [try] block that probes the cached file: the file is opened, and
    the two exceptions of a missing or corrupt file ask for a rebuild. *)
Lemma try_open_rebuild (f : string) (b : bool) (w : World) :
  try_catch (let! test := open_image f in ret b) is_IOErr_or_ArgumentErr
            (ret true) w =
  (inr (if readable_image w f then b else true), w).
Proof.
  unfold try_catch, bind, open_image, readable_image, ret.
  destruct (files w !! f) as [[img| |]|]; reflexivity.
Qed.

(** The three cases of the block: a readable file without double crop,
    a file that does not open, and a double crop. *)
Lemma lowres_correlation_dsub_reuse_cases
    (pyramid_correlate : PyramidArgs -> DispSeedImageType)
    (rm_thresh : Z -> Z -> Q -> Q -> DispSeedImageType -> DispSeedImageType)
    (rm_quant : Q -> Q -> DispSeedImageType -> DispSeedImageType)
    (dem : ASPGlobalOptions -> M World unit)
    (opt : ASPGlobalOptions) (w : World) :
  0 < seed_mode (stereo_settings w) ->
  let f := out_prefix opt +:+ "-D_sub.tif" in
  let run := lowres_correlation_dsub pyramid_correlate rm_thresh rm_quant dem in
  let rebuild := produce_lowres_disparity pyramid_correlate rm_thresh rm_quant
                                          dem in
  (readable_image w f = true ->
   crop_left_and_right (stereo_settings w) = false ->
   run opt w = (inr tt, logged (UsingCachedDsub f) w)) /\
  (readable_image w f = false -> run opt w = rebuild opt w) /\
  (crop_left_and_right (stereo_settings w) = true ->
   run opt w = rebuild opt w).
Proof.
  intros Hm f run rebuild.
  assert (E : run opt w =
    (if (if readable_image w f then crop_left_and_right (stereo_settings w)
         else true) : bool
     then rebuild opt else log_event (UsingCachedDsub f)) w).
  { subst f run rebuild.
    unfold lowres_correlation_dsub. rewrite bind_get_settings.
    apply Z.ltb_lt in Hm. rewrite Hm.
    unfold bind at 1. rewrite try_open_rebuild. reflexivity. }
  rewrite E. split; [|split].
  - intros Hr Hc. rewrite Hr, Hc. reflexivity.
  - intros Hr. rewrite Hr. reflexivity.
  - intros Hc. rewrite Hc. destruct (readable_image w f); reflexivity.
Qed.

(** The stage in seed mode 1, with its six images readable: one engine
    call, one filter, D_sub written, then [read_search_range]. *)
Lemma produce_lowres_disparity_seed1
    (pyramid_correlate : PyramidArgs -> DispSeedImageType)
    (rm_thresh : Z -> Z -> Q -> Q -> DispSeedImageType -> DispSeedImageType)
    (rm_quant : Q -> Q -> DispSeedImageType -> DispSeedImageType)
    (dem : ASPGlobalOptions -> M World unit)
    (opt : ASPGlobalOptions) (w : World)
    (Lmask Rmask left_sub right_sub left_mask_sub right_mask_sub
       : DispSeedImageType) :
  files w !! (out_prefix opt +:+ "-lMask.tif") = Some (ImageFile Lmask) ->
  files w !! (out_prefix opt +:+ "-rMask.tif") = Some (ImageFile Rmask) ->
  files w !! (out_prefix opt +:+ "-L_sub.tif") = Some (ImageFile left_sub) ->
  files w !! (out_prefix opt +:+ "-R_sub.tif") = Some (ImageFile right_sub) ->
  files w !! (out_prefix opt +:+ "-lMask_sub.tif") =
    Some (ImageFile left_mask_sub) ->
  files w !! (out_prefix opt +:+ "-rMask_sub.tif") =
    Some (ImageFile right_mask_sub) ->
  seed_mode (stereo_settings w) = 1 ->
  let s := stereo_settings w in
  exists args filter img,
    produce_lowres_disparity pyramid_correlate rm_thresh rm_quant dem opt w =
      read_search_range opt
        (mkWorld s (<[out_prefix opt +:+ "-D_sub.tif" := ImageFile img]>
                      (files w))
                 (events w ++ [PyramidCorrelate args; filter])) /\
    is_outlier_filter filter = true /\
    pa_cost_mode args = CROSS_CORRELATION /\
    pa_corr_timeout args = 5 * corr_timeout s.
Proof.
  intros H1 H2 H3 H4 H5 H6 Hm s. subst s.
  unfold produce_lowres_disparity.
  rewrite (bind_open_image _ _ _ _ H1). cbv beta.
  rewrite (bind_open_image _ _ _ _ H2). cbv beta.
  rewrite (bind_open_image _ _ _ _ H3). cbv beta.
  rewrite (bind_open_image _ _ _ _ H4). cbv beta.
  rewrite (bind_open_image _ _ _ _ H5). cbv beta.
  rewrite (bind_open_image _ _ _ _ H6). cbv beta zeta.
  rewrite bind_get_settings. cbv beta. rewrite Hm.
  change (1 =? 1) with true. cbv iota.
  destruct (Qle_bool (rm_quantile_multiple (stereo_settings w)) 0).
  - eexists _, _, _. split.
    { unfold bind at 1. unfold bind, log_event, write_image, modify.
      cbn [fst snd stereo_settings files events].
      rewrite <- app_assoc. reflexivity. }
    repeat split.
  - eexists _, _, _. split.
    { unfold bind at 1. unfold bind, log_event, write_image, modify.
      cbn [fst snd stereo_settings files events].
      rewrite <- app_assoc. reflexivity. }
    repeat split.
Qed.



(** The run directory of [corrupt_dsub_world]: seed mode 3, the six images
    of the stage readable, a D_sub that is not an image. The D_sub block
    ends with the exception of [read_search_range]; nothing is computed
    and nothing is written. *)
Lemma corrupt_dsub_seed_mode_3 :
  seed_mode (stereo_settings corrupt_dsub_world) = 3 /\
  readable_image corrupt_dsub_world "run-D_sub.tif" = false /\
  forallb (fun f => readable_image corrupt_dsub_world ("run" +:+ f))
          lowres_inputs = true /\
  lowres_correlation_dsub sample_correlate sample_thresh sample_quant
                          sample_dem sample_opt corrupt_dsub_world =
    (inl (ArgumentErr "run-D_sub.tif"), corrupt_dsub_world).
Proof. repeat split; vm_compute; reflexivity. Qed.




(** ** The outlier filter of the low-resolution stage *)







(** ** The search range of the matched interest points *)

Lemma on_image_true (size p : Vector2) :
  on_image size p = true <->
  (0 <= fst p <= fst size /\ 0 <= snd p <= snd size)%Q.
Proof.
  unfold on_image. rewrite !andb_true_iff, !Qle_bool_iff. tauto.
Qed.

(** The test of the loop is the negation of "both points are on their
    images". *)
Lemma outside_images_on_image (ls rs l r : Vector2) :
  outside_images ls rs l r = negb (on_image ls l && on_image rs r).
Proof.
  destruct (on_image ls l && on_image rs r) eqn:E; cbn [negb].
  - apply andb_true_iff in E as [E1 E2].
    apply on_image_true in E1 as [[A1 A2] [A3 A4]].
    apply on_image_true in E2 as [[B1 B2] [B3 B4]].
    unfold outside_images. repeat (apply orb_false_iff; split);
      apply not_true_is_false; intros C; apply Qlt_bool_iff in C; lra.
  - unfold outside_images.
    destruct (Qlt_bool (fst ls) (fst l)) eqn:C1; [reflexivity|].
    destruct (Qlt_bool (snd ls) (snd l)) eqn:C2; [reflexivity|].
    destruct (Qlt_bool (fst rs) (fst r)) eqn:C3; [reflexivity|].
    destruct (Qlt_bool (snd rs) (snd r)) eqn:C4; [reflexivity|].
    destruct (Qlt_bool (fst l) 0) eqn:C5; [reflexivity|].
    destruct (Qlt_bool (snd l) 0) eqn:C6; [reflexivity|].
    destruct (Qlt_bool (fst r) 0) eqn:C7; [reflexivity|].
    destruct (Qlt_bool (snd r) 0) eqn:C8; [reflexivity|].
    apply Qlt_bool_false in C1, C2, C3, C4, C5, C6, C7, C8.
    assert (X : on_image ls l && on_image rs r = true).
    { apply andb_true_iff. split; apply on_image_true; repeat split; lra. }
    congruence.
Qed.

Lemma beyond_not_on_image (size p : Vector2) :
  beyond_image size p -> on_image size p = false.
Proof.
  intros H. apply not_true_is_false. intros C.
  apply on_image_true in C. unfold beyond_image in H. lra.
Qed.

Lemma ip_loop_body_survivor (al ar : Matrix3x3) (ls rs : Vector2)
    (search : BBox2.t) (ips : InterestPoint * InterestPoint) :
  ip_loop_body al ar ls rs search ips =
  match surviving_disparity al ar ls rs ips with
  | None => search
  | Some d => BBox2.grow_point search d
  end.
Proof.
  destruct ips as [p1 p2].
  unfold ip_loop_body, surviving_disparity, third_coordinate, aligned.
  cbn [fst snd].
  destruct (matrix_times_vector ar (ip_x p2, ip_y p2, 1%Q)) as [[r0 r1] r2].
  destruct (matrix_times_vector al (ip_x p1, ip_y p1, 1%Q)) as [[l0 l1] l2].
  cbn [fst snd].
  destruct (Qeq_bool l2 0 || Qeq_bool r2 0); [reflexivity|].
  rewrite outside_images_on_image.
  destruct (on_image ls _ && on_image rs _); reflexivity.
Qed.

Lemma fold_ip_loop_body (al ar : Matrix3x3) (ls rs : Vector2)
    (l : list (InterestPoint * InterestPoint)) :
  forall search,
    fold_left (ip_loop_body al ar ls rs) l search =
    fold_left BBox2.grow_point (omap (surviving_disparity al ar ls rs) l)
              search.
Proof.
  induction l as [|ips l IH]; intros search; [reflexivity|].
  cbn [fold_left omap list_omap]. rewrite IH, ip_loop_body_survivor.
  destruct (surviving_disparity al ar ls rs ips); reflexivity.
Qed.

(** The first point that grows the default-constructed box. *)
Lemma grow_default (p : Vector2) :
  fits_int p -> BBox2.grow_point BBox2.default p = BBox2.mk p p.
Proof.
  intros [[H1 H2] [H3 H4]]. destruct p as [x y]. cbn [fst snd] in *.
  assert (U : (inject_Z (2 ^ 31 - 1) <= DBL_MAX)%Q) by (vm_compute; discriminate).
  unfold BBox2.grow_point, BBox2.default, BBox2f.Qmin', BBox2f.Qmax'.
  cbn [fst snd BBox2.min BBox2.max].
  assert (L' : (- DBL_MAX < inject_Z (- 2 ^ 31))%Q) by (vm_compute; reflexivity).
  assert (A1 : Qlt_bool x DBL_MAX = true)
    by (apply Qlt_bool_iff; eapply Qlt_le_trans; [exact H2|exact U]).
  assert (A2 : Qlt_bool y DBL_MAX = true)
    by (apply Qlt_bool_iff; eapply Qlt_le_trans; [exact H4|exact U]).
  assert (A3 : Qlt_bool (- DBL_MAX) x = true)
    by (apply Qlt_bool_iff; eapply Qlt_le_trans; [exact L'|exact H1]).
  assert (A4 : Qlt_bool (- DBL_MAX) y = true)
    by (apply Qlt_bool_iff; eapply Qlt_le_trans; [exact L'|exact H3]).
  rewrite A1, A2, A3, A4. reflexivity.
Qed.

Lemma BBox2_grow_point_keeps (b : BBox2.t) (p q : Vector2) :
  holds b p -> holds (BBox2.grow_point b q) p.
Proof.
  unfold holds, BBox2.grow_point. cbn [fst snd BBox2.min BBox2.max].
  pose proof (Qmin'_le_l (fst (BBox2.min b)) (fst q)).
  pose proof (Qmax'_ge_l (fst (BBox2.max b)) (fst q)).
  pose proof (Qmin'_le_l (snd (BBox2.min b)) (snd q)).
  pose proof (Qmax'_ge_l (snd (BBox2.max b)) (snd q)).
  intros [[? ?] [? ?]]. repeat split; lra.
Qed.

Lemma BBox2_grow_point_holds (b : BBox2.t) (q : Vector2) :
  holds (BBox2.grow_point b q) q.
Proof.
  unfold holds, BBox2.grow_point. cbn [fst snd BBox2.min BBox2.max].
  pose proof (Qmin'_le_r (fst (BBox2.min b)) (fst q)).
  pose proof (Qmax'_ge_r (fst (BBox2.max b)) (fst q)).
  pose proof (Qmin'_le_r (snd (BBox2.min b)) (snd q)).
  pose proof (Qmax'_ge_r (snd (BBox2.max b)) (snd q)).
  repeat split; assumption.
Qed.

Lemma BBox2_fold_keeps (pts : list Vector2) :
  forall (b : BBox2.t) (p : Vector2),
    holds b p -> holds (fold_left BBox2.grow_point pts b) p.
Proof.
  induction pts as [|q pts IH]; intros b p H; [exact H|].
  simpl. apply IH. apply BBox2_grow_point_keeps. exact H.
Qed.

Lemma BBox2_fold_holds (pts : list Vector2) :
  forall (b : BBox2.t) (p : Vector2),
    In p pts -> holds (fold_left BBox2.grow_point pts b) p.
Proof.
  induction pts as [|q pts IH]; intros b p [].
  - subst q. simpl. apply BBox2_fold_keeps. apply BBox2_grow_point_holds.
  - simpl. apply IH. assumption.
Qed.

(** The corners of a box grown by points that fit [int] fit [int]. *)
Lemma Qmin'_cases (a b : Q) : BBox2f.Qmin' a b = a \/ BBox2f.Qmin' a b = b.
Proof. unfold BBox2f.Qmin'. destruct (Qlt_bool b a); auto. Qed.

Lemma Qmax'_cases (a b : Q) : BBox2f.Qmax' a b = a \/ BBox2f.Qmax' a b = b.
Proof. unfold BBox2f.Qmax'. destruct (Qlt_bool a b); auto. Qed.

Lemma BBox2_grow_point_fits (b : BBox2.t) (p : Vector2) :
  fits_int (BBox2.min b) -> fits_int (BBox2.max b) -> fits_int p ->
  fits_int (BBox2.min (BBox2.grow_point b p)) /\
  fits_int (BBox2.max (BBox2.grow_point b p)).
Proof.
  unfold fits_int, BBox2.grow_point. cbn [fst snd BBox2.min BBox2.max].
  intros [A1 A2] [B1 B2] [P1 P2].
  destruct (Qmin'_cases (fst (BBox2.min b)) (fst p)) as [-> | ->],
           (Qmin'_cases (snd (BBox2.min b)) (snd p)) as [-> | ->],
           (Qmax'_cases (fst (BBox2.max b)) (fst p)) as [-> | ->],
           (Qmax'_cases (snd (BBox2.max b)) (snd p)) as [-> | ->];
    auto.
Qed.

Lemma BBox2_fold_fits (pts : list Vector2) :
  forall b : BBox2.t,
    fits_int (BBox2.min b) -> fits_int (BBox2.max b) ->
    (forall d, In d pts -> fits_int d) ->
    fits_int (BBox2.min (fold_left BBox2.grow_point pts b)) /\
    fits_int (BBox2.max (fold_left BBox2.grow_point pts b)).
Proof.
  induction pts as [|q pts IH]; intros b Hl Hh Hp; [auto|].
  simpl.
  destruct (BBox2_grow_point_fits b q Hl Hh (Hp q (or_introl eq_refl)))
    as [A B].
  apply IH; auto. intros d Hd. apply Hp. right. exact Hd.
Qed.

Lemma Qfloor_fits (x : Q) :
  (inject_Z (- 2 ^ 31) <= x < inject_Z (2 ^ 31 - 1))%Q ->
  - 2 ^ 31 <= Qfloor x < 2 ^ 31 - 1.
Proof.
  intros [H1 H2]. split.
  - rewrite <- (Qfloor_Z (- 2 ^ 31)). apply Qfloor_resp_le. exact H1.
  - rewrite Zlt_Qlt. eapply Qle_lt_trans; [apply Qfloor_le|exact H2].
Qed.

Lemma grow_bbox2_to_int_inside (b : BBox2.t) (p : Vector2) :
  fits_int (BBox2.min b) -> fits_int (BBox2.max b) -> holds b p ->
  inside_int_box (grow_bbox2_to_int b) p.
Proof.
  intros [A1 A2] [B1 B2] [[H1 H2] [H3 H4]].
  apply Qfloor_fits in A1, A2, B1, B2.
  unfold inside_int_box, grow_bbox2_to_int, grow_corners_to_int.
  rewrite !to_int32_id by lia.
  cbn [fst snd BBox2i.min BBox2i.max].
  pose proof (Qfloor_le (fst (BBox2.min b))).
  pose proof (Qfloor_le (snd (BBox2.min b))).
  pose proof (Qlt_floor (fst (BBox2.max b))).
  pose proof (Qlt_floor (snd (BBox2.max b))).
  repeat split; lra.
Qed.

(** C8, as stated, fails: a pair whose left point lies on the right border
    of its image, at the column that is the width of the image, is not
    discarded; it enters the range. *)
Lemma border_point_kept :
  ~ (forall (al ar : Matrix3x3) (ls rs : Vector2)
            (ip1 ip2 : list InterestPoint) (p1 p2 : InterestPoint),
       length ip1 = length ip2 ->
       ~ inside_image ls (aligned al p1) \/
       ~ inside_image rs (aligned ar p2) ->
       ip_search_range al ar ls rs (ip1 ++ [p1]) (ip2 ++ [p2]) =
       ip_search_range al ar ls rs ip1 ip2).
Proof.
  intros H.
  specialize (H identity_matrix identity_matrix (16, 16)%Q (16, 16)%Q
                [mkIP 2 5] [mkIP 3 6] (mkIP 16 5) (mkIP 10 8) eq_refl).
  assert (X : ~ inside_image (16, 16)%Q (aligned identity_matrix (mkIP 16 5))).
  { intros [[_ C] _]. vm_compute in C. discriminate C. }
  specialize (H (or_introl X)). vm_compute in H. discriminate H.
Qed.

(** C8, amended. In the estimate of the global search range from matched
    points, a pair with a point whose third homogeneous coordinate is zero
    after the alignment leaves the range untouched (it is dropped before
    the divide, and the loop goes on), and so does a pair with a point
    that has a coordinate below 0 or above the size of its image; a point
    on the border is kept. When at least one pair is kept and the
    differences kept are values of [int], the result is the bounding box
    of the (right - left) differences kept, grown outward to integers, so
    it holds every one of them. *)
Theorem ip_search_range_surviving_bbox (al ar : Matrix3x3) (ls rs : Vector2)
    (ip1 ip2 : list InterestPoint) :
  (forall search ips,
     (third_coordinate al (fst ips) == 0)%Q \/
     (third_coordinate ar (snd ips) == 0)%Q ->
     ip_loop_body al ar ls rs search ips = search) /\
  (forall search ips,
     beyond_image ls (aligned al (fst ips)) \/
     beyond_image rs (aligned ar (snd ips)) ->
     ip_loop_body al ar ls rs search ips = search) /\
  (let pts := surviving_disparities al ar ls rs ip1 ip2 in
   pts <> [] -> (forall d, In d pts -> fits_int d) ->
   Some (ip_search_range al ar ls rs ip1 ip2) =
     ip_search_range_spec al ar ls rs ip1 ip2 /\
   forall d, In d pts ->
             inside_int_box (ip_search_range al ar ls rs ip1 ip2) d).
Proof.
  split; [|split].
  - intros search ips H. rewrite ip_loop_body_survivor.
    unfold surviving_disparity.
    destruct H as [H|H]; apply Qeq_bool_iff in H; rewrite H;
      [|rewrite orb_true_r]; reflexivity.
  - intros search ips H. rewrite ip_loop_body_survivor.
    unfold surviving_disparity.
    destruct (Qeq_bool _ 0 || Qeq_bool _ 0); [reflexivity|].
    cbv zeta.
    destruct H as [H|H]; apply beyond_not_on_image in H; rewrite H;
      [|rewrite andb_false_r]; reflexivity.
  - intros pts Hne Hf.
    assert (E : ip_search_range al ar ls rs ip1 ip2 =
                grow_bbox2_to_int (fold_left BBox2.grow_point pts
                                             BBox2.default)).
    { unfold ip_search_range. rewrite fold_ip_loop_body. reflexivity. }
    unfold ip_search_range_spec. fold pts. rewrite E. clear E.
    destruct pts as [|p rest]; [congruence|].
    cbn [fold_left bounding_box_of_points option_map].
    rewrite (grow_default p) by (apply Hf; left; reflexivity).
    split; [reflexivity|].
    assert (Fp : fits_int p) by (apply Hf; left; reflexivity).
    destruct (BBox2_fold_fits rest (BBox2.mk p p) Fp Fp) as [A B].
    { intros d Hd. apply Hf. right. exact Hd. }
    intros d Hd. apply grow_bbox2_to_int_inside; [exact A|exact B|].
    destruct Hd as [<-|Hd].
    + apply BBox2_fold_keeps. unfold holds.
      cbn [fst snd BBox2.min BBox2.max]. repeat split; apply Qle_refl.
    + apply BBox2_fold_holds. exact Hd.
Qed.

Lemma ip_search_range_surviving_bbox_witness :
  ip_search_range proj_left identity_matrix (16, 16)%Q (16, 16)%Q
                  sample_ip1 sample_ip2 = BBox2i.mk (2, 3) (3, 4) /\
  exists d : Vector2,
    (fst d == 2 /\ snd d == 7 # 2)%Q /\
    inside_int_box
      (ip_search_range proj_left identity_matrix (16, 16)%Q (16, 16)%Q
                       sample_ip1 sample_ip2) d.
Proof.
  split; [vm_compute; reflexivity|].
  destruct (ip_search_range_surviving_bbox
              proj_left identity_matrix (16, 16)%Q (16, 16)%Q
              sample_ip1 sample_ip2) as (_ & _ & H).
  destruct H as [_ H].
  - vm_compute. discriminate.
  - intros d Hd. vm_compute in Hd. destruct Hd as [<-|[]].
    vm_compute. repeat split; discriminate.
  - eexists. split; cycle 1.
    + apply H. vm_compute. left. reflexivity.
    + vm_compute. split; reflexivity.
Defined.

(** The box contains the point [p]. *)
Lemma grow_point_keeps (b : BBox2f.t) (p q : Vector2) :
  (fst (BBox2f.min b) <= fst p <= fst (BBox2f.max b) /\
   snd (BBox2f.min b) <= snd p <= snd (BBox2f.max b))%Q ->
  (fst (BBox2f.min (BBox2f.grow_point b q)) <= fst p
     <= fst (BBox2f.max (BBox2f.grow_point b q)) /\
   snd (BBox2f.min (BBox2f.grow_point b q)) <= snd p
     <= snd (BBox2f.max (BBox2f.grow_point b q)))%Q.
Proof.
  unfold BBox2f.grow_point. cbn [fst snd BBox2f.min BBox2f.max].
  pose proof (Qmin'_le_l (fst (BBox2f.min b)) (fst q)).
  pose proof (Qmax'_ge_l (fst (BBox2f.max b)) (fst q)).
  pose proof (Qmin'_le_l (snd (BBox2f.min b)) (snd q)).
  pose proof (Qmax'_ge_l (snd (BBox2f.max b)) (snd q)).
  intros [[? ?] [? ?]]. repeat split; lra.
Qed.

Lemma grow_point_holds (b : BBox2f.t) (q : Vector2) :
  (fst (BBox2f.min (BBox2f.grow_point b q)) <= fst q
     <= fst (BBox2f.max (BBox2f.grow_point b q)) /\
   snd (BBox2f.min (BBox2f.grow_point b q)) <= snd q
     <= snd (BBox2f.max (BBox2f.grow_point b q)))%Q.
Proof.
  unfold BBox2f.grow_point. cbn [fst snd BBox2f.min BBox2f.max].
  pose proof (Qmin'_le_r (fst (BBox2f.min b)) (fst q)).
  pose proof (Qmax'_ge_r (fst (BBox2f.max b)) (fst q)).
  pose proof (Qmin'_le_r (snd (BBox2f.min b)) (snd q)).
  pose proof (Qmax'_ge_r (snd (BBox2f.max b)) (snd q)).
  repeat split; assumption.
Qed.

Lemma fold_grow_point_keeps (pts : list Vector2) :
  forall (b : BBox2f.t) (p : Vector2),
    (fst (BBox2f.min b) <= fst p <= fst (BBox2f.max b) /\
     snd (BBox2f.min b) <= snd p <= snd (BBox2f.max b))%Q ->
    let b' := fold_left BBox2f.grow_point pts b in
    (fst (BBox2f.min b') <= fst p <= fst (BBox2f.max b') /\
     snd (BBox2f.min b') <= snd p <= snd (BBox2f.max b'))%Q.
Proof.
  induction pts as [|q pts IH]; intros b p H; [exact H|].
  simpl. apply IH. apply grow_point_keeps. exact H.
Qed.

Lemma fold_grow_point_holds (pts : list Vector2) :
  forall (b : BBox2f.t) (p : Vector2),
    In p pts ->
    let b' := fold_left BBox2f.grow_point pts b in
    (fst (BBox2f.min b') <= fst p <= fst (BBox2f.max b') /\
     snd (BBox2f.min b') <= snd p <= snd (BBox2f.max b'))%Q.
Proof.
  induction pts as [|q pts IH]; intros b p [].
  - subst q. simpl. apply fold_grow_point_keeps. apply grow_point_holds.
  - simpl. apply IH. assumption.
Qed.

(** ** Interest-point matching without inliers *)

(** C9. When [ip_matching] runs the matcher (no cached match file is
    used, the two input images open) and the matcher finds no inlier, the
    match file is removed and [IOErr] is thrown. The world left behind is
    the world the single run of the matcher left, minus the match file:
    the matcher is not run again. *)
Theorem ip_matching_no_inlier (wa hm : string -> M World bool)
    (nadir_facing : bool) (input_file1 input_file2 match_filename : string)
    (image1 image2 : DispSeedImageType) (w w1 : World) :
  crop_left_and_right (stereo_settings w) = true \/
    files w !! match_filename = None ->
  files w !! input_file1 = Some (ImageFile image1) ->
  files w !! input_file2 = Some (ImageFile image2) ->
  selected_matcher wa hm nadir_facing match_filename w = (inr false, w1) ->
  ip_matching wa hm nadir_facing input_file1 input_file2 match_filename w =
    (inl (IOErr "Unable to match left and right images."),
     mkWorld (stereo_settings w1) (delete match_filename (files w1))
             (events w1)) /\
  files (snd (ip_matching wa hm nadir_facing input_file1 input_file2
                          match_filename w)) !! match_filename = None.
Proof.
  intros Hc H1 H2 Hm.
  assert (E : ip_matching wa hm nadir_facing input_file1 input_file2
                          match_filename w =
              (inl (IOErr "Unable to match left and right images."),
               mkWorld (stereo_settings w1) (delete match_filename (files w1))
                       (events w1))).
  { unfold ip_matching. rewrite bind_get_settings, bind_fs_exists.
    assert (Hb : negb (crop_left_and_right (stereo_settings w)) &&
                 bool_decide (is_Some (files w !! match_filename)) = false).
    { destruct Hc as [Hc|Hc]; rewrite Hc; [reflexivity|].
      rewrite andb_false_r. reflexivity. }
    rewrite Hb.
    rewrite (bind_open_image _ _ _ _ H1), (bind_open_image _ _ _ _ H2).
    unfold selected_matcher in Hm. unfold bind at 1.
    destruct nadir_facing; rewrite bind_log_event, Hm; reflexivity. }
  split; [exact E|]. rewrite E. simpl. apply lookup_delete_eq.
Qed.

Lemma ip_matching_no_inlier_witness :
  ip_matching failing_matcher failing_matcher false "left.tif" "right.tif"
              "run-left__right.match"
              (sample_world (sample_settings 1 false) input_files) =
    (inl (IOErr "Unable to match left and right images."),
     mkWorld (sample_settings 1 false) input_files
             [HomographyIpMatching "run-left__right.match"]).
Proof.
  refine (eq_trans
            (proj1 (ip_matching_no_inlier
                      failing_matcher failing_matcher false
                      "left.tif" "right.tif" "run-left__right.match"
                      (const_image 16 16 None) (const_image 16 16 None)
                      (sample_world (sample_settings 1 false) input_files)
                      _ _ _ _ _)) _).
  - right. reflexivity.
  - reflexivity.
  - reflexivity.
  - reflexivity.
  - vm_compute. reflexivity.
Defined.

(** ** One crop window alone changes nothing *)

Lemma BBox2i_eqb_eq (a b : BBox2i.t) : BBox2i.eqb a b = true <-> a = b.
Proof.
  destruct a as [[a1 a2] [a3 a4]], b as [[b1 b2] [b3 b4]].
  unfold BBox2i.eqb. simpl.
  rewrite !andb_true_iff, !Z.eqb_eq. split.
  - intros [[[-> ->] ->] ->]. reflexivity.
  - intros H. injection H as -> -> -> ->. auto.
Qed.

Lemma crop_left_and_right_false (s : StereoSettings) :
  crop_left_and_right s = false <->
  left_image_crop_win s = BBox2i.xywh 0 0 0 0 \/
  right_image_crop_win s = BBox2i.xywh 0 0 0 0.
Proof.
  unfold crop_left_and_right, BBox2i.neqb.
  rewrite andb_false_iff, !negb_false_iff, !BBox2i_eqb_eq. reflexivity.
Qed.

Lemma preserves_world_bind {A B} (m : M World A) (k : A -> M World B) :
  preserves_world m -> (forall a, preserves_world (k a)) ->
  preserves_world (bind m k).
Proof.
  intros Hm Hk w. unfold bind. specialize (Hm w).
  destruct (m w) as [[e|a] w']; simpl in *; [exact Hm|].
  rewrite Hk. exact Hm.
Qed.

Lemma preserves_world_open_image (f : string) :
  preserves_world (open_image f).
Proof.
  intros w. unfold open_image.
  destruct (files w !! f) as [[img| |]|]; reflexivity.
Qed.

(** The probe of the cached normalized images when no crop is done. *)
Lemma cached_images_probe (L R : string) (w : World) :
  (if bool_decide (is_Some (files w !! L)) &&
      bool_decide (is_Some (files w !! R)) && negb false
   then
     try_catch
       (let! out_left := open_image L in
        let! out_right := open_image R in
        let! _ := log_event UsingCachedNormalizedImages in
        ret true)
       is_IOErr_or_ArgumentErr
       (ret false)
   else ret false) w =
  (inr (readable_image w L && readable_image w R),
   if readable_image w L && readable_image w R
   then logged UsingCachedNormalizedImages w else w).
Proof.
  unfold readable_image.
  destruct (files w !! L) as [[imgl| |]|] eqn:EL;
    destruct (files w !! R) as [[imgr| |]|] eqn:ER;
    cbn [bool_decide decide_rel is_Some_dec andb negb];
    unfold try_catch, bind, open_image, ret;
    rewrite ?EL; cbn [is_IOErr_or_ArgumentErr]; rewrite ?ER; reflexivity.
Qed.

(** The hook when the crop test is false: the cached images are used when
    both open; otherwise the inputs are opened and kept as they are. *)
Lemma shared_preprocessing_hook_no_crop (prefix li ri : string) (w : World) :
  crop_left_and_right (stereo_settings w) = false ->
  shared_preprocessing_hook prefix li ri w =
  if readable_image w (prefix +:+ "-L.tif") &&
     readable_image w (prefix +:+ "-R.tif")
  then (inr (mkOutputs (prefix +:+ "-L.tif") (prefix +:+ "-R.tif") None),
        logged UsingCachedNormalizedImages w)
  else
    (let! left_rsrc := open_image li in
     let! right_rsrc := open_image ri in
     ret (mkOutputs (prefix +:+ "-L.tif") (prefix +:+ "-R.tif")
                    (Some (li, ri)))) w.
Proof.
  intros Hc. unfold shared_preprocessing_hook.
  rewrite bind_get_settings, Hc, !bind_fs_exists.
  unfold bind at 1. rewrite cached_images_probe.
  destruct (readable_image w _ && readable_image w _); reflexivity.
Qed.

(** C10, as stated, fails: it is not the case that with at most one
    non-empty crop window the camera pixel offsets are zero. A window that
    is empty without being [BBox2i(0, 0, 0, 0)], here the left window
    (5, 5, 0, 0) next to a right window of 10 x 10, counts as set: the
    crop test is true and the left camera is offset by (5, 5). *)
Lemma empty_crop_window_counts_as_set :
  ~ (forall (s : StereoSettings) (l r c : string) (v : Vector2),
       BBox2i.empty (left_image_crop_win s) = true \/
       BBox2i.empty (right_image_crop_win s) = true ->
       camera_pixel_offset s "" l r c = inr v ->
       crop_left_and_right s = false /\ v = (0%Q, 0%Q)).
Proof.
  intros H.
  destruct (H empty_left_crop_settings "left.tif" "right.tif" "left.tif"
              (inject_Z 5, inject_Z 5) (or_introl eq_refl) eq_refl)
    as [C _].
  vm_compute in C. discriminate C.
Qed.

(** C10, amended. When at most one of the two crop windows is set, that is
    differs
    from [BBox2i(0, 0, 0, 0)] (the test the code applies), the crop test is
    false and nothing is driven by the crop: an existing match file is
    reused without running a matcher, cached normalized images that open
    are reused, the preprocessing hook writes no file (so no cropped image)
    and hands back the input names, a readable cached D_sub is reused in
    seed mode > 0, and the camera pixel offset is zero, as it is with both
    windows unset. *)
Theorem one_crop_window_is_no_crop (s : StereoSettings) :
  left_image_crop_win s = BBox2i.xywh 0 0 0 0 \/
  right_image_crop_win s = BBox2i.xywh 0 0 0 0 ->
  crop_left_and_right s = false /\
  (forall wa hm nadir in1 in2 mf w,
     stereo_settings w = s ->
     is_Some (files w !! mf) ->
     ip_matching wa hm nadir in1 in2 mf w =
       (inr true, logged (UsingCachedMatchFile mf) w)) /\
  (forall prefix li ri w,
     stereo_settings w = s ->
     readable_image w (prefix +:+ "-L.tif") = true ->
     readable_image w (prefix +:+ "-R.tif") = true ->
     shared_preprocessing_hook prefix li ri w =
       (inr (mkOutputs (prefix +:+ "-L.tif") (prefix +:+ "-R.tif") None),
        logged UsingCachedNormalizedImages w)) /\
  (forall prefix li ri w,
     stereo_settings w = s ->
     let r := shared_preprocessing_hook prefix li ri w in
     files (snd r) = files w /\
     (forall f, In (WriteCroppedImage f) (events (snd r)) ->
                In (WriteCroppedImage f) (events w)) /\
     (forall o names, fst r = inr o -> cropped_files o = Some names ->
                      names = (li, ri))) /\
  (forall pc rt rq dem opt w,
     stereo_settings w = s ->
     0 < seed_mode s ->
     readable_image w (out_prefix opt +:+ "-D_sub.tif") = true ->
     lowres_correlation_dsub pc rt rq dem opt w =
       (inr tt, logged (UsingCachedDsub (out_prefix opt +:+ "-D_sub.tif")) w))
  /\
  (forall input_dem l r c,
     camera_pixel_offset s input_dem l r c =
       camera_pixel_offset (clear_crop_windows s) input_dem l r c /\
     forall v, camera_pixel_offset s input_dem l r c = inr v ->
               v = (0%Q, 0%Q)).
Proof.
  intros H. apply crop_left_and_right_false in H.
  split; [exact H|]. split; [|split; [|split; [|split]]].
  - intros wa hm nadir in1 in2 mf w <- Hf.
    unfold ip_matching. rewrite bind_get_settings, bind_fs_exists, H.
    rewrite bool_decide_eq_true_2 by exact Hf. reflexivity.
  - intros prefix li ri w <- HL HR.
    rewrite shared_preprocessing_hook_no_crop by exact H.
    rewrite HL, HR. reflexivity.
  - intros prefix li ri w <- r. subst r.
    rewrite shared_preprocessing_hook_no_crop by exact H.
    destruct (readable_image w _ && readable_image w _).
    + simpl. split; [reflexivity|]. split.
      * intros f Hf. apply in_app_or in Hf as [Hf|[Hf|[]]];
          [exact Hf|discriminate].
      * intros o names Ho Hn. injection Ho as <-. discriminate.
    + unfold bind, open_image, ret.
      destruct (files w !! li) as [[imgl| |]|];
        destruct (files w !! ri) as [[imgr| |]|]; simpl;
        (split; [reflexivity|]; split; [auto|]);
        intros o names Ho Hn; try discriminate;
        injection Ho as <-; injection Hn as <-; reflexivity.
  - intros pc rt rq dem opt w <- Hm Hr.
    apply (proj1 (lowres_correlation_dsub_reuse_cases pc rt rq dem opt w Hm));
      assumption.
  - intros input_dem l r c.
    unfold camera_pixel_offset, crop_left_and_right in *.
    cbn [left_image_crop_win right_image_crop_win clear_crop_windows].
    rewrite H. change (BBox2i.neqb (BBox2i.xywh 0 0 0 0) (BBox2i.xywh 0 0 0 0))
      with false. cbn [andb fst snd].
    split; [reflexivity|].
    intros v Hv. destruct (negb (input_dem =? ""))%string;
      [injection Hv as <-; reflexivity|].
    destruct (c =? l)%string; [injection Hv as <-; reflexivity|].
    destruct (c =? r)%string; [injection Hv as <-; reflexivity|discriminate].
Qed.

Lemma one_crop_window_is_no_crop_witness :
  crop_left_and_right left_crop_settings = false /\
  camera_pixel_offset left_crop_settings "" "left.tif" "right.tif"
                      "left.tif" = inr (0%Q, 0%Q).
Proof.
  destruct (one_crop_window_is_no_crop left_crop_settings
              (or_intror eq_refl)) as (H1 & _ & _ & _ & _ & H6).
  split; [exact H1|].
  destruct (H6 "" "left.tif" "right.tif" "left.tif") as [E _].
  rewrite E. reflexivity.
Defined.

(** ** Widening by the spread field *)

Lemma BBox2f_subset_refl (a : BBox2f.t) : BBox2f.subset a a.
Proof. unfold BBox2f.subset. repeat split; lra. Qed.

Lemma BBox2f_subset_trans (a b c : BBox2f.t) :
  BBox2f.subset a b -> BBox2f.subset b c -> BBox2f.subset a c.
Proof.
  unfold BBox2f.subset. intros (?&?&?&?) (?&?&?&?). repeat split; lra.
Qed.

Lemma BBox2i_subset_refl (a : BBox2i.t) : BBox2i.subset a a.
Proof. unfold BBox2i.subset. lia. Qed.

(** ** Rounding keeps bounds that are powers of two *)

Lemma pow2_representable (f : Format) (p : Z) :
  0 <= prec f -> emin f <= p -> representable f (pow2 p).
Proof.
  intros Hp He. exists 1, p. split; [ring|]. split; [|exact He].
  change (Z.abs 1) with 1. pose proof (Z.pow_pos_nonneg 2 (prec f)). lia.
Qed.

Lemma round_to_cap (f : Format) (x : Q) (p : Z) :
  0 < prec f -> emin f <= p ->
  (- pow2 p <= x <= pow2 p)%Q -> (- pow2 p <= round_to f x <= pow2 p)%Q.
Proof.
  intros Hp He [H1 H2].
  pose proof (round_to_id f (pow2 p) Hp
                (pow2_representable f p ltac:(lia) He)) as E.
  split.
  - apply Qle_trans with (round_to f (- pow2 p)).
    + rewrite round_to_opp, E. apply Qle_refl.
    + apply round_to_mono; assumption.
  - apply Qle_trans with (round_to f (pow2 p)).
    + apply round_to_mono; assumption.
    + rewrite E. apply Qle_refl.
Qed.

Lemma float32_cap (x : Q) (p : Z) :
  0 <= p -> (- pow2 p <= x <= pow2 p)%Q ->
  (- pow2 p <= float32 x <= pow2 p)%Q.
Proof. intros Hp. apply round_to_cap; simpl; lia. Qed.

Lemma double_cap (x : Q) (p : Z) :
  0 <= p -> (- pow2 p <= x <= pow2 p)%Q ->
  (- pow2 p <= double x <= pow2 p)%Q.
Proof. intros Hp. apply round_to_cap; simpl; lia. Qed.

Lemma Qtrunc_mono (x y : Q) : (x <= y)%Q -> Qtrunc x <= Qtrunc y.
Proof.
  intros H.
  destruct (Qlt_le_dec x 0) as [Hx|Hx]; destruct (Qlt_le_dec y 0) as [Hy|Hy].
  - rewrite !Qtrunc_nonpos_ceiling by lra. apply Qceiling_resp_le. exact H.
  - rewrite (Qtrunc_nonpos_ceiling x) by lra.
    rewrite (Qtrunc_nonneg_floor y) by lra.
    assert (A : Qceiling x <= 0).
    { change 0 with (Qceiling 0). apply Qceiling_resp_le. lra. }
    assert (B : 0 <= Qfloor y).
    { change 0 with (Qfloor 0). apply Qfloor_resp_le. lra. }
    lia.
  - lra.
  - rewrite !Qtrunc_nonneg_floor by lra. apply Qfloor_resp_le. exact H.
Qed.

Lemma inject_Z_cap (n p : Z) :
  0 <= p -> Z.abs n <= 2 ^ p -> (- pow2 p <= inject_Z n <= pow2 p)%Q.
Proof.
  intros Hp Hn. rewrite (pow2_Z p Hp), <- inject_Z_opp, <- !Zle_Qle. lia.
Qed.

(** One corner through the chain of [prerasterize_helper]: the integer
    [n] held in a [float], moved by [k], times the factor [u] in [double],
    rounded by [rnd], held in a [float], handed over as an [int]. *)
Lemma corner_chain_mono (rnd : Q -> Z) (k u : Q) (n m j e : Z) :
  (forall x y, (x <= y)%Q -> rnd x <= rnd y) ->
  (forall z, rnd (inject_Z z) = z) ->
  (- (1) <= k <= 1)%Q ->
  n <= m -> Z.abs n <= 2 ^ j -> Z.abs m <= 2 ^ j ->
  (0 <= u <= pow2 e)%Q -> 0 <= j -> 0 <= e -> j + e <= 29 ->
  let chain := fun z : Z =>
    int32_of_double
      (float32 (inject_Z (rnd (dmul (float32 (float32 (inject_Z z) + k))
                                    u)))) in
  chain n <= chain m.
Proof.
  intros Hmono Hid Hk Hnm Hn Hm [Hu0 Hu1] Hj He Hje chain.
  assert (Step : forall z, Z.abs z <= 2 ^ j ->
            let b := float32 (float32 (inject_Z z) + k) in
            let c := dmul b u in
            let t := float32 (inject_Z (rnd c)) in
            (- pow2 (j + 1) <= b <= pow2 (j + 1))%Q /\
            (- pow2 30 <= t <= pow2 30)%Q).
  { intros z Hz b c t.
    pose proof (float32_cap _ j Hj (inject_Z_cap z j Hj Hz)) as A.
    assert (B : (- pow2 (j + 1) <= b <= pow2 (j + 1))%Q).
    { apply float32_cap; [lia|]. rewrite pow2_succ.
      assert (P1 : (1 <= pow2 j)%Q).
      { change 1%Q with (pow2 0). apply pow2_le. lia. }
      set (a := float32 (inject_Z z)) in *. set (pj := pow2 j) in *.
      clearbody a pj. lra. }
    assert (C : (- pow2 30 <= c <= pow2 30)%Q).
    { apply double_cap; [lia|].
      assert (L : (pow2 (j + 1) * pow2 e <= pow2 30)%Q).
      { rewrite <- pow2_add. apply pow2_le. lia. }
      assert (X1 : (b * u <= pow2 (j + 1) * pow2 e)%Q).
      { apply Qle_trans with (pow2 (j + 1) * u)%Q.
        - apply Qmult_le_compat_r; [apply B|exact Hu0].
        - apply Qabs_le_mult; [apply Qlt_le_weak, pow2_pos|exact Hu1]. }
      assert (X2 : (- (pow2 (j + 1) * pow2 e) <= b * u)%Q).
      { apply Qle_trans with (- pow2 (j + 1) * u)%Q.
        - assert (E : (- (pow2 (j + 1) * pow2 e) ==
                       - (pow2 (j + 1) * pow2 e - pow2 (j + 1) * u)
                       + - pow2 (j + 1) * u)%Q) by ring.
          assert (Y : (pow2 (j + 1) * u <= pow2 (j + 1) * pow2 e)%Q).
          { apply Qabs_le_mult; [apply Qlt_le_weak, pow2_pos|exact Hu1]. }
          set (p1 := (pow2 (j + 1) * pow2 e)%Q) in *.
          set (p2 := (pow2 (j + 1) * u)%Q) in *.
          assert (E2 : (- pow2 (j + 1) * u == - p2)%Q) by (unfold p2; ring).
          rewrite E2. clearbody p1 p2. lra.
        - apply Qmult_le_compat_r; [apply B|exact Hu0]. }
      set (bu := (b * u)%Q) in *. set (pp := (pow2 (j + 1) * pow2 e)%Q) in *.
      set (p30 := pow2 30) in *. clearbody bu pp p30. lra. }
    split; [exact B|].
    apply float32_cap; [lia|].
    rewrite (pow2_Z 30) by lia. rewrite (pow2_Z 30) in C by lia.
    destruct C as [C1 C2]. apply Hmono in C1, C2.
    rewrite <- inject_Z_opp in C1. rewrite Hid in C1, C2.
    rewrite <- inject_Z_opp in |- *. rewrite <- !Zle_Qle. lia. }
  destruct (Step n Hn) as [Bn Tn]. destruct (Step m Hm) as [Bm Tm].
  cbv zeta in *.
  assert (Mono : (float32 (inject_Z (rnd (dmul
                    (float32 (float32 (inject_Z n) + k)) u)))
                  <= float32 (inject_Z (rnd (dmul
                    (float32 (float32 (inject_Z m) + k)) u))))%Q).
  { apply float32_mono. rewrite <- Zle_Qle. apply Hmono.
    unfold dmul. apply double_mono.
    apply Qmult_le_compat_r; [|exact Hu0].
    apply float32_mono.
    assert (A : (float32 (inject_Z n) <= float32 (inject_Z m))%Q)
      by (apply float32_mono; rewrite <- Zle_Qle; exact Hnm).
    lra. }
  subst chain. cbv beta. unfold int32_of_double.
  pose proof (Qtrunc_mono _ _ Mono) as T.
  assert (R : forall t : Q, (- pow2 30 <= t <= pow2 30)%Q ->
                            - 2 ^ 30 <= Qtrunc t <= 2 ^ 30).
  { intros t [T1 T2]. rewrite (pow2_Z 30) in T1, T2 by lia.
    rewrite <- inject_Z_opp in T1.
    apply Qtrunc_mono in T1, T2. rewrite !Qtrunc_Z in T1, T2. lia. }
  pose proof (R _ Tn). pose proof (R _ Tm).
  rewrite !to_int32_id by lia. exact T.
Qed.

(** Rounding outward, expanding by one and scaling by factors that are not
    negative keep the inclusion of boxes, as long as no corner leaves the
    range of [int]: the box lies within [-M, M] with [M + 2] at most
    [2 ^ j], the factors are at most [2 ^ e] and [j + e] is at most 29. *)
Lemma round_expand_scale_mono (upscale : Vector2) (a b : BBox2f.t)
    (M j e : Z) :
  (0 <= fst upscale <= inject_Z (2 ^ e))%Q ->
  (0 <= snd upscale <= inject_Z (2 ^ e))%Q ->
  0 <= j -> 0 <= e -> j + e <= 29 -> M + 2 <= 2 ^ j ->
  within M b -> normalized a -> BBox2f.subset a b ->
  BBox2i.subset
    (BBox2f.to_int
       (scale_to_fullres upscale
          (BBox2f.expand (BBox2f.of_int (grow_bbox_to_int a)) 1)))
    (BBox2f.to_int
       (scale_to_fullres upscale
          (BBox2f.expand (BBox2f.of_int (grow_bbox_to_int b)) 1))).
Proof.
  intros Hx Hy Hj He Hje HM Wb [N1 N2] (H1 & H2 & H3 & H4).
  rewrite <- (pow2_Z e He) in Hx, Hy.
  assert (Wa : within M a).
  { destruct Wb as ([? ?] & [? ?] & [? ?] & [? ?]).
    unfold within. repeat split; lra. }
  pose proof (within_nonneg _ _ Wb) as HM0.
  assert (J31 : 2 ^ j <= 2 ^ 29) by (apply Z.pow_le_mono_r; lia).
  destruct Wa as (A1 & A2 & A3 & A4). destruct Wb as (B1 & B2 & B3 & B4).
  pose proof (Qfloor_within _ _ A1). pose proof (Qfloor_within _ _ A2).
  pose proof (Qfloor_within _ _ A3). pose proof (Qfloor_within _ _ A4).
  pose proof (Qfloor_within _ _ B1). pose proof (Qfloor_within _ _ B2).
  pose proof (Qfloor_within _ _ B3). pose proof (Qfloor_within _ _ B4).
  apply Qfloor_resp_le in H1, H2, H3, H4.
  assert (Fl : forall x y, (x <= y)%Q -> Qfloor x <= Qfloor y)
    by (intros; apply Qfloor_resp_le; assumption).
  assert (Ce : forall x y, (x <= y)%Q -> Qceiling x <= Qceiling y)
    by (intros; apply Qceiling_resp_le; assumption).
  assert (K1 : (- (1) <= - (1) <= 1)%Q) by (split; discriminate).
  assert (K2 : (- (1) <= 1 <= 1)%Q) by (split; discriminate).
  unfold BBox2i.subset, BBox2f.to_int, scale_to_fullres, BBox2f.expand,
    BBox2f.of_int, grow_bbox_to_int, grow_corners_to_int, to_Vector2i,
    to_Vector2f, floor2, ceil2, elem_prod, fsub, fadd.
  cbn [fst snd BBox2i.min BBox2i.max BBox2f.min BBox2f.max].
  rewrite !to_int32_id by lia.
  repeat split.
  - apply (corner_chain_mono Qfloor (- (1)) (fst upscale) _ _ j e
             Fl Qfloor_Z K1); first [assumption | lia].
  - apply (corner_chain_mono Qfloor (- (1)) (snd upscale) _ _ j e
             Fl Qfloor_Z K1); first [assumption | lia].
  - apply (corner_chain_mono Qceiling 1 (fst upscale) _ _ j e
             Ce Qceiling_Z K2); first [assumption | lia].
  - apply (corner_chain_mono Qceiling 1 (snd upscale) _ _ j e
             Ce Qceiling_Z K2); first [assumption | lia].
Qed.

Lemma get_disparity_range_float (img : DispSeedImageType) :
  float_box (get_disparity_range img).
Proof.
  destruct (get_disparity_range_cases img) as [[_ E]|(lo & hi & E & _)];
    rewrite E.
  - unfold float_box, zero_box. cbn. repeat split; reflexivity.
  - unfold float_box, to_Vector2f. cbn [fst snd BBox2f.min BBox2f.max].
    repeat split; apply float32_idem.
Qed.

(** Without homography: a spread without negative component widens. *)
Lemma widen_by_max_superset (r : BBox2f.t) (m : Vector2f) :
  float_box r -> (0 <= fst m)%Q -> (0 <= snd m)%Q ->
  BBox2f.subset r (BBox2f.max_add (BBox2f.min_sub r m) m).
Proof.
  intros (F1 & F2 & F3 & F4) H1 H2.
  unfold BBox2f.subset, BBox2f.max_add, BBox2f.min_sub, fsub, fadd.
  cbn [fst snd BBox2f.min BBox2f.max].
  repeat split.
  - rewrite <- F1 at 2. apply float32_mono. lra.
  - rewrite <- F2 at 2. apply float32_mono. lra.
  - rewrite <- F3 at 1. apply float32_mono. lra.
  - rewrite <- F4 at 1. apply float32_mono. lra.
Qed.

Lemma grow_point_superset (b : BBox2f.t) (p : Vector2) :
  BBox2f.subset b (BBox2f.grow_point b p).
Proof.
  unfold BBox2f.subset, BBox2f.grow_point.
  cbn [fst snd BBox2f.min BBox2f.max].
  repeat split;
    first [apply Qmin'_le_l | apply Qmax'_ge_l].
Qed.

Lemma grow_superset_l (b c : BBox2f.t) : BBox2f.subset b (BBox2f.grow b c).
Proof.
  unfold BBox2f.grow.
  eapply BBox2f_subset_trans; apply grow_point_superset.
Qed.

(** The union holds the corners of the box it was grown by. *)
Lemma grow_superset_r (b c : BBox2f.t) :
  normalized c -> BBox2f.subset c (BBox2f.grow b c).
Proof.
  intros [N1 N2]. unfold BBox2f.grow.
  destruct (grow_point_holds (BBox2f.grow_point b (BBox2f.min c))
                             (BBox2f.max c)) as [[A1 A2] [A3 A4]].
  destruct (grow_point_keeps (BBox2f.grow_point b (BBox2f.min c))
                             (BBox2f.min c) (BBox2f.max c)
                             (grow_point_holds b (BBox2f.min c)))
    as [[B1 B2] [B3 B4]].
  unfold BBox2f.subset. repeat split; assumption.
Qed.

Lemma Qround_away_mono (x y : Q) :
  (x <= y)%Q -> Qround_away x <= Qround_away y.
Proof.
  intros H. unfold Qround_away.
  destruct (Qle_bool 0 x) eqn:Ex, (Qle_bool 0 y) eqn:Ey.
  - apply Qfloor_resp_le. lra.
  - apply Qle_bool_iff in Ex.
    assert (C : Qle_bool 0 y = true) by (apply Qle_bool_iff; lra).
    congruence.
  - apply Qle_bool_iff in Ey.
    assert (Hx : (x < 0)%Q).
    { destruct (Qlt_le_dec x 0) as [L|L]; [exact L|].
      apply Qle_bool_iff in L. congruence. }
    transitivity 0.
    + change 0 with (Qceiling 0). apply Qceiling_resp_le. lra.
    + change 0 with (Qfloor 0). apply Qfloor_resp_le. lra.
  - apply Qceiling_resp_le. lra.
Qed.

(** A quotient of sums lies between the two quotients when the two
    denominators have the same sign. *)
Lemma mediant_between (n1 n2 w1 w2 : Q) :
  (0 < w1 * w2)%Q ->
  let m := ((n1 + n2) / (w1 + w2))%Q in
  (n1 / w1 <= m <= n2 / w2)%Q \/ (n2 / w2 <= m <= n1 / w1)%Q.
Proof.
  intros Hw m.
  assert (S1 : (0 <= w1 * w1)%Q).
  { destruct (Qlt_le_dec w1 0).
    - assert (E : (w1 * w1 == (- w1) * (- w1))%Q) by ring. rewrite E.
      apply Qmult_le_0_compat; lra.
    - apply Qmult_le_0_compat; lra. }
  assert (S2 : (0 <= w2 * w2)%Q).
  { destruct (Qlt_le_dec w2 0).
    - assert (E : (w2 * w2 == (- w2) * (- w2))%Q) by ring. rewrite E.
      apply Qmult_le_0_compat; lra.
    - apply Qmult_le_0_compat; lra. }
  assert (N1 : ~ (w1 == 0)%Q).
  { intros C. rewrite C in Hw. rewrite Qmult_0_l in Hw. apply (Qlt_irrefl 0), Hw. }
  assert (N2 : ~ (w2 == 0)%Q).
  { intros C. rewrite C in Hw. rewrite Qmult_0_r in Hw. apply (Qlt_irrefl 0), Hw. }
  set (q := ((w1 + w2) * (w1 + w2))%Q).
  assert (Pq : (0 < q)%Q).
  { assert (E : (q == w1 * w1 + 2 * (w1 * w2) + w2 * w2)%Q)
      by (unfold q; ring).
    rewrite E. set (a := (w1 * w1)%Q) in *. set (b := (w2 * w2)%Q) in *.
    set (c := (w1 * w2)%Q) in *. clearbody a b c. lra. }
  assert (N3 : ~ (w1 + w2 == 0)%Q).
  { intros C. unfold q in Pq. rewrite C in Pq. rewrite Qmult_0_l in Pq.
    apply (Qlt_irrefl 0), Pq. }
  (* the weights of the two quotients *)
  set (t1 := ((w1 * w1 + w1 * w2) / q)%Q).
  set (t2 := ((w2 * w2 + w1 * w2) / q)%Q).
  assert (T1 : (0 <= t1)%Q).
  { unfold t1. apply Qle_shift_div_l; [exact Pq|].
    set (a := (w1 * w1)%Q) in *. set (c := (w1 * w2)%Q) in *.
    clearbody a c. lra. }
  assert (T2 : (0 <= t2)%Q).
  { unfold t2. apply Qle_shift_div_l; [exact Pq|].
    set (b := (w2 * w2)%Q) in *. set (c := (w1 * w2)%Q) in *.
    clearbody b c. lra. }
  assert (E1 : (m - n1 / w1 == (n2 / w2 - n1 / w1) * t2)%Q).
  { unfold m, t2, q. field. repeat split; assumption. }
  assert (E2 : (n2 / w2 - m == (n2 / w2 - n1 / w1) * t1)%Q).
  { unfold m, t1, q. field. repeat split; assumption. }
  set (a := (n1 / w1)%Q) in *. set (b := (n2 / w2)%Q) in *.
  destruct (Qlt_le_dec b a) as [L|L].
  - right.
    assert (X1 : ((b - a) * t2 <= 0)%Q).
    { assert (Y : (0 <= (a - b) * t2)%Q)
        by (apply Qmult_le_0_compat; lra).
      assert (Z' : ((b - a) * t2 == - ((a - b) * t2))%Q) by ring.
      rewrite Z'. lra. }
    assert (X2 : ((b - a) * t1 <= 0)%Q).
    { assert (Y : (0 <= (a - b) * t1)%Q)
        by (apply Qmult_le_0_compat; lra).
      assert (Z' : ((b - a) * t1 == - ((a - b) * t1))%Q) by ring.
      rewrite Z'. lra. }
    clearbody m a b t1 t2. split; lra.
  - left.
    assert (X1 : (0 <= (b - a) * t2)%Q)
      by (apply Qmult_le_0_compat; lra).
    assert (X2 : (0 <= (b - a) * t1)%Q)
      by (apply Qmult_le_0_compat; lra).
    clearbody m a b t1 t2. split; lra.
Qed.

(** Where the homography has no pole between the two ends, the
    transformed disparity lies between the transformed disparities plus
    and minus the spread, on each axis. *)
Lemma warp_between (sb : BBox2i.t) (T : Matrix3x3) (x y : Z)
    (d e : Vector2i) :
  let up := (fst d + fst e, snd d + snd e) in
  let lo := (fst d - fst e, snd d - snd e) in
  (0 < denominator sb T x y up * denominator sb T x y lo)%Q ->
  ((fst (warp sb T x y up) <= fst (warp sb T x y d)
      <= fst (warp sb T x y lo))%Q \/
   (fst (warp sb T x y lo) <= fst (warp sb T x y d)
      <= fst (warp sb T x y up))%Q) /\
  ((snd (warp sb T x y up) <= snd (warp sb T x y d)
      <= snd (warp sb T x y lo))%Q \/
   (snd (warp sb T x y lo) <= snd (warp sb T x y d)
      <= snd (warp sb T x y up))%Q).
Proof.
  intros up lo Hw. subst up lo.
  unfold denominator, warp, forward, mat_apply, to_Vector2 in *.
  cbn [fst snd] in *.
  set (bx := fst (BBox2i.min sb) + x) in *.
  set (by_ := snd (BBox2i.min sb) + y) in *.
  destruct d as [d1 d2], e as [e1 e2]. cbn [fst snd] in *.
  set (w1 := (h20 T * inject_Z (bx + (d1 + e1))
              + h21 T * inject_Z (by_ + (d2 + e2)) + h22 T)%Q) in *.
  set (w2 := (h20 T * inject_Z (bx + (d1 - e1))
              + h21 T * inject_Z (by_ + (d2 - e2)) + h22 T)%Q) in *.
  set (w := (h20 T * inject_Z (bx + d1)
             + h21 T * inject_Z (by_ + d2) + h22 T)%Q).
  set (nx1 := (h00 T * inject_Z (bx + (d1 + e1))
               + h01 T * inject_Z (by_ + (d2 + e2)) + h02 T)%Q).
  set (nx2 := (h00 T * inject_Z (bx + (d1 - e1))
               + h01 T * inject_Z (by_ + (d2 - e2)) + h02 T)%Q).
  set (nx := (h00 T * inject_Z (bx + d1)
              + h01 T * inject_Z (by_ + d2) + h02 T)%Q).
  set (ny1 := (h10 T * inject_Z (bx + (d1 + e1))
               + h11 T * inject_Z (by_ + (d2 + e2)) + h12 T)%Q).
  set (ny2 := (h10 T * inject_Z (bx + (d1 - e1))
               + h11 T * inject_Z (by_ + (d2 - e2)) + h12 T)%Q).
  set (ny := (h10 T * inject_Z (bx + d1)
              + h11 T * inject_Z (by_ + d2) + h12 T)%Q).
  assert (Hw' : (0 < w1 * w2)%Q).
  { replace (bx + (d1 + e1)) with (bx + d1 + e1) by lia.
    replace (by_ + (d2 + e2)) with (by_ + d2 + e2) by lia.
    replace (bx + (d1 - e1)) with (bx + d1 - e1) by lia.
    replace (by_ + (d2 - e2)) with (by_ + d2 - e2) by lia.
    subst w1 w2. exact Hw. }
  assert (Ew : (w1 + w2 == 2 * w)%Q).
  { unfold w1, w2, w. unfold Z.sub.
    rewrite !inject_Z_plus, !inject_Z_opp. ring. }
  assert (Ex : (nx1 + nx2 == 2 * nx)%Q).
  { unfold nx1, nx2, nx. unfold Z.sub.
    rewrite !inject_Z_plus, !inject_Z_opp. ring. }
  assert (Ey : (ny1 + ny2 == 2 * ny)%Q).
  { unfold ny1, ny2, ny. unfold Z.sub.
    rewrite !inject_Z_plus, !inject_Z_opp. ring. }
  assert (Nw : ~ (w == 0)%Q).
  { intros C. rewrite C in Ew.
    assert (E : (w2 == - w1)%Q) by lra. rewrite E in Hw'.
    assert (S1 : (0 <= w1 * w1)%Q).
    { destruct (Qlt_le_dec w1 0).
      - assert (E' : (w1 * w1 == (- w1) * (- w1))%Q) by ring. rewrite E'.
        apply Qmult_le_0_compat; lra.
      - apply Qmult_le_0_compat; lra. }
    assert (E' : (w1 * - w1 == - (w1 * w1))%Q) by ring.
    rewrite E' in Hw'. lra. }
  assert (Mx : (nx / w == (nx1 + nx2) / (w1 + w2))%Q).
  { rewrite Ex, Ew. field. exact Nw. }
  assert (My : (ny / w == (ny1 + ny2) / (w1 + w2))%Q).
  { rewrite Ey, Ew. field. exact Nw. }
  pose proof (mediant_between nx1 nx2 w1 w2 Hw') as Bx.
  pose proof (mediant_between ny1 ny2 w1 w2 Hw') as By.
  cbv zeta in Bx, By. rewrite <- Mx in Bx. rewrite <- My in By.
  fold w nx ny.
  clearbody w1 w2 w nx1 nx2 nx ny1 ny2 ny.
  set (ax := (nx1 / w1)%Q) in *. set (bx' := (nx2 / w2)%Q) in *.
  set (mx := (nx / w)%Q) in *.
  set (ay := (ny1 / w1)%Q) in *. set (by' := (ny2 / w2)%Q) in *.
  set (my := (ny / w)%Q) in *.
  clearbody ax bx' mx ay by' my.
  split.
  - destruct Bx as [[? ?]|[? ?]]; [left|right]; split; lra.
  - destruct By as [[? ?]|[? ?]]; [left|right]; split; lra.
Qed.

Lemma transform_disparities_px (sb : BBox2i.t) (T : Matrix3x3)
    (img : DispSeedImageType) (x y : Z) :
  px (transform_disparities true sb T img) x y =
  option_map (fun d => round_vector (warp sb T x y d)) (px img x y).
Proof.
  unfold transform_disparities. cbn [px].
  destruct (px img x y) as [d|]; reflexivity.
Qed.

Lemma round_between (u l m : Q) :
  (u <= m <= l)%Q \/ (l <= m <= u)%Q ->
  (Qround_away u <= Qround_away m <= Qround_away l) \/
  (Qround_away l <= Qround_away m <= Qround_away u).
Proof.
  intros [[H1 H2]|[H1 H2]]; [left|right];
    split; apply Qround_away_mono; assumption.
Qed.

(** A valid pixel of a field lies in the range of the field. *)
Lemma get_disparity_range_holds (img : DispSeedImageType) (x y : Z)
    (v : Vector2i) :
  0 <= x < cols img -> 0 <= y < rows img -> px img x y = Some v ->
  (fst (BBox2f.min (get_disparity_range img)) <= float32 (inject_Z (fst v))
     <= fst (BBox2f.max (get_disparity_range img)) /\
   snd (BBox2f.min (get_disparity_range img)) <= float32 (inject_Z (snd v))
     <= snd (BBox2f.max (get_disparity_range img)))%Q.
Proof.
  intros Hx Hy Hv.
  destruct (get_disparity_range_cases img) as [[Hn _]|(lo & hi & E & Hb & _)].
  - specialize (Hn x y Hx Hy).
    assert (C : Some v = None) by (etransitivity; [symmetry; exact Hv|exact Hn]).
    discriminate C.
  - rewrite E. unfold to_Vector2f. cbn [fst snd BBox2f.min BBox2f.max].
    assert (Hin : In (Some v) (pixels img)).
    { apply in_pixels. exists x, y. auto. }
    specialize (Hb v Hin).
    repeat split; apply float32_mono; rewrite <- Zle_Qle; lia.
Qed.

(** With a homography without pole between the two ends and a spread that
    is valid wherever the seed is, the rounded transform of each valid
    seed disparity lies in the union of the ranges of the transformed
    seed + spread and seed - spread. *)
Lemma transformed_cell_in_union (sb : BBox2i.t) (T : Matrix3x3)
    (seed sp : DispSeedImageType) (x y : Z) (d : Vector2i) :
  no_pole sb T seed sp -> covers sp seed ->
  0 <= x < cols seed -> 0 <= y < rows seed -> px seed x y = Some d ->
  let U := get_disparity_range
             (transform_disparities true sb T
                (image_zip pixel_add seed sp)) in
  let L := get_disparity_range
             (transform_disparities true sb T
                (image_zip pixel_sub seed sp)) in
  let rm := round_vector (warp sb T x y d) in
  (fst (BBox2f.min (BBox2f.grow U L)) <= float32 (inject_Z (fst rm))
     <= fst (BBox2f.max (BBox2f.grow U L)) /\
   snd (BBox2f.min (BBox2f.grow U L)) <= float32 (inject_Z (snd rm))
     <= snd (BBox2f.max (BBox2f.grow U L)))%Q.
Proof.
  intros Ha Hc Hx Hy Hd U L rm.
  destruct (Hc x y d Hx Hy Hd) as [e He].
  pose proof (Ha x y d e Hx Hy Hd He) as Hp. cbv zeta in Hp.
  destruct d as [d1 d2], e as [e1 e2]. cbn [fst snd] in Hp.
  assert (HU := get_disparity_range_holds
                  (transform_disparities true sb T
                     (image_zip pixel_add seed sp))
                  x y (round_vector (warp sb T x y (d1 + e1, d2 + e2)))
                  Hx Hy).
  assert (HL := get_disparity_range_holds
                  (transform_disparities true sb T
                     (image_zip pixel_sub seed sp))
                  x y (round_vector (warp sb T x y (d1 - e1, d2 - e2)))
                  Hx Hy).
  rewrite transform_disparities_px in HU, HL.
  cbn [px image_zip] in HU, HL. rewrite Hd, He in HU, HL.
  specialize (HU eq_refl). specialize (HL eq_refl).
  fold U in HU. fold L in HL.
  destruct (grow_superset_l U L) as (G1 & G2 & G3 & G4).
  destruct (grow_superset_r U L (get_disparity_range_normalized _))
    as (K1 & K2 & K3 & K4).
  fold L in K1, K2, K3, K4.
  destruct (warp_between sb T x y (d1, d2) (e1, e2) Hp) as [M1 M2].
  cbn [fst snd] in M1, M2.
  apply round_between in M1, M2.
  subst rm. unfold round_vector in *. cbn [fst snd] in *.
  destruct HU as [[U1 U2] [U3 U4]]. destruct HL as [[L1 L2] [L3 L4]].
  assert (F1 : forall a b : Z, a <= b ->
             (float32 (inject_Z a) <= float32 (inject_Z b))%Q).
  { intros a b Hab. apply float32_mono. rewrite <- Zle_Qle. exact Hab. }
  set (ux := Qround_away (fst (warp sb T x y (d1 + e1, d2 + e2)))) in *.
  set (uy := Qround_away (snd (warp sb T x y (d1 + e1, d2 + e2)))) in *.
  set (lx := Qround_away (fst (warp sb T x y (d1 - e1, d2 - e2)))) in *.
  set (ly := Qround_away (snd (warp sb T x y (d1 - e1, d2 - e2)))) in *.
  set (mx := Qround_away (fst (warp sb T x y (d1, d2)))) in *.
  set (my := Qround_away (snd (warp sb T x y (d1, d2)))) in *.
  repeat split.
  - destruct M1 as [[A B]|[A B]]; apply F1 in A, B; lra.
  - destruct M1 as [[A B]|[A B]]; apply F1 in A, B; lra.
  - destruct M2 as [[A B]|[A B]]; apply F1 in A, B; lra.
  - destruct M2 as [[A B]|[A B]]; apply F1 in A, B; lra.
Qed.

(** The homography path: the union of the two transformed ranges holds
    the range of the transformed seed. *)
Lemma transformed_union_superset (sb : BBox2i.t) (T : Matrix3x3)
    (seed sp : DispSeedImageType) :
  no_pole sb T seed sp -> covers sp seed ->
  BBox2f.subset
    (get_disparity_range (transform_disparities true sb T seed))
    (BBox2f.grow
       (get_disparity_range
          (transform_disparities true sb T (image_zip pixel_add seed sp)))
       (get_disparity_range
          (transform_disparities true sb T (image_zip pixel_sub seed sp)))).
Proof.
  intros Ha Hc.
  destruct (get_disparity_range_cases (transform_disparities true sb T seed))
    as [[Hn E]|(lo & hi & E & _ & (a & Ha1 & Ea) & (b & Hb1 & Eb) &
                (c & Hc1 & Ec) & (d & Hd1 & Ed))].
  - assert (Hs : no_valid_disparity seed).
    { intros x y Hx Hy. specialize (Hn x y Hx Hy).
      rewrite transform_disparities_px in Hn.
      destruct (px seed x y); [discriminate Hn|reflexivity]. }
    rewrite E.
    rewrite (get_disparity_range_no_valid
               (transform_disparities true sb T
                  (image_zip pixel_add seed sp))).
    + apply grow_superset_l.
    + apply transform_disparities_no_valid. intros x y Hx Hy.
      cbn [px image_zip cols rows] in *. rewrite (Hs x y Hx Hy). reflexivity.
  - rewrite E. unfold BBox2f.subset, to_Vector2f.
    cbn [fst snd BBox2f.min BBox2f.max].
    assert (P : forall v, In (Some v)
                  (pixels (transform_disparities true sb T seed)) ->
              exists x y d0, 0 <= x < cols seed /\ 0 <= y < rows seed /\
                             px seed x y = Some d0 /\
                             v = round_vector (warp sb T x y d0)).
    { intros v Hv. apply in_pixels in Hv as (x & y & Hx & Hy & Hv).
      rewrite transform_disparities_px in Hv.
      destruct (px seed x y) as [d0|] eqn:Hp; [|discriminate Hv].
      injection Hv as ->. exists x, y, d0. auto. }
    apply P in Ha1 as (x1 & y1 & d1 & X1 & Y1 & P1 & ->).
    apply P in Hb1 as (x2 & y2 & d2 & X2 & Y2 & P2 & ->).
    apply P in Hc1 as (x3 & y3 & d3 & X3 & Y3 & P3 & ->).
    apply P in Hd1 as (x4 & y4 & d4 & X4 & Y4 & P4 & ->).
    rewrite Ea, Eb, Ec, Ed.
    pose proof (transformed_cell_in_union sb T seed sp x1 y1 d1 Ha Hc X1 Y1 P1).
    pose proof (transformed_cell_in_union sb T seed sp x2 y2 d2 Ha Hc X2 Y2 P2).
    pose proof (transformed_cell_in_union sb T seed sp x3 y3 d3 Ha Hc X3 Y3 P3).
    pose proof (transformed_cell_in_union sb T seed sp x4 y4 d4 Ha Hc X4 Y4 P4).
    cbv zeta in *. repeat split; tauto.
Qed.

(** The range before rounding holds the range read from the seed. *)
Lemma unrounded_range_superset (s : StereoSettings) (ts : Z)
    (v : SeededCorrelatorView) (sp : DispSeedImageType) (bbox : BBox2i.t) :
  (use_local_homography s = false ->
   nonneg_field (crop sp (seed_bbox_of v bbox))) ->
  (use_local_homography s = true ->
   no_pole (seed_bbox_of v bbox) (lowres_hom_of ts v bbox)
           (crop (m_sub_disp v) (seed_bbox_of v bbox))
           (crop sp (seed_bbox_of v bbox)) /\
   covers (crop sp (seed_bbox_of v bbox))
          (crop (m_sub_disp v) (seed_bbox_of v bbox))) ->
  BBox2f.subset (seed_range s ts v bbox)
                (unrounded_range s ts (with_spread v sp) bbox).
Proof.
  intros Hn Hh. unfold unrounded_range.
  change (seed_range s ts (with_spread v sp) bbox)
    with (seed_range s ts v bbox).
  destruct (has_sub_disp_spread (with_spread v sp));
    [|apply BBox2f_subset_refl].
  unfold spread_range, seed_range.
  change (seed_bbox_of (with_spread v sp) bbox) with (seed_bbox_of v bbox).
  change (lowres_hom_of ts (with_spread v sp) bbox)
    with (lowres_hom_of ts v bbox).
  cbn [m_sub_disp m_sub_disp_spread with_spread].
  destruct (use_local_homography s); cbn [negb].
  - destruct (Hh eq_refl) as [Ha Hc].
    apply transformed_union_superset; assumption.
  - destruct (get_disparity_range_nonneg _ (Hn eq_refl)) as [P1 P2].
    apply widen_by_max_superset; try assumption.
    apply get_disparity_range_float.
Qed.

Lemma pixels_ext {A} (a b : ImageView A) :
  cols a = cols b -> rows a = rows b ->
  (forall x y, 0 <= x < cols a -> 0 <= y < rows a -> px a x y = px b x y) ->
  pixels a = pixels b.
Proof.
  intros Hc Hr H. unfold pixels. rewrite <- Hc, <- Hr.
  rewrite !flat_map_concat_map. f_equal.
  apply map_ext_in. intros y Hy. apply in_zrange in Hy.
  apply map_ext_in. intros x Hx. apply in_zrange in Hx.
  apply H; assumption.
Qed.

Lemma get_disparity_range_ext (a b : DispSeedImageType) :
  cols a = cols b -> rows a = rows b ->
  (forall x y, 0 <= x < cols a -> 0 <= y < rows a -> px a x y = px b x y) ->
  get_disparity_range a = get_disparity_range b.
Proof.
  intros Hc Hr H. unfold get_disparity_range.
  rewrite (pixels_ext a b Hc Hr H). reflexivity.
Qed.

Lemma Qmin'_glb (a b c : Q) :
  (c <= a)%Q -> (c <= b)%Q -> (c <= BBox2f.Qmin' a b)%Q.
Proof. unfold BBox2f.Qmin'. destruct (Qlt_bool b a); auto. Qed.

Lemma Qmax'_lub (a b c : Q) :
  (a <= c)%Q -> (b <= c)%Q -> (BBox2f.Qmax' a b <= c)%Q.
Proof. unfold BBox2f.Qmax'. destruct (Qlt_bool a b); auto. Qed.

Lemma grow_self_subset (r : BBox2f.t) :
  normalized r -> BBox2f.subset (BBox2f.grow r r) r.
Proof.
  intros [N1 N2].
  unfold BBox2f.subset, BBox2f.grow, BBox2f.grow_point.
  cbn [fst snd BBox2f.min BBox2f.max].
  repeat split;
    repeat first [apply Qmin'_glb | apply Qmax'_lub]; lra.
Qed.

(** The range of a field that is zero wherever it is valid has a zero
    max corner. *)
Lemma get_disparity_range_zero_field (img : DispSeedImageType) :
  (forall x y v, px img x y = Some v -> v = (0, 0)) ->
  (fst (BBox2f.max (get_disparity_range img)) == 0 /\
   snd (BBox2f.max (get_disparity_range img)) == 0)%Q.
Proof.
  intros Hz.
  destruct (get_disparity_range_cases img)
    as [[_ E]|(lo & hi & E & _ & _ & _ & (a & Ha & Ea) & (b & Hb & Eb))];
    rewrite E.
  - split; reflexivity.
  - apply in_pixels in Ha as (x & y & _ & _ & Ha).
    apply in_pixels in Hb as (x' & y' & _ & _ & Hb).
    symmetry in Ha, Hb. apply Hz in Ha, Hb. subst a b.
    unfold to_Vector2f. cbn [fst snd BBox2f.min BBox2f.max] in *.
    rewrite Ea, Eb. split; reflexivity.
Qed.

(** A spread field that is zero everywhere does not widen. *)
Lemma zero_spread_unrounded_subset (s : StereoSettings) (ts : Z)
    (v : SeededCorrelatorView) (bbox : BBox2i.t) :
  BBox2f.subset (unrounded_range s ts (zero_spread v) bbox)
                (seed_range s ts v bbox).
Proof.
  unfold unrounded_range.
  change (seed_range s ts (zero_spread v) bbox)
    with (seed_range s ts v bbox).
  destruct (has_sub_disp_spread (zero_spread v));
    [|apply BBox2f_subset_refl].
  unfold spread_range, seed_range.
  change (seed_bbox_of (zero_spread v) bbox) with (seed_bbox_of v bbox).
  change (lowres_hom_of ts (zero_spread v) bbox)
    with (lowres_hom_of ts v bbox).
  cbn [m_sub_disp m_sub_disp_spread zero_spread with_spread].
  destruct (use_local_homography s); cbn [negb].
  - rewrite (get_disparity_range_ext
               (transform_disparities do_round (seed_bbox_of v bbox)
                  (lowres_hom_of ts v bbox)
                  (image_zip pixel_add
                     (crop (m_sub_disp v) (seed_bbox_of v bbox)) _))
               (transform_disparities do_round (seed_bbox_of v bbox)
                  (lowres_hom_of ts v bbox)
                  (crop (m_sub_disp v) (seed_bbox_of v bbox))));
      [|reflexivity|reflexivity|].
    + rewrite (get_disparity_range_ext
                 (transform_disparities do_round (seed_bbox_of v bbox)
                    (lowres_hom_of ts v bbox)
                    (image_zip pixel_sub
                       (crop (m_sub_disp v) (seed_bbox_of v bbox)) _))
                 (transform_disparities do_round (seed_bbox_of v bbox)
                    (lowres_hom_of ts v bbox)
                    (crop (m_sub_disp v) (seed_bbox_of v bbox))));
        [|reflexivity|reflexivity|].
      * apply grow_self_subset, get_disparity_range_normalized.
      * intros x y _ _. unfold do_round.
        rewrite !transform_disparities_px. cbn [px image_zip crop].
        destruct (px (m_sub_disp v) _ _) as [[d1 d2]|]; [|reflexivity].
        cbn [pixel_sub]. rewrite !Z.sub_0_r. reflexivity.
    + intros x y _ _. unfold do_round.
      rewrite !transform_disparities_px. cbn [px image_zip crop].
      destruct (px (m_sub_disp v) _ _) as [[d1 d2]|]; [|reflexivity].
      cbn [pixel_add]. rewrite !Z.add_0_r. reflexivity.
  - destruct (get_disparity_range_zero_field
                (crop (mkImage (cols (m_sub_disp v)) (rows (m_sub_disp v))
                               (fun _ _ => Some (0, 0)))
                      (seed_bbox_of v bbox))) as [Z1 Z2].
    { intros x y w Hw. cbn [px crop] in Hw. injection Hw as <-. reflexivity. }
    destruct (get_disparity_range_float
                (crop (m_sub_disp v) (seed_bbox_of v bbox)))
      as (F1 & F2 & F3 & F4).
    unfold BBox2f.subset, BBox2f.max_add, BBox2f.min_sub, fsub, fadd.
    cbn [fst snd BBox2f.min BBox2f.max].
    set (r := get_disparity_range (crop (m_sub_disp v) (seed_bbox_of v bbox)))
      in *.
    set (z := BBox2f.max (get_disparity_range _)) in *.
    rewrite (float32_comp (fst (BBox2f.min r) - fst z) (fst (BBox2f.min r)))
      by (rewrite Z1; ring).
    rewrite (float32_comp (snd (BBox2f.min r) - snd z) (snd (BBox2f.min r)))
      by (rewrite Z2; ring).
    rewrite (float32_comp (fst (BBox2f.max r) + fst z) (fst (BBox2f.max r)))
      by (rewrite Z1; ring).
    rewrite (float32_comp (snd (BBox2f.max r) + snd z) (snd (BBox2f.max r)))
      by (rewrite Z2; ring).
    rewrite F1, F2, F3, F4. repeat split; apply Qle_refl.
Qed.

(** Three inputs at which the range with spread does not hold the range
    without spread. Without homography, a spread of (-3,-3) turns the seed
    range [1,1] inside out. *)
Lemma negative_spread_shrinks :
  let v := sample_view (const_image 2 2 (Some (1, 1))) no_image
                       (BBox2i.xywh 0 0 16 16) in
  let sp := const_image 2 2 (Some (-3, -3)) in
  local_search_range (sample_settings 1 false) 1024 (with_spread v sp)
                     sample_tile = inr (BBox2i.mk (24, 24) (0, 0)) /\
  local_search_range (sample_settings 1 false) 1024 (without_spread v)
                     sample_tile = inr (BBox2i.mk (0, 0) (24, 24)) /\
  ~ BBox2i.subset (BBox2i.mk (0, 0) (24, 24)) (BBox2i.mk (24, 24) (0, 0)).
Proof.
  split; [vm_compute; reflexivity|]. split; [vm_compute; reflexivity|].
  unfold BBox2i.subset. simpl. lia.
Qed.

(** With the identity homography, a spread that is invalid at a valid seed
    cell drops that cell from both transformed fields. The spread is
    (1, 1) where it is valid and has the size of the seed. *)
Lemma uncovered_seed_cell_shrinks :
  let v := sample_view two_cell_seed no_image (BBox2i.xywh 0 0 16 16) in
  reads_inside (with_spread v one_cell_spread) /\
  nonneg_field one_cell_spread /\
  local_search_range (sample_settings 1 true) 1024
                     (with_spread v one_cell_spread) sample_tile =
    inr (BBox2i.mk (-16, -16) (24, 24)) /\
  local_search_range (sample_settings 1 true) 1024 (without_spread v)
                     sample_tile = inr (BBox2i.mk (-8, -8) (96, 96)) /\
  ~ BBox2i.subset (BBox2i.mk (-8, -8) (96, 96))
                  (BBox2i.mk (-16, -16) (24, 24)).
Proof.
  split; [|split; [|split; [|split]]].
  - split; [reflexivity|]. intros _. cbn. lia.
  - intros x y w _ _ Hw. cbn in Hw.
    destruct ((x =? 0) && (y =? 0)); [|discriminate Hw].
    injection Hw as <-. simpl. lia.
  - vm_compute. reflexivity.
  - vm_compute. reflexivity.
  - unfold BBox2i.subset. simpl. lia.
Qed.

(** With a projective homography whose pole lies between seed - spread and
    seed + spread, the transformed seed is outside the two transformed
    ends. *)
Lemma projective_homography_shrinks :
  local_search_range (sample_settings 1 true) 1024
                     (with_spread projective_view single_spread)
                     sample_tile = inr (BBox2i.mk (-152, -8) (24, 16)) /\
  local_search_range (sample_settings 1 true) 1024
                     (without_spread projective_view) sample_tile =
    inr (BBox2i.mk (152, -8) (176, 16)) /\
  ~ BBox2i.subset (BBox2i.mk (152, -8) (176, 16))
                  (BBox2i.mk (-152, -8) (24, 16)).
Proof.
  split; [vm_compute; reflexivity|]. split; [vm_compute; reflexivity|].
  unfold BBox2i.subset. simpl. lia.
Qed.

(** C5, as stated, fails: it is not the case that, for every seed, every
    spread field without negative component that covers the seed, and every
    tile, the refined range with the spread holds the refined range without
    it. In the homography path a spread that is invalid at a valid seed
    cell drops the cell ([uncovered_seed_cell_shrinks]). *)
Lemma spread_widening_refuted :
  ~ (forall (s : StereoSettings) (ts : Z) (v : SeededCorrelatorView)
            (sp : DispSeedImageType) (bbox r r0 : BBox2i.t),
       reads_inside (with_spread v sp) -> nonneg_field sp ->
       local_search_range s ts (with_spread v sp) bbox = inr r ->
       local_search_range s ts (without_spread v) bbox = inr r0 ->
       BBox2i.subset r0 r).
Proof.
  intros H.
  destruct uncovered_seed_cell_shrinks as (R & P & E1 & E0 & N).
  apply N. exact (H _ _ _ _ _ _ _ R P E1 E0).
Qed.

(** C5, amended. As long as no corner leaves the range of [int] (upscale
    factors between 0 and [2 ^ e], range before rounding within [-M, M]
    with [M + 2] at most [2 ^ j], [j + e] at most 29) and the crops lie
    inside the seed and the spread, the refined range with a spread field
    holds the refined range of the same seed without spread field, and the
    one with a spread field that is zero everywhere: in the
    homography-free path when the spread has no negative component in the
    tile's sub-region, and in the homography path when the spread is valid
    wherever the seed is in the sub-region and the tile's homography has
    no pole between the end points of seed + spread and seed - spread. *)
Theorem spread_widens_search_range (s : StereoSettings) (ts : Z)
    (v : SeededCorrelatorView) (sp : DispSeedImageType) (bbox r : BBox2i.t)
    (M j e : Z) :
  reads_inside (with_spread v sp) ->
  (0 <= fst (m_upscale_factor v) <= inject_Z (2 ^ e))%Q ->
  (0 <= snd (m_upscale_factor v) <= inject_Z (2 ^ e))%Q ->
  0 <= j -> 0 <= e -> j + e <= 29 -> M + 2 <= 2 ^ j ->
  within M (unrounded_range s ts (with_spread v sp) bbox) ->
  (use_local_homography s = false ->
   nonneg_field (crop sp (seed_bbox_of v bbox))) ->
  (use_local_homography s = true ->
   no_pole (seed_bbox_of v bbox) (lowres_hom_of ts v bbox)
           (crop (m_sub_disp v) (seed_bbox_of v bbox))
           (crop sp (seed_bbox_of v bbox)) /\
   covers (crop sp (seed_bbox_of v bbox))
          (crop (m_sub_disp v) (seed_bbox_of v bbox))) ->
  local_search_range s ts (with_spread v sp) bbox = inr r ->
  exists r0 rz,
    local_search_range s ts (without_spread v) bbox = inr r0 /\
    local_search_range s ts (zero_spread v) bbox = inr rz /\
    BBox2i.subset r0 r /\ BBox2i.subset rz r.
Proof.
  intros _ Hx Hy Hj He Hje HM Hw Hn Hh Hr.
  pose proof (unrounded_range_superset s ts v sp bbox Hn Hh) as S1.
  pose proof (zero_spread_unrounded_subset s ts v bbox) as S2.
  destruct (Z.ltb_spec 0 (seed_mode s)) as [Hm|Hm].
  - assert (C0 : spread_size_check_fails (without_spread v) = false)
      by reflexivity.
    assert (Cz : spread_size_check_fails (zero_spread v) = false).
    { unfold spread_size_check_fails.
      cbn [m_sub_disp m_sub_disp_spread zero_spread with_spread cols rows].
      rewrite !Z.eqb_refl. cbn [negb]. rewrite andb_false_r. reflexivity. }
    apply local_search_range_seeded in Hr as [_ Hr]; [|exact Hm].
    rewrite (local_search_range_seeded_eq s ts _ bbox Hm C0),
      (local_search_range_seeded_eq s ts _ bbox Hm Cz).
    eexists. eexists. split; [reflexivity|]. split; [reflexivity|].
    subst r.
    change (m_upscale_factor (with_spread v sp)) with (m_upscale_factor v).
    change (m_upscale_factor (without_spread v)) with (m_upscale_factor v).
    change (m_upscale_factor (zero_spread v)) with (m_upscale_factor v).
    change (unrounded_range s ts (without_spread v) bbox)
      with (seed_range s ts v bbox).
    split; apply (round_expand_scale_mono _ _ _ M j e); try assumption.
    + unfold seed_range. destruct (negb (use_local_homography s));
        apply get_disparity_range_normalized.
    + apply unrounded_range_normalized.
      intros _ _ x y w _ _ Hw0. cbn [px crop zero_spread with_spread
        m_sub_disp_spread] in Hw0. injection Hw0 as <-. simpl. lia.
    + eapply BBox2f_subset_trans; eassumption.
  - unfold local_search_range, local_search_range_f in *.
    destruct (Z.ltb_spec 0 (seed_mode s)) as [C|_]; [lia|].
    change (search_range s) with (search_range s) in Hr.
    injection Hr as <-. eexists. eexists.
    split; [reflexivity|]. split; [reflexivity|].
    split; apply BBox2i_subset_refl.
Qed.

Lemma spread_widens_search_range_witness :
  (exists r0 rz,
     local_search_range (sample_settings 1 false) 1024
       (without_spread (sample_view (const_image 2 2 (Some (1, 1))) no_image
                                    (BBox2i.xywh 0 0 16 16)))
       sample_tile = inr r0 /\
     local_search_range (sample_settings 1 false) 1024
       (zero_spread (sample_view (const_image 2 2 (Some (1, 1))) no_image
                                 (BBox2i.xywh 0 0 16 16)))
       sample_tile = inr rz /\
     BBox2i.subset r0 (BBox2i.mk (-16, -16) (40, 40)) /\
     BBox2i.subset rz (BBox2i.mk (-16, -16) (40, 40))) /\
  (exists r0 rz,
     local_search_range (sample_settings 1 true) 1024
       (without_spread (sample_view two_cell_seed no_image
                                    (BBox2i.xywh 0 0 16 16)))
       sample_tile = inr r0 /\
     local_search_range (sample_settings 1 true) 1024
       (zero_spread (sample_view two_cell_seed no_image
                                 (BBox2i.xywh 0 0 16 16)))
       sample_tile = inr rz /\
     BBox2i.subset r0 (BBox2i.mk (-16, -16) (104, 104)) /\
     BBox2i.subset rz (BBox2i.mk (-16, -16) (104, 104))).
Proof.
  split.
  - apply (spread_widens_search_range
             (sample_settings 1 false) 1024
             (sample_view (const_image 2 2 (Some (1, 1))) no_image
                          (BBox2i.xywh 0 0 16 16))
             (const_image 2 2 (Some (2, 2))) sample_tile _ 3 3 3).
    + split; [reflexivity|]. intros _. cbn. lia.
    + vm_compute. split; discriminate.
    + vm_compute. split; discriminate.
    + lia.
    + lia.
    + lia.
    + lia.
    + vm_compute. repeat split; discriminate.
    + intros _ x y w _ _ Hw. cbn in Hw. injection Hw as <-. simpl. lia.
    + intros Hf. discriminate Hf.
    + vm_compute. reflexivity.
  - apply (spread_widens_search_range
             (sample_settings 1 true) 1024
             (sample_view two_cell_seed no_image (BBox2i.xywh 0 0 16 16))
             (const_image 2 2 (Some (1, 1))) sample_tile _ 11 4 3).
    + split; [reflexivity|]. intros _. cbn. lia.
    + vm_compute. split; discriminate.
    + vm_compute. split; discriminate.
    + lia.
    + lia.
    + lia.
    + lia.
    + vm_compute. repeat split; discriminate.
    + intros Hf. discriminate Hf.
    + intros _. split.
      * intros x y d e _ _ _ _. cbv zeta.
        unfold denominator, mat_apply. cbn.
        match goal with
        | |- (0 < ?a * ?b)%Q =>
            assert (E : (a * b == 1)%Q) by ring; rewrite E; reflexivity
        end.
      * intros x y d _ _ _. exists (1, 1). reflexivity.
    + vm_compute. reflexivity.
Defined.

(** * Further properties of the code *)

(** ** The dispatcher inside the crop window *)

(** X1. For a tile that intersects the crop window, [prerasterize] calls
    the engine once and returns the engine's field in which exactly the
    cells of the tile outside the window are invalid: every other cell, in
    particular every cell inside the window, is the engine's. *)
Theorem prerasterize_keeps_engine_cells
    (engine : EngineCall -> CropView) (s : StereoSettings) (ts : Z)
    (v : SeededCorrelatorView) (bbox r : BBox2i.t) (log : list EngineCall) :
  BBox2i.empty (BBox2i.crop bbox (m_trans_crop_win v)) = false ->
  local_search_range s ts v bbox = inr r ->
  let call := mkCall (use_local_homography s) r bbox in
  exists d,
    prerasterize engine s ts v bbox log = (inr d, log ++ [call]) /\
    forall col row,
      cv_get d col row =
      if BBox2i.contains bbox (col, row) &&
         negb (BBox2i.contains (m_trans_crop_win v) (col, row))
      then None else cv_get (engine call) col row.
Proof.
  intros He Hr call. unfold prerasterize, prerasterize_helper.
  rewrite He, Hr. eexists. split; [reflexivity|].
  intros col row. apply mask_outside_get.
Qed.

Lemma prerasterize_keeps_engine_cells_witness :
  exists d,
    prerasterize sample_engine (sample_settings 1 false) 1024
      (sample_view (const_image 2 2 (Some (1, 1))) no_image
                   (BBox2i.xywh 0 0 8 8))
      sample_tile [] =
      (inr d, [mkCall false (BBox2i.mk (0, 0) (24, 24)) sample_tile]) /\
    cv_get d 3 3 = Some (1, 1) /\ cv_get d 12 3 = None.
Proof.
  destruct (prerasterize_keeps_engine_cells
              sample_engine (sample_settings 1 false) 1024
              (sample_view (const_image 2 2 (Some (1, 1))) no_image
                           (BBox2i.xywh 0 0 8 8))
              sample_tile (BBox2i.mk (0, 0) (24, 24)) []
              eq_refl eq_refl) as (d & Hd & Hc).
  exists d. split; [exact Hd|].
  split; rewrite Hc; reflexivity.
Defined.

(** ** The seed sub-region of a tile *)

(** X2. The sub-region of the seed that a tile reads never leaves the seed
    field: when [m_seed_bbox] is the extent of the seed, as the constructor
    sets it, every pixel of the cropped seed is a pixel of the seed, for
    every tile, inside the image or not. *)
Theorem seed_crop_reads_inside_seed (v : SeededCorrelatorView)
    (bbox : BBox2i.t) (x y : Z) :
  m_seed_bbox v = bounding_box (m_sub_disp v) ->
  let sb := seed_bbox_of v bbox in
  0 <= x < cols (crop (m_sub_disp v) sb) ->
  0 <= y < rows (crop (m_sub_disp v) sb) ->
  0 <= x + fst (BBox2i.min sb) < cols (m_sub_disp v) /\
  0 <= y + snd (BBox2i.min sb) < rows (m_sub_disp v).
Proof.
  intros Hs sb. subst sb. unfold seed_bbox_of. rewrite Hs.
  unfold crop, bounding_box, BBox2i.crop, BBox2i.xywh, BBox2i.width,
    BBox2i.height.
  cbn [cols rows fst snd BBox2i.min BBox2i.max].
  repeat match goal with
         | |- context [?a <? ?b] => destruct (Z.ltb_spec a b)
         end; lia.
Qed.

Lemma seed_crop_reads_inside_seed_witness :
  0 <= 1 + fst (BBox2i.min
                  (seed_bbox_of (sample_view (const_image 2 2 None) no_image
                                             unset_win)
                                (BBox2i.xywh (-40) 8 100 100))) < 2.
Proof.
  apply (seed_crop_reads_inside_seed
           (sample_view (const_image 2 2 None) no_image unset_win)
           (BBox2i.xywh (-40) 8 100 100) 1 0 eq_refl).
  - vm_compute. split; [discriminate|reflexivity].
  - vm_compute. split; [discriminate|reflexivity].
Defined.

Lemma Qdiv_le_mono (a b u : Q) : (0 < u)%Q -> (a <= b)%Q -> (a / u <= b / u)%Q.
Proof.
  intros Hu H. unfold Qdiv. apply Qmult_le_compat_r; [exact H|].
  apply Qinv_le_0_compat. lra.
Qed.

Lemma Qfloor_nonneg (q : Q) : (0 <= q)%Q -> 0 <= Qfloor q.
Proof.
  intros H. change 0 with (Qfloor 0). apply Qfloor_resp_le. exact H.
Qed.

Lemma Qfloor_lt_int (q : Q) (n : Z) : (q < inject_Z n)%Q -> Qfloor q < n.
Proof.
  intros H. rewrite Zlt_Qlt. eapply Qle_lt_trans; [apply Qfloor_le|exact H].
Qed.

(** The measured upscale factor of an axis is positive. *)
Lemma ddiv_sizes_pos (n m : Z) :
  0 < n < 2 ^ 31 -> 0 < m < 2 ^ 31 ->
  (0 < ddiv (inject_Z n) (inject_Z m))%Q.
Proof.
  intros Hn Hm. destruct (ratio_bounds n m Hn Hm) as [R _].
  destruct (double_near _ R) as [N _]. unfold ddiv.
  pose proof (pow2_pos (-1000)) as P. rewrite eps_val in N.
  set (r := (inject_Z n / inject_Z m)%Q) in *.
  set (d := double r) in *. set (t := pow2 (-1000)) in *.
  clearbody d r t. lra.
Qed.

(** A tile corner [a] of the image axis [0..L], divided by the measured
    upscale factor: the [double] quotient is not negative, and differs
    from the exact [a * c / L] by at most four unit roundoffs of it. *)
Lemma corner_quotient (L c a : Z) :
  0 < L < 2 ^ 31 -> 0 < c < 2 ^ 30 -> 0 <= a <= L ->
  let y := ddiv (inject_Z a) (ddiv (inject_Z L) (inject_Z c)) in
  let x := (inject_Z (a * c) / inject_Z L)%Q in
  (0 <= y /\ Qabs (y - x) <= x * (4 * eps) /\
   0 <= x <= inject_Z c)%Q /\
  int32_of_double y = Qfloor y /\ 0 <= Qfloor y <= c.
Proof.
  intros HL Hc Ha y x.
  assert (Hc' : 0 < c < 2 ^ 31) by lia.
  pose proof (inject_Z_pos L (proj1 HL)) as PL.
  pose proof (ddiv_sizes_pos L c HL Hc') as Pu.
  assert (Y0 : (0 <= y)%Q).
  { unfold y, ddiv at 1. apply round_to_nonneg.
    apply Qle_shift_div_l; [exact Pu|].
    rewrite Qmult_0_l. rewrite <- (Zle_Qle 0). lia. }
  pose proof (ddiv_ratio_error a L c HL Hc') as E. cbv zeta in E.
  fold y in E. fold x in E. rewrite (Z.abs_eq a) in E by lia.
  assert (Ee : (inject_Z (a * c) / inject_Z (2 ^ 51) * (1 / inject_Z L) ==
                x * (4 * eps))%Q)
    by (rewrite eps_val; unfold x;
        change (inject_Z (2 ^ 51)) with 2251799813685248%Q; field; lra).
  rewrite Ee in E.
  assert (X0 : (0 <= x)%Q).
  { unfold x. apply Qle_shift_div_l; [exact PL|].
    rewrite Qmult_0_l. rewrite <- (Zle_Qle 0). nia. }
  assert (X1 : (x <= inject_Z c)%Q).
  { unfold x. apply Qle_shift_div_r; [exact PL|].
    rewrite <- inject_Z_mult, <- Zle_Qle. nia. }
  assert (C : (inject_Z c <= 1073741824)%Q).
  { change 1073741824%Q with (inject_Z 1073741824).
    rewrite <- Zle_Qle. lia. }
  assert (Y1 : (y < inject_Z (c + 1))%Q).
  { rewrite inject_Z_plus. apply Qabs_Qle_condition in E.
    rewrite eps_val in E.
    change (inject_Z 1) with 1%Q. clearbody x y. lra. }
  pose proof (Qfloor_nonneg y Y0) as F0.
  pose proof (Qfloor_lt_int y (c + 1) Y1) as F1.
  split; [split; [exact Y0|split; [exact E|split; assumption]]|].
  split; [|lia].
  unfold int32_of_double. rewrite (Qtrunc_nonneg_floor y Y0).
  apply to_int32_id. lia.
Qed.

(** One axis of the coverage: the seed cell under a pixel [p] of the tile
    [lo, hi) lies in the clipped, grown low-resolution interval. *)
Lemma seed_axis_covers (L c lo hi p : Z) :
  0 < L < 2 ^ 31 -> 0 < c < 2 ^ 30 -> 0 <= lo -> hi <= L -> lo <= p < hi ->
  let u := ddiv (inject_Z L) (inject_Z c) in
  let a := int32_of_double (ddiv (inject_Z lo) u) - 1 in
  let b := int32_of_double (ddiv (inject_Z hi) u) + 1 in
  (if a <? 0 then 0 else a) <= Qfloor (inject_Z (p * c) / inject_Z L) /\
  Qfloor (inject_Z (p * c) / inject_Z L) < (if c <? b then c else b).
Proof.
  intros HL Hc Hlo Hhi Hp u a b.
  pose proof (inject_Z_pos L (proj1 HL)) as PL.
  destruct (corner_quotient L c lo HL Hc ltac:(lia))
    as ((Yl & El & Xl0 & Xl1) & Il & Fl).
  destruct (corner_quotient L c hi HL Hc ltac:(lia))
    as ((Yh & Eh & Xh0 & Xh1) & Ih & Fh).
  cbv zeta in *. fold u in Yl, El, Il, Fl, Yh, Eh, Ih, Fh.
  subst a b. rewrite Il, Ih.
  set (yl := ddiv (inject_Z lo) u) in *.
  set (yh := ddiv (inject_Z hi) u) in *.
  set (xl := (inject_Z (lo * c) / inject_Z L)%Q) in *.
  set (xh := (inject_Z (hi * c) / inject_Z L)%Q) in *.
  set (xp := (inject_Z (p * c) / inject_Z L)%Q).
  assert (C : (inject_Z c <= 1073741824)%Q).
  { change 1073741824%Q with (inject_Z 1073741824).
    rewrite <- Zle_Qle. lia. }
  assert (P0 : (0 <= xp)%Q).
  { unfold xp. apply Qle_shift_div_l; [exact PL|].
    rewrite Qmult_0_l. rewrite <- (Zle_Qle 0). nia. }
  assert (P1 : (xp < inject_Z c)%Q).
  { unfold xp. apply Qlt_shift_div_r; [exact PL|].
    rewrite <- inject_Z_mult, <- Zlt_Qlt. nia. }
  assert (P2 : (xl <= xp)%Q).
  { unfold xl, xp. apply Qdiv_le_mono; [exact PL|].
    rewrite <- Zle_Qle. nia. }
  assert (P3 : (xp + inject_Z c / inject_Z L <= xh)%Q).
  { assert (E : (xp + inject_Z c / inject_Z L ==
                 inject_Z ((p + 1) * c) / inject_Z L)%Q).
    { unfold xp. replace ((p + 1) * c) with (p * c + c) by ring.
      rewrite inject_Z_plus. field. lra. }
    rewrite E. unfold xh. apply Qdiv_le_mono; [exact PL|].
    rewrite <- Zle_Qle. nia. }
  assert (P4 : (xh * (4 * eps) <= inject_Z c / inject_Z L)%Q).
  { assert (E : (xh * (4 * eps) ==
                 inject_Z (hi * c) * (4 * eps) / inject_Z L)%Q)
      by (unfold xh; field; lra).
    rewrite E. apply Qdiv_le_mono; [exact PL|].
    assert (B : (inject_Z (hi * c) <= inject_Z c * inject_Z (2 ^ 51))%Q)
      by (rewrite <- inject_Z_mult, <- Zle_Qle; nia).
    change (inject_Z (2 ^ 51)) with (2251799813685248 # 1)%Q in B.
    rewrite eps_val.
    set (A := inject_Z (hi * c)) in *. clearbody A. lra. }
  pose proof (Qfloor_nonneg xp P0) as G0.
  pose proof (Qfloor_lt_int xp c P1) as G1.
  assert (G2 : Qfloor yl <= Qfloor xp + 1).
  { assert (T : (yl < inject_Z (Qfloor xp + 2))%Q).
    { rewrite inject_Z_plus. apply Qabs_Qle_condition in El.
      pose proof (Qlt_floor xp) as Q1. rewrite inject_Z_plus in Q1.
      rewrite eps_val in El.
      change (inject_Z 1) with 1%Q in Q1. change (inject_Z 2) with 2%Q.
      set (fp := inject_Z (Qfloor xp)) in *.
      clearbody fp xl xp yl. lra. }
    apply Qfloor_lt_int in T. lia. }
  assert (G3 : Qfloor xp <= Qfloor yh).
  { apply Qfloor_resp_le. apply Qabs_Qle_condition in Eh.
    set (cl := (inject_Z c / inject_Z L)%Q) in *.
    set (e := (xh * (4 * eps))%Q) in *.
    clearbody cl e xh xp yh. lra. }
  destruct (Z.ltb_spec (Qfloor yl - 1) 0);
    destruct (Z.ltb_spec c (Qfloor yh + 1)); lia.
Qed.

(** X3. The sub-region covers the tile: for a view built by the
    constructor from an image and a seed of positive sizes, below
    [2 ^ 31] and [2 ^ 30], every pixel of a tile of the image has its seed
    cell, the pixel times the ratio of the sizes, floored, inside the
    sub-region the tile reads. The margin of one seed pixel absorbs the
    truncation of the corners and the rounding of the two [double]
    quotients. *)
Theorem seed_bbox_covers_tile (left_cols left_rows : Z)
    (sub_disp sub_disp_spread : DispSeedImageType)
    (local_hom : ImageView Matrix3x3) (crop_win bbox : BBox2i.t)
    (p q : Z) :
  0 < left_cols < 2 ^ 31 -> 0 < left_rows < 2 ^ 31 ->
  0 < cols sub_disp < 2 ^ 30 -> 0 < rows sub_disp < 2 ^ 30 ->
  BBox2i.subset bbox (BBox2i.xywh 0 0 left_cols left_rows) ->
  BBox2i.contains bbox (p, q) = true ->
  let v := make_SeededCorrelatorView left_cols left_rows sub_disp
             sub_disp_spread local_hom crop_win in
  BBox2i.contains (seed_bbox_of v bbox)
    (Qfloor (inject_Z (p * cols sub_disp) / inject_Z left_cols),
     Qfloor (inject_Z (q * rows sub_disp) / inject_Z left_rows)) = true.
Proof.
  intros HL HR Hc Hr Hsub Hin v.
  unfold BBox2i.contains in Hin. cbn [fst snd] in Hin.
  rewrite !andb_true_iff, !Z.leb_le, !Z.ltb_lt in Hin.
  destruct Hin as [[[I1 I2] I3] I4].
  unfold BBox2i.subset, BBox2i.xywh in Hsub.
  cbn [fst snd BBox2i.min BBox2i.max] in Hsub.
  destruct Hsub as (S1 & S2 & S3 & S4).
  destruct (seed_axis_covers left_cols (cols sub_disp)
              (fst (BBox2i.min bbox)) (fst (BBox2i.max bbox)) p
              HL Hc S1 ltac:(lia) (conj I1 I2)) as [A1 A2].
  destruct (seed_axis_covers left_rows (rows sub_disp)
              (snd (BBox2i.min bbox)) (snd (BBox2i.max bbox)) q
              HR Hr S2 ltac:(lia) (conj I3 I4)) as [B1 B2].
  subst v.
  unfold seed_bbox_of, make_SeededCorrelatorView, bounding_box, BBox2i.crop,
    BBox2i.expand, BBox2i.xywh, BBox2i.contains, elem_quot, to_Vector2,
    to_Vector2i.
  cbn [fst snd BBox2i.min BBox2i.max m_upscale_factor m_seed_bbox Z.add].
  rewrite !andb_true_iff, !Z.leb_le, !Z.ltb_lt. auto.
Qed.

Lemma seed_bbox_covers_tile_witness :
  BBox2i.contains
    (seed_bbox_of (make_SeededCorrelatorView 18 1 (const_image 14 1 None)
                     no_image identity_hom unset_win)
                  (BBox2i.xywh 0 0 9 1))
    (Qfloor (inject_Z (8 * 14) / inject_Z 18),
     Qfloor (inject_Z (0 * 1) / inject_Z 1)) = true.
Proof.
  apply (seed_bbox_covers_tile 18 1 (const_image 14 1 None) no_image
                               identity_hom unset_win (BBox2i.xywh 0 0 9 1)
                               8 0);
    first [reflexivity | (cbn; lia) | (vm_compute; repeat split; discriminate)].
Defined.

(** ** The refined range and the seed *)

(** An integer whose [float] lies within [-M, M], [M] below [2 ^ 24], lies
    within [-M, M] itself. *)
Lemma float32_int_within (d M : Z) :
  0 <= M -> M + 1 <= 2 ^ 24 ->
  (- inject_Z M <= float32 (inject_Z d) <= inject_Z M)%Q -> - M <= d <= M.
Proof.
  intros HM HB [H1 H2]. split.
  - destruct (Z.le_gt_cases (- M) d) as [|C]; [assumption|exfalso].
    assert (E : (float32 (inject_Z d) <= float32 (inject_Z (- M - 1)))%Q)
      by (apply float32_mono; rewrite <- Zle_Qle; lia).
    rewrite (float32_Z (- M - 1)) in E by lia.
    rewrite <- inject_Z_opp in H1.
    pose proof (Qle_trans _ _ _ H1 E) as T. rewrite <- Zle_Qle in T. lia.
  - destruct (Z.le_gt_cases d M) as [|C]; [assumption|exfalso].
    assert (E : (float32 (inject_Z (M + 1)) <= float32 (inject_Z d))%Q)
      by (apply float32_mono; rewrite <- Zle_Qle; lia).
    rewrite (float32_Z (M + 1)) in E by lia.
    pose proof (Qle_trans _ _ _ E H2) as T. rewrite <- Zle_Qle in T. lia.
Qed.

(** The rounded product of an integer of moderate size and a positive
    factor is within a quarter of the factor of the exact product. *)
Lemma dmul_int_quarter (a : Z) (u : Q) :
  Z.abs a <= 2 ^ 26 -> (DBL_MIN <= u)%Q ->
  (inject_Z a * u - u * (1 # 4) <= dmul (inject_Z a) u
     <= inject_Z a * u + u * (1 # 4))%Q.
Proof.
  intros Ha Hu. assert (Pm : (0 < DBL_MIN)%Q) by apply pow2_pos.
  pose proof (dmul_int_error a u Hu) as Ea.
  apply Qabs_Qle_condition in Ea.
  assert (Pu : (0 < u)%Q) by (set (m := DBL_MIN) in *; clearbody m; lra).
  assert (Xa : (inject_Z (Z.abs a) * u * eps <= u * (1 # 4))%Q).
  { assert (E : (inject_Z (Z.abs a) * u * eps ==
                 u * (inject_Z (Z.abs a) * eps))%Q) by ring.
    rewrite E. apply Qabs_le_mult; [lra|].
    apply Qle_trans with (inject_Z (2 ^ 26) * eps)%Q.
    - apply Qmult_le_compat_r; [rewrite <- Zle_Qle; exact Ha|].
      rewrite eps_val. discriminate.
    - rewrite eps_val. discriminate. }
  set (ya := dmul (inject_Z a) u) in *.
  set (xa := (inject_Z a * u)%Q) in *.
  set (ea := (inject_Z (Z.abs a) * u * eps)%Q) in *.
  clearbody ya xa ea. clear Hu Pm. lra.
Qed.

(** The rounded, expanded and scaled box holds the scaled interval of
    every integer point of the box it was made from. *)
Lemma round_expand_scale_holds (upscale : Vector2) (u : BBox2f.t)
    (d : Vector2i) (M U : Z) :
  within M u ->
  (DBL_MIN <= fst upscale <= inject_Z U)%Q ->
  (DBL_MIN <= snd upscale <= inject_Z U)%Q ->
  (M + 2) * U <= 2 ^ 24 ->
  (fst (BBox2f.min u) <= inject_Z (fst d) <= fst (BBox2f.max u) /\
   snd (BBox2f.min u) <= inject_Z (snd d) <= snd (BBox2f.max u))%Q ->
  let r := BBox2f.to_int
             (scale_to_fullres upscale
                (BBox2f.expand (BBox2f.of_int (grow_bbox_to_int u)) 1)) in
  (inject_Z (fst (BBox2i.min r)) <= inject_Z (fst d) * fst upscale /\
   (inject_Z (fst d) + 1) * fst upscale <= inject_Z (fst (BBox2i.max r)) /\
   inject_Z (snd (BBox2i.min r)) <= inject_Z (snd d) * snd upscale /\
   (inject_Z (snd d) + 1) * snd upscale <= inject_Z (snd (BBox2i.max r)))%Q.
Proof.
  intros Hw [Hx1 Hx2] [Hy1 Hy2] Hb [[H1 H2] [H3 H4]] r. subst r.
  assert (Pm : (0 < DBL_MIN)%Q) by apply pow2_pos.
  pose proof (within_nonneg _ _ Hw) as HM0.
  assert (HU : 1 <= U).
  { assert (0 < U); [|lia]. rewrite Zlt_Qlt.
    set (m := DBL_MIN) in *. clearbody m. change (inject_Z 0) with 0%Q. lra. }
  assert (HM : M + 2 <= 2 ^ 24) by nia.
  assert (Bx : (0 <= fst upscale <= inject_Z U)%Q)
    by (set (m := DBL_MIN) in *; clearbody m; split; lra).
  assert (By : (0 <= snd upscale <= inject_Z U)%Q)
    by (set (m := DBL_MIN) in *; clearbody m; split; lra).
  destruct (round_expand_scale_small upscale u M U Hw Bx By HU Hb) as [_ E].
  rewrite E. clear E.
  destruct Hw as (W1 & W2 & W3 & W4).
  pose proof (Qfloor_within _ _ W1) as F1.
  pose proof (Qfloor_within _ _ W2) as F2.
  pose proof (Qfloor_within _ _ W3) as F3.
  pose proof (Qfloor_within _ _ W4) as F4.
  assert (L1 : Qfloor (fst (BBox2f.min u)) <= fst d).
  { apply Qfloor_resp_le in H1. rewrite Qfloor_Z in H1. exact H1. }
  assert (L2 : fst d <= Qfloor (fst (BBox2f.max u))).
  { apply Qfloor_resp_le in H2. rewrite Qfloor_Z in H2. exact H2. }
  assert (L3 : Qfloor (snd (BBox2f.min u)) <= snd d).
  { apply Qfloor_resp_le in H3. rewrite Qfloor_Z in H3. exact H3. }
  assert (L4 : snd d <= Qfloor (snd (BBox2f.max u))).
  { apply Qfloor_resp_le in H4. rewrite Qfloor_Z in H4. exact H4. }
  cbn [fst snd BBox2i.min BBox2i.max].
  assert (Lo : forall (a e : Z) (f : Q),
            a <= e -> Z.abs (a - 1) <= 2 ^ 26 -> (DBL_MIN <= f)%Q ->
            (inject_Z (Qfloor (dmul (inject_Z (a - 1)) f))
             <= inject_Z e * f)%Q).
  { intros a e f Hae Ha Hf.
    eapply Qle_trans; [apply Qfloor_le|].
    destruct (dmul_int_quarter (a - 1) f Ha Hf) as [_ Q2].
    assert (X : (inject_Z (a - 1) * f + f <= inject_Z e * f)%Q).
    { assert (Ee : (inject_Z (a - 1) * f + f == (inject_Z (a - 1) + 1) * f)%Q)
        by ring.
      rewrite Ee. apply Qmult_le_compat_r.
      - change 1%Q with (inject_Z 1).
        rewrite <- inject_Z_plus, <- Zle_Qle. lia.
      - set (m := DBL_MIN) in *. clearbody m. lra. }
    set (ya := dmul (inject_Z (a - 1)) f) in *.
    set (xa := (inject_Z (a - 1) * f)%Q) in *.
    set (xe := (inject_Z e * f)%Q) in *.
    set (m := DBL_MIN) in *. clearbody ya xa xe m. lra. }
  assert (Hi : forall (b e : Z) (f : Q),
            e <= b -> Z.abs (b + 2) <= 2 ^ 26 -> (DBL_MIN <= f)%Q ->
            ((inject_Z e + 1) * f
             <= inject_Z (Qceiling (dmul (inject_Z (b + 2)) f)))%Q).
  { intros b e f Heb Ha Hf.
    eapply Qle_trans; [|apply Qle_ceiling].
    destruct (dmul_int_quarter (b + 2) f Ha Hf) as [Q1 _].
    assert (X : ((inject_Z e + 1) * f + f <= inject_Z (b + 2) * f)%Q).
    { assert (Ee : ((inject_Z e + 1) * f + f == (inject_Z e + 1 + 1) * f)%Q)
        by ring.
      rewrite Ee. apply Qmult_le_compat_r.
      - change 1%Q with (inject_Z 1).
        rewrite <- !inject_Z_plus, <- Zle_Qle. lia.
      - set (m := DBL_MIN) in *. clearbody m. lra. }
    set (ya := dmul (inject_Z (b + 2)) f) in *.
    set (xa := (inject_Z (b + 2) * f)%Q) in *.
    set (xe := ((inject_Z e + 1) * f)%Q) in *.
    set (m := DBL_MIN) in *. clearbody ya xa xe m. lra. }
  repeat split; first [apply Lo | apply Hi]; first [assumption | lia].
Qed.

(** X4. Without homography and in seed mode > 0, the range of a tile holds
    every valid seed disparity [d] of the tile's sub-region, scaled: it
    reaches from at most [d] to at least [d + 1] times the upscale factor
    on both axes ([max] is exclusive). The crops lie inside the seed and
    the spread, the upscale factors are positive normal [double] bounded
    by [U], the range before rounding lies within [-M, M] with
    [(M + 2) * U] at most [2 ^ 24], and a spread field, when there is one,
    has no negative component in the sub-region. *)
Theorem local_search_range_holds_seed (s : StereoSettings) (ts : Z)
    (v : SeededCorrelatorView) (bbox r : BBox2i.t) (x y : Z)
    (d : Vector2i) (M U : Z) :
  0 < seed_mode s ->
  use_local_homography s = false ->
  reads_inside v ->
  (DBL_MIN <= fst (m_upscale_factor v) <= inject_Z U)%Q ->
  (DBL_MIN <= snd (m_upscale_factor v) <= inject_Z U)%Q ->
  within M (unrounded_range s ts v bbox) ->
  (M + 2) * U <= 2 ^ 24 ->
  (has_sub_disp_spread v = true ->
   nonneg_field (crop (m_sub_disp_spread v) (seed_bbox_of v bbox))) ->
  local_search_range s ts v bbox = inr r ->
  let seed := crop (m_sub_disp v) (seed_bbox_of v bbox) in
  0 <= x < cols seed -> 0 <= y < rows seed -> px seed x y = Some d ->
  (inject_Z (fst (BBox2i.min r))
     <= inject_Z (fst d) * fst (m_upscale_factor v) /\
   (inject_Z (fst d) + 1) * fst (m_upscale_factor v)
     <= inject_Z (fst (BBox2i.max r)) /\
   inject_Z (snd (BBox2i.min r))
     <= inject_Z (snd d) * snd (m_upscale_factor v) /\
   (inject_Z (snd d) + 1) * snd (m_upscale_factor v)
     <= inject_Z (snd (BBox2i.max r)))%Q.
Proof.
  intros Hm Hh _ Hx Hy Hw Hb Hn Hr seed Hcx Hcy Hd.
  apply local_search_range_seeded in Hr as [_ Hr]; [|exact Hm]. subst r.
  assert (S0 : seed_range s ts v bbox = get_disparity_range seed).
  { unfold seed_range. rewrite Hh. reflexivity. }
  pose proof (get_disparity_range_holds seed x y d Hcx Hcy Hd) as G.
  rewrite <- S0 in G.
  assert (Sub : BBox2f.subset (seed_range s ts v bbox)
                              (unrounded_range s ts v bbox)).
  { destruct (has_sub_disp_spread v) eqn:E.
    - destruct v as [lc lr sd sp lh uf sbx tw].
      apply (unrounded_range_superset s ts
               (mkView lc lr sd sp lh uf sbx tw) sp bbox).
      + intros _. apply Hn. reflexivity.
      + intros C. congruence.
    - unfold unrounded_range. rewrite E. apply BBox2f_subset_refl. }
  destruct Sub as (S1 & S2 & S3 & S4).
  destruct G as [[G1 G2] [G3 G4]].
  pose proof (within_nonneg _ _ Hw) as HM0.
  assert (HU : 1 <= U).
  { assert (0 < U); [|lia]. rewrite Zlt_Qlt.
    assert (Pm : (0 < DBL_MIN)%Q) by apply pow2_pos.
    destruct Hx as [Hx1 Hx2].
    set (m := DBL_MIN) in *. clearbody m. change (inject_Z 0) with 0%Q. lra. }
  assert (HM : M + 1 <= 2 ^ 24) by nia.
  pose proof Hw as (W1 & W2 & W3 & W4).
  assert (D1 : - M <= fst d <= M).
  { apply float32_int_within; [exact HM0|exact HM|]. split; lra. }
  assert (D2 : - M <= snd d <= M).
  { apply float32_int_within; [exact HM0|exact HM|]. split; lra. }
  rewrite (float32_Z (fst d)) in G1, G2 by lia.
  rewrite (float32_Z (snd d)) in G3, G4 by lia.
  apply (round_expand_scale_holds _ _ d M U); try assumption.
  repeat split; lra.
Qed.

Lemma local_search_range_holds_seed_witness :
  (inject_Z 24 <= inject_Z 4 * 8 /\
   (inject_Z 4 + 1) * 8 <= inject_Z 48 /\
   inject_Z (-24) <= inject_Z (-2) * 8 /\
   (inject_Z (-2) + 1) * 8 <= inject_Z 0)%Q.
Proof.
  apply (local_search_range_holds_seed
           (sample_settings 1 false) 1024
           (sample_view (const_image 2 2 (Some (4, -2))) no_image
                        (BBox2i.xywh 0 0 16 16))
           sample_tile (BBox2i.mk (24, -24) (48, 0)) 0 0 (4, -2) 4 8).
  - simpl. lia.
  - reflexivity.
  - split; [reflexivity|]. intros C. discriminate C.
  - vm_compute. split; discriminate.
  - vm_compute. split; discriminate.
  - vm_compute. repeat split; discriminate.
  - lia.
  - intros C. discriminate C.
  - vm_compute. reflexivity.
  - vm_compute. split; [discriminate|reflexivity].
  - vm_compute. split; [discriminate|reflexivity].
  - reflexivity.
Defined.

(** ** The search range read back from D_sub *)

Lemma only_search_range_changes_refl (w : World) :
  only_search_range_changes w w.
Proof.
  unfold only_search_range_changes. repeat split.
  destruct (stereo_settings w). reflexivity.
Qed.

Lemma only_search_range_changes_trans (a b c : World) :
  only_search_range_changes a b -> only_search_range_changes b c ->
  only_search_range_changes a c.
Proof.
  intros (F1 & E1 & S1) (F2 & E2 & S2). repeat split; try congruence.
  rewrite S2 at 1. rewrite S1. reflexivity.
Qed.

Lemma open_image_result (f : string) (w : World) :
  (exists img, files w !! f = Some (ImageFile img) /\
               open_image f w = (inr img, w)) \/
  (exists e, open_image f w = (inl e, w) /\
             is_IOErr_or_ArgumentErr e = true /\
             readable_image w f = false).
Proof.
  unfold open_image, readable_image.
  destruct (files w !! f) as [[img| |]|]; eauto 6.
Qed.

Lemma bind_throw {A B} (m : M World A) (k : A -> M World B) (w w' : World)
    (e : Exception) :
  m w = (inl e, w') -> bind m k w = (inl e, w').
Proof. intros H. unfold bind. rewrite H. reflexivity. Qed.

(** What [read_search_range] can change. *)
Lemma read_search_range_changes (opt : ASPGlobalOptions) (w : World) :
  only_search_range_changes w (snd (read_search_range opt w)) /\
  (seed_mode (stereo_settings w) = 0 ->
   read_search_range opt w = (inr tt, w)) /\
  (files w !! (out_prefix opt +:+ "-D_sub.tif") = None ->
   snd (read_search_range opt w) = w).
Proof.
  unfold read_search_range. rewrite bind_get_settings.
  destruct (seed_mode (stereo_settings w) =? 0) eqn:E0.
  { split; [apply only_search_range_changes_refl|].
    split; intros _; reflexivity. }
  assert (G : forall A (k : DispSeedImageType -> M World A) f,
            (forall img, only_search_range_changes w (snd (k img w)) /\
                         (files w !! (out_prefix opt +:+ "-D_sub.tif") = None
                          -> snd (k img w) = w)) ->
            only_search_range_changes w (snd (bind (open_image f) k w)) /\
            (files w !! (out_prefix opt +:+ "-D_sub.tif") = None ->
             snd (bind (open_image f) k w) = w)).
  { intros A k f Hk.
    destruct (open_image_result f w) as [(img & Hf & _)|(e & He & _)].
    - rewrite (bind_open_image _ _ _ _ Hf). apply Hk.
    - rewrite (bind_throw _ _ _ _ _ He). split; [|reflexivity].
      apply only_search_range_changes_refl. }
  match goal with
  | |- only_search_range_changes w (snd ?X) /\ _ =>
      assert (T : only_search_range_changes w (snd X) /\
                  (files w !! (out_prefix opt +:+ "-D_sub.tif") = None ->
                   snd X = w))
  end.
  { apply G. intros Lmask. apply G. intros Rmask. apply G. intros left_sub.
    apply G. intros right_sub. cbv zeta. rewrite bind_fs_exists.
    destruct (files w !! (out_prefix opt +:+ "-D_sub.tif")) as [fl|] eqn:Ed.
    - replace (bool_decide (is_Some (Some fl))) with true
        by (symmetry; apply bool_decide_eq_true_2; eauto).
      cbn [negb]. split; [|discriminate].
      destruct (open_image_result (out_prefix opt +:+ "-D_sub.tif") w)
        as [(img & Hf & _)|(e & He & _)].
      + rewrite (bind_open_image _ _ _ _ Hf). cbn.
        repeat split.
      + rewrite (bind_throw _ _ _ _ _ He).
        apply only_search_range_changes_refl.
    - replace (bool_decide (is_Some (@None File))) with false
        by (symmetry; apply bool_decide_eq_false_2; intros [? C];
            discriminate C).
      cbn [negb]. split; [|reflexivity].
      apply only_search_range_changes_refl. }
  destruct T as [T1 T2]. split; [exact T1|]. split; [|exact T2].
  intros C. rewrite C in E0. discriminate E0.
Qed.

(** X5. [read_search_range] touches nothing but the search range: files,
    events and every other setting are as before, whether it returns or
    throws. In seed mode 0, and when D_sub does not exist, it changes
    nothing at all. *)
Theorem read_search_range_frame (opt : ASPGlobalOptions) (w : World) :
  only_search_range_changes w (snd (read_search_range opt w)) /\
  (seed_mode (stereo_settings w) = 0 ->
   read_search_range opt w = (inr tt, w)) /\
  (files w !! (out_prefix opt +:+ "-D_sub.tif") = None ->
   snd (read_search_range opt w) = w).
Proof. exact (read_search_range_changes opt w). Qed.

Lemma read_search_range_frame_witness :
  only_search_range_changes cached_world
    (snd (read_search_range sample_opt cached_world)) /\
  snd (read_search_range sample_opt quantile_world) = quantile_world.
Proof.
  split.
  - apply (proj1 (read_search_range_frame sample_opt cached_world)).
  - apply (proj2 (proj2 (read_search_range_frame sample_opt quantile_world))).
    reflexivity.
Defined.

Lemma Qdiv_pos (a b : Z) : 0 < a -> 0 < b -> (0 < inject_Z a / inject_Z b)%Q.
Proof.
  intros Ha Hb. unfold Qdiv. apply Qmult_lt_0_compat.
  - change 0%Q with (inject_Z 0). rewrite <- Zlt_Qlt. exact Ha.
  - apply Qinv_lt_0_compat. change 0%Q with (inject_Z 0).
    rewrite <- Zlt_Qlt. exact Hb.
Qed.

Lemma Qceiling_le_floor_succ (y : Q) : Qceiling y <= Qfloor y + 1.
Proof.
  pose proof (Qceiling_lt y) as H1. pose proof (Qlt_floor y) as H2.
  pose proof (Qlt_trans _ _ _ H1 H2) as H. rewrite <- Zlt_Qlt in H. lia.
Qed.

(** A corner [a] of the range of D_sub, divided by the measured downsample
    scale of an axis: floor and ceiling of the [double] quotient bracket
    the exact quotient and are kept by the conversion to [int]. *)
Lemma corner_to_fullres (a c C B : Z) :
  0 < c < 2 ^ 31 -> 0 < C < 2 ^ 31 -> Z.abs a <= B -> B * C < 2 ^ 30 ->
  let y := ddiv (inject_Z a) (ddiv (inject_Z c) (inject_Z C)) in
  let x := (inject_Z a / (inject_Z c / inject_Z C))%Q in
  int32_of_double (inject_Z (Qfloor y)) = Qfloor y /\
  int32_of_double (inject_Z (Qceiling y)) = Qceiling y /\
  (inject_Z (Qfloor y) <= x <= inject_Z (Qceiling y))%Q.
Proof.
  intros Hc HC Ha HB y x.
  pose proof (inject_Z_pos c (proj1 Hc)) as Pc.
  pose proof (inject_Z_pos C (proj1 HC)) as PC.
  assert (H51 : Z.abs a * C < 2 ^ 51) by nia.
  destruct (ddiv_ratio_floor_ceil a c C Hc HC H51) as [F1 F2].
  fold y in F1, F2. fold x in F1, F2.
  assert (X : (x == inject_Z (a * C) / inject_Z c)%Q)
    by (unfold x; rewrite inject_Z_mult; field; split; lra).
  assert (K1 : - B <= a <= B) by lia.
  assert (K2 : - (B * C) <= a * C <= B * C) by nia.
  assert (K3 : B * C <= B * C * c) by nia.
  assert (X1 : (x <= inject_Z (B * C))%Q).
  { rewrite X. apply Qle_shift_div_r; [exact Pc|].
    rewrite <- inject_Z_mult, <- Zle_Qle. lia. }
  assert (X2 : (inject_Z (- (B * C)) <= x)%Q).
  { rewrite X. apply Qle_shift_div_l; [exact Pc|].
    rewrite <- inject_Z_mult, <- Zle_Qle.
    replace (- (B * C) * c) with (- (B * C * c)) by ring. lia. }
  pose proof (Qle_trans _ _ _ F1 X1) as T1. rewrite <- Zle_Qle in T1.
  pose proof (Qle_trans _ _ _ X2 F2) as T2. rewrite <- Zle_Qle in T2.
  pose proof (Qceiling_le_floor_succ y) as T3.
  split; [|split; [|split; assumption]].
  - apply int32_of_double_Z; [reflexivity|lia].
  - apply int32_of_double_Z; [reflexivity|lia].
Qed.

(** X6. With its four images and D_sub readable, images of positive sizes
    and seed mode not 0, [read_search_range] returns and sets a search
    range whose corners bound every valid disparity of D_sub divided by
    the ratio of the sizes: [min <= d / scale <= max] on both axes, bounds
    included. The max corner can be the largest scaled disparity itself,
    which a box with exclusive max does not contain. The disparities of
    D_sub are within [-B, B], [B] at most [2 ^ 24] and [B] times the size
    of the full image below [2 ^ 30]. *)
Theorem read_search_range_holds_disparity (opt : ASPGlobalOptions)
    (w : World) (Lmask Rmask left_sub right_sub sub_disp : DispSeedImageType)
    (x y : Z) (d : Vector2i) (B : Z) :
  seed_mode (stereo_settings w) <> 0 ->
  files w !! (out_prefix opt +:+ "-lMask.tif") = Some (ImageFile Lmask) ->
  files w !! (out_prefix opt +:+ "-rMask.tif") = Some (ImageFile Rmask) ->
  files w !! (out_prefix opt +:+ "-L_sub.tif") = Some (ImageFile left_sub) ->
  files w !! (out_prefix opt +:+ "-R_sub.tif") = Some (ImageFile right_sub) ->
  files w !! (out_prefix opt +:+ "-D_sub.tif") = Some (ImageFile sub_disp) ->
  0 < cols left_sub < 2 ^ 31 -> 0 < rows left_sub < 2 ^ 31 ->
  0 < cols Lmask < 2 ^ 31 -> 0 < rows Lmask < 2 ^ 31 ->
  bounded_field B sub_disp -> B <= 2 ^ 24 ->
  B * cols Lmask < 2 ^ 30 -> B * rows Lmask < 2 ^ 30 ->
  0 <= x < cols sub_disp -> 0 <= y < rows sub_disp ->
  px sub_disp x y = Some d ->
  exists R : BBox2i.t,
    read_search_range opt w =
      (inr tt, mkWorld (set_search_range R (stereo_settings w)) (files w)
                       (events w)) /\
    let sx := (inject_Z (cols left_sub) / inject_Z (cols Lmask))%Q in
    let sy := (inject_Z (rows left_sub) / inject_Z (rows Lmask))%Q in
    (inject_Z (fst (BBox2i.min R)) <= inject_Z (fst d) / sx /\
     inject_Z (fst d) / sx <= inject_Z (fst (BBox2i.max R)) /\
     inject_Z (snd (BBox2i.min R)) <= inject_Z (snd d) / sy /\
     inject_Z (snd d) / sy <= inject_Z (snd (BBox2i.max R)))%Q.
Proof.
  intros Hm H1 H2 H3 H4 H5 Hc Hr HC HR Hbd HB HBx HBy Hx Hy Hd.
  unfold read_search_range. rewrite bind_get_settings.
  apply Z.eqb_neq in Hm. rewrite Hm.
  rewrite (bind_open_image _ _ _ _ H1). cbv beta.
  rewrite (bind_open_image _ _ _ _ H2). cbv beta.
  rewrite (bind_open_image _ _ _ _ H3). cbv beta.
  rewrite (bind_open_image _ _ _ _ H4). cbv beta zeta.
  rewrite bind_fs_exists, H5.
  replace (bool_decide (is_Some (Some (ImageFile sub_disp)))) with true
    by (symmetry; apply bool_decide_eq_true_2; eauto).
  cbn [negb]. rewrite (bind_open_image _ _ _ _ H5). cbv beta.
  eexists. split; [reflexivity|].
  destruct (get_disparity_range_cases sub_disp)
    as [[Hn _]|(lo & hi & E & Hb & (a1 & I1 & E1) & (a2 & I2 & E2) &
                (a3 & I3 & E3) & (a4 & I4 & E4))].
  { specialize (Hn x y Hx Hy). congruence. }
  assert (Bd : forall v, In (Some v) (pixels sub_disp) ->
                         Z.abs (fst v) <= B /\ Z.abs (snd v) <= B).
  { intros v Hv. apply in_pixels in Hv as (x' & y' & Hx' & Hy' & Hv).
    apply (Hbd x' y' v Hx' Hy'). symmetry. exact Hv. }
  pose proof (Bd _ I1) as [L1 _]. pose proof (Bd _ I2) as [_ L2].
  pose proof (Bd _ I3) as [L3 _]. pose proof (Bd _ I4) as [_ L4].
  rewrite <- E1 in L1. rewrite <- E2 in L2.
  rewrite <- E3 in L3. rewrite <- E4 in L4.
  assert (Hin : In (Some d) (pixels sub_disp)).
  { apply in_pixels. exists x, y. auto. }
  destruct (Hb d Hin) as [[D1 D2] [D3 D4]].
  rewrite E.
  change (BBox2f.mk (to_Vector2f lo) (to_Vector2f hi))
    with (BBox2f.of_int (BBox2i.mk lo hi)).
  rewrite through_float_box
    by (unfold fits_float; cbn [fst snd BBox2i.min BBox2i.max]; lia).
  unfold downsample_scale_of, elem_quot, floor2, ceil2, to_Vector2,
    to_Vector2i.
  cbn [fst snd BBox2i.min BBox2i.max].
  destruct (corner_to_fullres (fst lo) _ _ B Hc HC L1 HBx) as (A1 & _ & A2 & _).
  destruct (corner_to_fullres (snd lo) _ _ B Hr HR L2 HBy) as (A3 & _ & A4 & _).
  destruct (corner_to_fullres (fst hi) _ _ B Hc HC L3 HBx) as (_ & A5 & _ & A6).
  destruct (corner_to_fullres (snd hi) _ _ B Hr HR L4 HBy) as (_ & A7 & _ & A8).
  cbv zeta in *. rewrite A1, A3, A5, A7.
  pose proof (Qdiv_pos _ _ (proj1 Hc) (proj1 HC)) as Sx.
  pose proof (Qdiv_pos _ _ (proj1 Hr) (proj1 HR)) as Sy.
  repeat split.
  - eapply Qle_trans; [exact A2|]. apply Qdiv_le_mono; [exact Sx|].
    rewrite <- Zle_Qle. exact D1.
  - eapply Qle_trans; [|exact A6]. apply Qdiv_le_mono; [exact Sx|].
    rewrite <- Zle_Qle. exact D2.
  - eapply Qle_trans; [exact A4|]. apply Qdiv_le_mono; [exact Sy|].
    rewrite <- Zle_Qle. exact D3.
  - eapply Qle_trans; [|exact A8]. apply Qdiv_le_mono; [exact Sy|].
    rewrite <- Zle_Qle. exact D4.
Qed.

Lemma read_search_range_holds_disparity_witness :
  exists R : BBox2i.t,
    read_search_range sample_opt cached_world =
      (inr tt, mkWorld (set_search_range R (stereo_settings cached_world))
                       (files cached_world) (events cached_world)) /\
    (inject_Z (fst (BBox2i.min R)) <= inject_Z 1 / (inject_Z 2 / inject_Z 16)
     /\ inject_Z 1 / (inject_Z 2 / inject_Z 16)
        <= inject_Z (fst (BBox2i.max R)))%Q.
Proof.
  destruct (read_search_range_holds_disparity
              sample_opt cached_world
              (const_image 16 16 None) (const_image 16 16 None)
              (const_image 2 2 None) (const_image 2 2 None)
              (const_image 2 2 (Some (1, 1))) 0 0 (1, 1) 1)
    as (R & E & B1 & B2 & _);
    try reflexivity; try (cbn; lia); try discriminate.
  - intros x y v _ _ Hv. cbn in Hv. injection Hv as <-. cbn. lia.
  - exists R. split; [exact E|]. split; assumption.
Defined.

(** ** The low-resolution stage in seed mode 1 *)





(** X8. The only file the stage writes in seed mode 1 is D_sub: after it,
    D_sub is a readable image and every other file is as before, even if
    [read_search_range] throws at the end. *)
Theorem lowres_writes_only_dsub
    (pyramid_correlate : PyramidArgs -> DispSeedImageType)
    (rm_thresh : Z -> Z -> Q -> Q -> DispSeedImageType -> DispSeedImageType)
    (rm_quant : Q -> Q -> DispSeedImageType -> DispSeedImageType)
    (dem : ASPGlobalOptions -> M World unit)
    (opt : ASPGlobalOptions) (w : World)
    (Lmask Rmask left_sub right_sub left_mask_sub right_mask_sub
       : DispSeedImageType) :
  files w !! (out_prefix opt +:+ "-lMask.tif") = Some (ImageFile Lmask) ->
  files w !! (out_prefix opt +:+ "-rMask.tif") = Some (ImageFile Rmask) ->
  files w !! (out_prefix opt +:+ "-L_sub.tif") = Some (ImageFile left_sub) ->
  files w !! (out_prefix opt +:+ "-R_sub.tif") = Some (ImageFile right_sub) ->
  files w !! (out_prefix opt +:+ "-lMask_sub.tif") =
    Some (ImageFile left_mask_sub) ->
  files w !! (out_prefix opt +:+ "-rMask_sub.tif") =
    Some (ImageFile right_mask_sub) ->
  seed_mode (stereo_settings w) = 1 ->
  let w' := snd (produce_lowres_disparity pyramid_correlate rm_thresh
                   rm_quant dem opt w) in
  readable_image w' (out_prefix opt +:+ "-D_sub.tif") = true /\
  forall f, f <> out_prefix opt +:+ "-D_sub.tif" ->
            files w' !! f = files w !! f.
Proof.
  intros H1 H2 H3 H4 H5 H6 Hm w'. subst w'.
  destruct (produce_lowres_disparity_seed1 pyramid_correlate rm_thresh
              rm_quant dem opt w _ _ _ _ _ _ H1 H2 H3 H4 H5 H6 Hm)
    as (args & filter & img & E & _).
  rewrite E.
  destruct (read_search_range_changes opt
              (mkWorld (stereo_settings w)
                 (<[out_prefix opt +:+ "-D_sub.tif" := ImageFile img]>
                    (files w))
                 (events w ++ [PyramidCorrelate args; filter])))
    as ((F & _ & _) & _).
  unfold readable_image. rewrite F. cbn [files]. split.
  - rewrite lookup_insert_eq. reflexivity.
  - intros f Hf. rewrite lookup_insert_ne by congruence. reflexivity.
Qed.

Lemma lowres_writes_only_dsub_witness :
  readable_image
    (snd (produce_lowres_disparity sample_correlate sample_thresh
            sample_quant sample_dem sample_opt quantile_world))
    "run-D_sub.tif" = true.
Proof.
  apply (lowres_writes_only_dsub
           sample_correlate sample_thresh sample_quant sample_dem
           sample_opt quantile_world
           (const_image 16 16 None) (const_image 16 16 None)
           (const_image 2 2 None) (const_image 2 2 None)
           (const_image 2 2 None) (const_image 2 2 None)
           eq_refl eq_refl eq_refl eq_refl eq_refl eq_refl eq_refl).
Defined.

(** X9. Running the D_sub block twice: in seed mode 1 with readable
    inputs and the crop test false, the second run always finds the D_sub
    of the first one and reuses it: it invokes no engine and writes
    nothing, whether the first run rebuilt D_sub or reused it. *)
Theorem lowres_second_run_reuses
    (pyramid_correlate : PyramidArgs -> DispSeedImageType)
    (rm_thresh : Z -> Z -> Q -> Q -> DispSeedImageType -> DispSeedImageType)
    (rm_quant : Q -> Q -> DispSeedImageType -> DispSeedImageType)
    (dem : ASPGlobalOptions -> M World unit)
    (opt : ASPGlobalOptions) (w : World)
    (Lmask Rmask left_sub right_sub left_mask_sub right_mask_sub
       : DispSeedImageType) :
  files w !! (out_prefix opt +:+ "-lMask.tif") = Some (ImageFile Lmask) ->
  files w !! (out_prefix opt +:+ "-rMask.tif") = Some (ImageFile Rmask) ->
  files w !! (out_prefix opt +:+ "-L_sub.tif") = Some (ImageFile left_sub) ->
  files w !! (out_prefix opt +:+ "-R_sub.tif") = Some (ImageFile right_sub) ->
  files w !! (out_prefix opt +:+ "-lMask_sub.tif") =
    Some (ImageFile left_mask_sub) ->
  files w !! (out_prefix opt +:+ "-rMask_sub.tif") =
    Some (ImageFile right_mask_sub) ->
  seed_mode (stereo_settings w) = 1 ->
  crop_left_and_right (stereo_settings w) = false ->
  let run := lowres_correlation_dsub pyramid_correlate rm_thresh rm_quant
                                     dem opt in
  let w1 := snd (run w) in
  run w1 = (inr tt,
            logged (UsingCachedDsub (out_prefix opt +:+ "-D_sub.tif")) w1).
Proof.
  intros H1 H2 H3 H4 H5 H6 Hm Hc run w1.
  assert (Hpos : 0 < seed_mode (stereo_settings w)) by lia.
  destruct (lowres_correlation_dsub_reuse_cases pyramid_correlate rm_thresh
              rm_quant dem opt w Hpos) as (R1 & R2 & _).
  assert (K : readable_image w1 (out_prefix opt +:+ "-D_sub.tif") = true /\
              seed_mode (stereo_settings w1) = 1 /\
              crop_left_and_right (stereo_settings w1) = false).
  { subst w1 run.
    destruct (readable_image w (out_prefix opt +:+ "-D_sub.tif")) eqn:Er.
    - rewrite (R1 eq_refl Hc). cbn [snd]. auto.
    - rewrite (R2 eq_refl).
      destruct (produce_lowres_disparity_seed1 pyramid_correlate rm_thresh
                  rm_quant dem opt w _ _ _ _ _ _ H1 H2 H3 H4 H5 H6 Hm)
        as (args & filter & img & E & _).
      rewrite E.
      destruct (read_search_range_changes opt
                  (mkWorld (stereo_settings w)
                     (<[out_prefix opt +:+ "-D_sub.tif" := ImageFile img]>
                        (files w))
                     (events w ++ [PyramidCorrelate args; filter])))
        as ((F & _ & S) & _).
      unfold readable_image. rewrite F, S. cbn [files stereo_settings].
      rewrite lookup_insert_eq. auto. }
  destruct K as (K1 & K2 & K3).
  assert (Hpos1 : 0 < seed_mode (stereo_settings w1)) by lia.
  destruct (lowres_correlation_dsub_reuse_cases pyramid_correlate rm_thresh
              rm_quant dem opt w1 Hpos1) as (Q1 & _).
  apply Q1; assumption.
Qed.

Lemma lowres_second_run_reuses_witness :
  let run := lowres_correlation_dsub sample_correlate sample_thresh
               sample_quant sample_dem sample_opt in
  run (snd (run quantile_world)) =
    (inr tt, logged (UsingCachedDsub "run-D_sub.tif")
                    (snd (run quantile_world))).
Proof.
  apply (lowres_second_run_reuses
           sample_correlate sample_thresh sample_quant sample_dem
           sample_opt quantile_world
           (const_image 16 16 None) (const_image 16 16 None)
           (const_image 2 2 None) (const_image 2 2 None)
           (const_image 2 2 None) (const_image 2 2 None)
           eq_refl eq_refl eq_refl eq_refl eq_refl eq_refl eq_refl eq_refl).
Defined.

(** ** The low-resolution stage in the other cases *)

Lemma frame_bind_open_image {A} (f : string)
    (k : DispSeedImageType -> M World A) (w : World) :
  (forall img, only_search_range_changes w (snd (k img w))) ->
  only_search_range_changes w (snd (bind (open_image f) k w)).
Proof.
  intros Hk.
  destruct (open_image_result f w) as [(img & Hf & _)|(e & He & _)].
  - rewrite (bind_open_image _ _ _ _ Hf). apply Hk.
  - rewrite (bind_throw _ _ _ _ _ He). apply only_search_range_changes_refl.
Qed.

(** X10. In a seed mode other than 1 and 2, among them mode 3 where D_sub
    is supplied from outside, [produce_lowres_disparity] produces nothing:
    no engine call, no filter, no call to the DEM collaborator, no file
    written. It only reads the search range back from D_sub. *)
Theorem produce_lowres_disparity_other_modes
    (pyramid_correlate : PyramidArgs -> DispSeedImageType)
    (rm_thresh : Z -> Z -> Q -> Q -> DispSeedImageType -> DispSeedImageType)
    (rm_quant : Q -> Q -> DispSeedImageType -> DispSeedImageType)
    (dem : ASPGlobalOptions -> M World unit)
    (opt : ASPGlobalOptions) (w : World) :
  seed_mode (stereo_settings w) <> 1 ->
  seed_mode (stereo_settings w) <> 2 ->
  only_search_range_changes w
    (snd (produce_lowres_disparity pyramid_correlate rm_thresh rm_quant dem
                                   opt w)).
Proof.
  intros N1 N2. unfold produce_lowres_disparity.
  do 6 (apply frame_bind_open_image; intros ?). cbv zeta.
  rewrite bind_get_settings.
  apply Z.eqb_neq in N1, N2. rewrite N1, N2.
  apply (read_search_range_changes opt w).
Qed.

Lemma produce_lowres_disparity_other_modes_witness :
  only_search_range_changes
    (sample_world (sample_settings 3 false) sample_files)
    (snd (produce_lowres_disparity sample_correlate sample_thresh
            sample_quant sample_dem sample_opt
            (sample_world (sample_settings 3 false) sample_files))).
Proof.
  apply (produce_lowres_disparity_other_modes
           sample_correlate sample_thresh sample_quant sample_dem sample_opt
           (sample_world (sample_settings 3 false) sample_files));
    discriminate.
Defined.

(** X11. When one of the six images the stage opens is missing or does not
    open, [produce_lowres_disparity] throws [IOErr] or [ArgumentErr] and
    leaves the world as it was: the engine is not invoked and nothing is
    written, in every seed mode. *)
Theorem produce_lowres_disparity_unreadable_input
    (pyramid_correlate : PyramidArgs -> DispSeedImageType)
    (rm_thresh : Z -> Z -> Q -> Q -> DispSeedImageType -> DispSeedImageType)
    (rm_quant : Q -> Q -> DispSeedImageType -> DispSeedImageType)
    (dem : ASPGlobalOptions -> M World unit)
    (opt : ASPGlobalOptions) (w : World) (suffix : string) :
  In suffix lowres_inputs ->
  readable_image w (out_prefix opt +:+ suffix) = false ->
  exists e,
    produce_lowres_disparity pyramid_correlate rm_thresh rm_quant dem opt w =
      (inl e, w) /\
    is_IOErr_or_ArgumentErr e = true.
Proof.
  intros Hin Hu. unfold produce_lowres_disparity.
  destruct (open_image_result (out_prefix opt +:+ "-lMask.tif") w)
    as [(i1 & F1 & _)|(e & He & Hc & _)];
    [rewrite (bind_open_image _ _ _ _ F1)
    |exists e; rewrite (bind_throw _ _ _ _ _ He); auto].
  destruct (open_image_result (out_prefix opt +:+ "-rMask.tif") w)
    as [(i2 & F2 & _)|(e & He & Hc & _)];
    [rewrite (bind_open_image _ _ _ _ F2)
    |exists e; rewrite (bind_throw _ _ _ _ _ He); auto].
  destruct (open_image_result (out_prefix opt +:+ "-L_sub.tif") w)
    as [(i3 & F3 & _)|(e & He & Hc & _)];
    [rewrite (bind_open_image _ _ _ _ F3)
    |exists e; rewrite (bind_throw _ _ _ _ _ He); auto].
  destruct (open_image_result (out_prefix opt +:+ "-R_sub.tif") w)
    as [(i4 & F4 & _)|(e & He & Hc & _)];
    [rewrite (bind_open_image _ _ _ _ F4)
    |exists e; rewrite (bind_throw _ _ _ _ _ He); auto].
  destruct (open_image_result (out_prefix opt +:+ "-lMask_sub.tif") w)
    as [(i5 & F5 & _)|(e & He & Hc & _)];
    [rewrite (bind_open_image _ _ _ _ F5)
    |exists e; rewrite (bind_throw _ _ _ _ _ He); auto].
  destruct (open_image_result (out_prefix opt +:+ "-rMask_sub.tif") w)
    as [(i6 & F6 & _)|(e & He & Hc & _)];
    [|exists e; rewrite (bind_throw _ _ _ _ _ He); auto].
  exfalso. unfold readable_image in Hu.
  unfold lowres_inputs in Hin. simpl in Hin.
  destruct Hin as [<-|[<-|[<-|[<-|[<-|[<-|[]]]]]]];
    rewrite ?F1, ?F2, ?F3, ?F4, ?F5, ?F6 in Hu; discriminate Hu.
Qed.

Lemma produce_lowres_disparity_unreadable_input_witness :
  exists e,
    produce_lowres_disparity sample_correlate sample_thresh sample_quant
      sample_dem sample_opt
      (sample_world (sample_settings 1 false)
                    (delete "run-R_sub.tif" sample_files)) =
      (inl e, sample_world (sample_settings 1 false)
                           (delete "run-R_sub.tif" sample_files)) /\
    is_IOErr_or_ArgumentErr e = true.
Proof.
  apply (produce_lowres_disparity_unreadable_input
           sample_correlate sample_thresh sample_quant sample_dem sample_opt
           (sample_world (sample_settings 1 false)
                         (delete "run-R_sub.tif" sample_files))
           "-R_sub.tif").
  - simpl. auto.
  - reflexivity.
Defined.

(** ** The range of the matched interest points is a proper box *)

(** X12. When a pair survives the two tests of the loop over the matches
    and the differences kept are values of [int], the range is never an
    empty box, even for a single surviving pair or for pairs with equal
    differences. *)
Theorem ip_search_range_not_empty (al ar : Matrix3x3) (ls rs : Vector2)
    (ip1 ip2 : list InterestPoint) :
  let pts := surviving_disparities al ar ls rs ip1 ip2 in
  pts <> [] -> (forall d, In d pts -> fits_int d) ->
  BBox2i.empty (ip_search_range al ar ls rs ip1 ip2) = false.
Proof.
  intros pts Hne Hf.
  assert (E : ip_search_range al ar ls rs ip1 ip2 =
              grow_bbox2_to_int (fold_left BBox2.grow_point pts
                                           BBox2.default)).
  { unfold ip_search_range. rewrite fold_ip_loop_body. reflexivity. }
  rewrite E. clear E.
  destruct pts as [|p rest]; [congruence|].
  cbn [fold_left].
  assert (Fp : fits_int p) by (apply Hf; left; reflexivity).
  rewrite (grow_default p) by exact Fp.
  destruct (BBox2_fold_fits rest (BBox2.mk p p) Fp Fp) as [A B].
  { intros d Hd. apply Hf. right. exact Hd. }
  assert (H : holds (fold_left BBox2.grow_point rest (BBox2.mk p p)) p).
  { apply BBox2_fold_keeps. unfold holds.
    cbn [fst snd BBox2.min BBox2.max]. repeat split; apply Qle_refl. }
  destruct (grow_bbox2_to_int_inside _ p A B H) as (I1 & I2 & I3 & I4).
  pose proof (Qle_lt_trans _ _ _ I1 I2) as Tx.
  pose proof (Qle_lt_trans _ _ _ I3 I4) as Ty.
  rewrite <- Zlt_Qlt in Tx, Ty.
  unfold BBox2i.empty. apply orb_false_iff. split; apply Z.leb_gt; assumption.
Qed.

Lemma ip_search_range_not_empty_witness :
  BBox2i.empty (ip_search_range proj_left identity_matrix (16, 16)%Q
                                (16, 16)%Q sample_ip1 sample_ip2) = false.
Proof.
  apply (ip_search_range_not_empty proj_left identity_matrix
           (16, 16)%Q (16, 16)%Q sample_ip1 sample_ip2).
  - vm_compute. discriminate.
  - intros d Hd. vm_compute in Hd. destruct Hd as [<-|[]].
    vm_compute. repeat split; discriminate.
Defined.

(** ** Interest-point matching: the other outcomes *)

(** X13. When [ip_matching] runs the matcher and the matcher finds
    inliers, it returns true and leaves the world exactly as the matcher
    left it, match file included. With both crop windows set this is the
    path taken even when a match file already exists: the file is not
    reused, the matcher is run again. *)
Theorem ip_matching_inliers (wa hm : string -> M World bool)
    (nadir_facing : bool) (input_file1 input_file2 match_filename : string)
    (image1 image2 : DispSeedImageType) (w w1 : World) :
  crop_left_and_right (stereo_settings w) = true \/
    files w !! match_filename = None ->
  files w !! input_file1 = Some (ImageFile image1) ->
  files w !! input_file2 = Some (ImageFile image2) ->
  selected_matcher wa hm nadir_facing match_filename w = (inr true, w1) ->
  ip_matching wa hm nadir_facing input_file1 input_file2 match_filename w =
    (inr true, w1).
Proof.
  intros Hc H1 H2 Hm.
  unfold ip_matching. rewrite bind_get_settings, bind_fs_exists.
  assert (Hb : negb (crop_left_and_right (stereo_settings w)) &&
               bool_decide (is_Some (files w !! match_filename)) = false).
  { destruct Hc as [Hc|Hc]; rewrite Hc; [reflexivity|].
    rewrite andb_false_r. reflexivity. }
  rewrite Hb.
  rewrite (bind_open_image _ _ _ _ H1), (bind_open_image _ _ _ _ H2).
  unfold selected_matcher in Hm. unfold bind at 1.
  destruct nadir_facing; rewrite bind_log_event, Hm; reflexivity.
Qed.

(** X14. When [ip_matching] does not use a cached match file and one of
    the two input images is missing or does not open, it throws [IOErr] or
    [ArgumentErr] before any matcher is run: the world is left as it was,
    nothing is logged and no file is removed. *)
Theorem ip_matching_unreadable_input (wa hm : string -> M World bool)
    (nadir_facing : bool) (input_file1 input_file2 match_filename : string)
    (w : World) :
  crop_left_and_right (stereo_settings w) = true \/
    files w !! match_filename = None ->
  readable_image w input_file1 = false \/
    readable_image w input_file2 = false ->
  exists e,
    ip_matching wa hm nadir_facing input_file1 input_file2 match_filename w =
      (inl e, w) /\
    is_IOErr_or_ArgumentErr e = true.
Proof.
  intros Hc Hu.
  unfold ip_matching. rewrite bind_get_settings, bind_fs_exists.
  assert (Hb : negb (crop_left_and_right (stereo_settings w)) &&
               bool_decide (is_Some (files w !! match_filename)) = false).
  { destruct Hc as [Hc|Hc]; rewrite Hc; [reflexivity|].
    rewrite andb_false_r. reflexivity. }
  rewrite Hb.
  destruct (open_image_result input_file1 w)
    as [(i1 & F1 & _)|(e & He & Hk & _)];
    [rewrite (bind_open_image _ _ _ _ F1)
    |exists e; rewrite (bind_throw _ _ _ _ _ He); auto].
  destruct (open_image_result input_file2 w)
    as [(i2 & F2 & _)|(e & He & Hk & _)];
    [|exists e; rewrite (bind_throw _ _ _ _ _ He); auto].
  exfalso. unfold readable_image in Hu.
  rewrite F1, F2 in Hu. destruct Hu as [C|C]; discriminate C.
Qed.

Lemma ip_matching_inliers_witness :
  ip_matching matching_matcher matching_matcher true "left.tif" "right.tif"
              "run-left__right.match"
              (sample_world both_crop_settings matched_files) =
    (inr true,
     mkWorld both_crop_settings matched_files
             [IpMatchingWAlignment "run-left__right.match"]).
Proof.
  refine (eq_trans
            (ip_matching_inliers
               matching_matcher matching_matcher true
               "left.tif" "right.tif" "run-left__right.match"
               (const_image 16 16 None) (const_image 16 16 None)
               (sample_world both_crop_settings matched_files)
               _ _ _ _ _) _).
  - left. reflexivity.
  - reflexivity.
  - reflexivity.
  - reflexivity.
  - vm_compute. reflexivity.
Defined.

Lemma ip_matching_unreadable_input_witness :
  exists e,
    ip_matching failing_matcher failing_matcher false "left.tif" "gone.tif"
                "run-left__gone.match"
                (sample_world (sample_settings 1 false) input_files) =
      (inl e, sample_world (sample_settings 1 false) input_files) /\
    is_IOErr_or_ArgumentErr e = true.
Proof.
  apply (ip_matching_unreadable_input
           failing_matcher failing_matcher false "left.tif" "gone.tif"
           "run-left__gone.match"
           (sample_world (sample_settings 1 false) input_files)).
  - right. reflexivity.
  - right. reflexivity.
Defined.

(** ** The preprocessing hook with both crop windows *)

(** X15. With both crop windows set and the two inputs readable,
    [shared_preprocessing_hook] never reuses cached normalized images,
    present or not: it writes the two cropped images, and only them, and
    hands back their names. Each cropped image is the input cropped to its
    window clipped to the image, so it is never larger than the input nor
    than the window. *)
Theorem shared_preprocessing_hook_crops (prefix li ri : string) (w : World)
    (L R : DispSeedImageType) :
  crop_left_and_right (stereo_settings w) = true ->
  files w !! li = Some (ImageFile L) ->
  files w !! ri = Some (ImageFile R) ->
  let s := stereo_settings w in
  let Lc := prefix +:+ "-L-cropped.tif" in
  let Rc := prefix +:+ "-R-cropped.tif" in
  let Limg := crop L (BBox2i.crop (left_image_crop_win s) (bounding_box L)) in
  let Rimg := crop R (BBox2i.crop (right_image_crop_win s) (bounding_box R)) in
  shared_preprocessing_hook prefix li ri w =
    (inr (mkOutputs (prefix +:+ "-L.tif") (prefix +:+ "-R.tif")
                    (Some (Lc, Rc))),
     mkWorld s (<[Rc := ImageFile Rimg]> (<[Lc := ImageFile Limg]> (files w)))
             (events w ++ [WriteCroppedImage Lc; WriteCroppedImage Rc])) /\
  cols Limg <= cols L /\ rows Limg <= rows L /\
  cols Limg <= BBox2i.width (left_image_crop_win s) /\
  rows Limg <= BBox2i.height (left_image_crop_win s) /\
  cols Rimg <= cols R /\ rows Rimg <= rows R /\
  cols Rimg <= BBox2i.width (right_image_crop_win s) /\
  rows Rimg <= BBox2i.height (right_image_crop_win s).
Proof.
  intros Hc HL HR s Lc Rc Limg Rimg. split.
  - unfold shared_preprocessing_hook.
    rewrite bind_get_settings, Hc, !bind_fs_exists.
    cbn [negb]. rewrite andb_false_r.
    unfold bind at 1. unfold ret at 1. cbv iota beta.
    rewrite (bind_open_image _ _ _ _ HL), (bind_open_image _ _ _ _ HR).
    rewrite (bind_open_image _ _ _ _ HL), (bind_open_image _ _ _ _ HR).
    unfold bind, log_event, write_image, modify, ret.
    cbn [fst snd stereo_settings files events].
    rewrite <- app_assoc. reflexivity.
  - subst Limg Rimg.
    unfold crop, bounding_box, BBox2i.crop, BBox2i.xywh, BBox2i.width,
      BBox2i.height.
    cbn [cols rows fst snd BBox2i.min BBox2i.max].
    repeat match goal with
           | |- context [?a <? ?b] => destruct (Z.ltb_spec a b)
           end; lia.
Qed.

Lemma shared_preprocessing_hook_crops_witness :
  fst (shared_preprocessing_hook "run" "left.tif" "right.tif"
         (sample_world both_crop_settings input_files)) =
    inr (mkOutputs "run-L.tif" "run-R.tif"
                   (Some ("run-L-cropped.tif", "run-R-cropped.tif"))) /\
  cols (crop (const_image 16 16 None)
             (BBox2i.crop (BBox2i.xywh 6 2 20 8)
                          (bounding_box (const_image 16 16 None)))) <= 16.
Proof.
  destruct (shared_preprocessing_hook_crops
              "run" "left.tif" "right.tif"
              (sample_world both_crop_settings input_files)
              (const_image 16 16 None) (const_image 16 16 None)
              eq_refl eq_refl eq_refl)
    as (E & _ & _ & _ & _ & C & _).
  split; [rewrite E; reflexivity|exact C].
Defined.

(** ** The pixel offset and the adjusted camera *)

Section AdjustedCamera.

Variable Camera : Type.
Variable Adjustment : Type.
Variable no_adjustment : Adjustment.
Variable AdjustedCameraModel : Camera -> Adjustment -> Vector2 -> Camera.
Variable bundle_adjust_file_name : string -> string -> string -> string.
Variable read_adjustments : string -> Adjustment.

Let load :=
  load_adjusted_model Camera Adjustment no_adjustment AdjustedCameraModel
                      bundle_adjust_file_name read_adjustments.

(** X16. The camera of an image, from [camera_pixel_offset] to
    [load_adjusted_model], without bundle-adjustment prefix. With at most
    one crop window set, or with an input DEM, the camera comes back
    untouched. With both windows set and no DEM, the camera of the left
    image is adjusted by the upper-left corner of the left window and by
    nothing else, and comes back untouched when that corner is the
    origin. *)
Theorem camera_of_cropped_image (s : StereoSettings)
    (found : string -> bool) (cam : Camera)
    (input_dem left_image_file right_image_file camera_file : string)
    (offset : Vector2) :
  camera_pixel_offset s input_dem left_image_file right_image_file
                      left_image_file = inr offset ->
  (crop_left_and_right s = false \/ input_dem <> "" ->
   load "" found cam left_image_file camera_file offset = inr cam) /\
  (crop_left_and_right s = true -> input_dem = "" ->
   offset = to_Vector2 (BBox2i.min (left_image_crop_win s)) /\
   load "" found cam left_image_file camera_file offset =
     inr (if (fst (BBox2i.min (left_image_crop_win s)) =? 0) &&
             (snd (BBox2i.min (left_image_crop_win s)) =? 0)
          then cam
          else AdjustedCameraModel cam no_adjustment offset)).
Proof.
  intros Ho. unfold camera_pixel_offset in Ho.
  fold (crop_left_and_right s) in Ho.
  rewrite String.eqb_refl in Ho.
  split.
  - intros Hc.
    assert (offset = (0%Q, 0%Q)) as ->.
    { destruct (String.eqb_spec input_dem "") as [->|Hd].
      - cbn [negb] in Ho. destruct Hc as [Hc|Hc]; [|congruence].
        rewrite Hc in Ho. injection Ho as <-. reflexivity.
      - cbn [negb] in Ho. injection Ho as <-. reflexivity. }
    reflexivity.
  - intros Hc ->. cbn [negb String.eqb] in Ho. rewrite Hc in Ho.
    injection Ho as <-. split; [reflexivity|].
    subst load. unfold load_adjusted_model, to_Vector2.
    cbn [fst snd String.eqb negb andb].
    destruct (BBox2i.min (left_image_crop_win s)) as [mx my].
    cbn [fst snd].
    assert (Q0 : forall z, Qeq_bool (inject_Z z) 0 = (z =? 0)).
    { intros z. unfold Qeq_bool, inject_Z. cbn [Qnum Qden].
      rewrite Z.mul_1_r. reflexivity. }
    rewrite !Q0.
    destruct ((mx =? 0) && (my =? 0)); reflexivity.
Qed.

End AdjustedCamera.

Lemma camera_of_cropped_image_witness :
  load_adjusted_model SampleCamera string "none" Adjusted sample_adjust_file
    (fun f => f) "" (fun _ => false) (PlainCamera "left") "left.tif"
    "left.cam" (to_Vector2 (4, 4)) =
  inr (Adjusted (PlainCamera "left") "none" (to_Vector2 (4, 4))).
Proof.
  apply (proj2 (camera_of_cropped_image
                  SampleCamera string "none" Adjusted sample_adjust_file
                  (fun f => f) both_crop_settings (fun _ => false)
                  (PlainCamera "left") "" "left.tif" "right.tif" "left.cam"
                  (to_Vector2 (4, 4)) eq_refl) eq_refl eq_refl).
Defined.

(** ** The set-up of the full-resolution correlation *)

(** X17. The choice of the cost function succeeds exactly for the modes 0
    to 2, and for the census modes 3 and 4 when SGM is in use; every other
    configuration is rejected with [ArgumentErr]. In particular a census
    cost function is never handed to the engine without SGM. *)
Theorem select_cost_mode_accepts (cost_mode : Z) (use_sgm : bool) :
  ((exists c, select_cost_mode cost_mode use_sgm = inr c) <->
   0 <= cost_mode <= 2 \/ (3 <= cost_mode <= 4 /\ use_sgm = true)) /\
  (forall e, select_cost_mode cost_mode use_sgm = inl e ->
             exists msg, e = ArgumentErr msg) /\
  (forall c, select_cost_mode cost_mode use_sgm = inr c ->
             c = CENSUS_TRANSFORM \/ c = TERNARY_CENSUS_TRANSFORM ->
             use_sgm = true).
Proof.
  unfold select_cost_mode.
  destruct (Z.eqb_spec cost_mode 0) as [E0|N0];
    [|destruct (Z.eqb_spec cost_mode 1) as [E1|N1];
      [|destruct (Z.eqb_spec cost_mode 2) as [E2|N2];
        [|destruct (Z.eqb_spec cost_mode 3) as [E3|N3];
          [|destruct (Z.eqb_spec cost_mode 4) as [E4|N4]]]]];
    destruct use_sgm; cbn [negb];
    (split; [split; [intros [c Hc]; try discriminate Hc; lia
                    |intros [H|[H E]]; try discriminate E; try lia; eauto]
            |split; [intros x Hx; try discriminate Hx;
                     injection Hx as <-; eauto
                    |intros c Hc [->| ->]; try discriminate Hc;
                     reflexivity]]).
Qed.

Lemma select_cost_mode_accepts_witness :
  (exists msg,
     ArgumentErr ("Cannot use census transform without SGM!" +:+ newline) =
     ArgumentErr msg) /\
  (exists c, select_cost_mode 4 true = inr c).
Proof.
  split.
  - apply (proj1 (proj2 (select_cost_mode_accepts 3 false))). reflexivity.
  - apply (proj1 (select_cost_mode_accepts 4 true)). right. split; [lia|].
    reflexivity.
Defined.

(** X18. The spread field of a run. In seed mode 1 it is optional: the
    loading never throws and never changes the world, and a spread file
    that is missing or does not open leaves the view without spread, so
    [prerasterize_helper] will neither use nor check one. In seed modes 2
    and 3 it is mandatory: a spread file that is missing or does not open
    throws. *)
Theorem load_sub_disp_spread_modes (opt : ASPGlobalOptions) (w : World) :
  let f := out_prefix opt +:+ "-D_sub_spread.tif" in
  (seed_mode (stereo_settings w) = 1 ->
   exists img,
     load_sub_disp_spread opt w = (inr img, w) /\
     (forall sp, files w !! f = Some (ImageFile sp) -> img = sp) /\
     (readable_image w f = false ->
      forall v, has_sub_disp_spread (with_spread v img) = false /\
                spread_size_check_fails (with_spread v img) = false)) /\
  (seed_mode (stereo_settings w) = 2 \/ seed_mode (stereo_settings w) = 3 ->
   readable_image w f = false ->
   exists e, load_sub_disp_spread opt w = (inl e, w) /\
             is_IOErr_or_ArgumentErr e = true).
Proof.
  intros f. subst f. unfold load_sub_disp_spread.
  rewrite bind_get_settings. split.
  - intros Hm. rewrite Hm. cbn [Z.eqb Pos.eqb orb].
    rewrite bind_fs_exists. unfold readable_image, try_catch, open_image.
    destruct (files w !! (out_prefix opt +:+ "-D_sub_spread.tif"))
      as [[sp| |]|] eqn:E;
      cbn [bool_decide decide_rel is_Some_dec];
      rewrite ?E; cbn [catch_all];
      eexists; (split; [reflexivity|]);
      (split; [intros sp' Hs; congruence|]);
      intros Hr v; try discriminate Hr; split; reflexivity.
  - intros Hm Hr.
    assert (Hb : (seed_mode (stereo_settings w) =? 2) ||
                 (seed_mode (stereo_settings w) =? 3) = true).
    { destruct Hm as [-> | ->]; reflexivity. }
    rewrite Hb.
    destruct (open_image_unreadable _ _ Hr) as (e & He & Hc). eauto.
Qed.

Lemma load_sub_disp_spread_modes_witness :
  (exists img,
     load_sub_disp_spread sample_opt cached_world = (inr img, cached_world) /\
     has_sub_disp_spread (with_spread blank_seed_view img) = false) /\
  (exists e,
     load_sub_disp_spread sample_opt
       (sample_world (sample_settings 3 false) sample_files) =
       (inl e, sample_world (sample_settings 3 false) sample_files) /\
     is_IOErr_or_ArgumentErr e = true).
Proof.
  split.
  - destruct (proj1 (load_sub_disp_spread_modes sample_opt cached_world)
                    eq_refl) as (img & E & _ & H).
    exists img. split; [exact E|]. apply H. reflexivity.
  - apply (proj2 (load_sub_disp_spread_modes sample_opt
                    (sample_world (sample_settings 3 false) sample_files))).
    + right. reflexivity.
    + reflexivity.
Defined.

(** ** When a tile fails, and when it is blank *)

Lemma crop_empty_window (bbox win : BBox2i.t) :
  BBox2i.empty win = true -> BBox2i.empty (BBox2i.crop bbox win) = true.
Proof.
  unfold BBox2i.empty, BBox2i.crop. cbn [fst snd BBox2i.min BBox2i.max].
  rewrite !orb_true_iff, !Z.leb_le. intros H.
  repeat match goal with
         | |- context [?a <? ?b] => destruct (Z.ltb_spec a b)
         end; lia.
Qed.

(** X19. With images held in memory, so that reading the seed cannot
    fail: for a tile that intersects the crop window, in seed mode > 0,
    with a spread field whose width and height both differ from the
    seed's, [prerasterize] ends with the [ArgumentErr] of the sanity check,
    with the message of the source, and the engine is not invoked. *)
Theorem prerasterize_throws_on_size_mismatch
    (engine : EngineCall -> CropView) (s : StereoSettings) (ts : Z)
    (v : SeededCorrelatorView) (bbox : BBox2i.t) (log : list EngineCall) :
  BBox2i.empty (BBox2i.crop bbox (m_trans_crop_win v)) = false ->
  0 < seed_mode s ->
  cols (m_sub_disp_spread v) <> 0 -> rows (m_sub_disp_spread v) <> 0 ->
  cols (m_sub_disp_spread v) <> cols (m_sub_disp v) ->
  rows (m_sub_disp_spread v) <> rows (m_sub_disp v) ->
  prerasterize engine s ts v bbox log =
    (inl (ArgumentErr
            ("stereo_corr: D_sub and D_sub_spread must have equal sizes."
             +:+ newline)),
     log).
Proof.
  intros He Hm Hc Hr Hdc Hdr.
  assert (F : spread_size_check_fails v = true).
  { apply spread_size_check_fails_iff. unfold has_sub_disp_spread.
    rewrite andb_true_iff, !negb_true_iff, !Z.eqb_neq. auto. }
  unfold prerasterize, prerasterize_helper, local_search_range,
    local_search_range_f.
  rewrite He. apply Z.ltb_lt in Hm. rewrite Hm, F. reflexivity.
Qed.

Lemma prerasterize_throws_on_size_mismatch_witness :
  prerasterize sample_engine (sample_settings 1 false) 1024
               wrong_spread_view sample_tile [] =
    (inl (ArgumentErr
            ("stereo_corr: D_sub and D_sub_spread must have equal sizes."
             +:+ newline)),
     []).
Proof.
  apply (prerasterize_throws_on_size_mismatch
           sample_engine (sample_settings 1 false) 1024
           wrong_spread_view sample_tile []);
    first [reflexivity | (simpl; lia) | discriminate].
Defined.

(** X20. With an empty crop window, every tile is returned as a blank
    field of the tile's size and the engine is never invoked, whatever the
    seed, the spread and the settings are. *)
Theorem prerasterize_empty_crop_window
    (engine : EngineCall -> CropView) (s : StereoSettings) (ts : Z)
    (v : SeededCorrelatorView) (bbox : BBox2i.t) (log : list EngineCall) :
  BBox2i.empty (m_trans_crop_win v) = true ->
  exists d,
    prerasterize engine s ts v bbox log = (inr d, log) /\
    cols (child d) = BBox2i.width bbox /\
    rows (child d) = BBox2i.height bbox /\
    forall x y, cv_get d x y = None.
Proof.
  intros He. unfold prerasterize.
  rewrite (crop_empty_window bbox _ He).
  eexists. split; [reflexivity|]. simpl. auto.
Qed.

Lemma prerasterize_empty_crop_window_witness :
  exists d,
    prerasterize sample_engine (sample_settings 1 false) 1024
      short_spread_view_no_window sample_tile [] = (inr d, []) /\
    cv_get d 3 3 = None.
Proof.
  destruct (prerasterize_empty_crop_window
              sample_engine (sample_settings 1 false) 1024
              short_spread_view_no_window sample_tile [] eq_refl)
    as (d & E & _ & _ & H).
  exists d. split; [exact E|apply H].
Defined.

(** ** The geometry of the returned tile *)

Lemma same_geometry_refl (a : CropView) : same_geometry a a.
Proof. unfold same_geometry. auto 10. Qed.

Lemma mask_rows_geometry (win : BBox2i.t) (col : Z) (l : list Z) :
  forall d,
    same_geometry
      (fold_left
         (fun d row =>
            if negb (BBox2i.contains win (col, row))
            then cv_set d col row None else d) l d) d.
Proof.
  induction l as [|row l IH]; intros d; [apply same_geometry_refl|].
  simpl. destruct (IH (if negb (BBox2i.contains win (col, row))
                       then cv_set d col row None else d))
    as (A & B & C & D & E & F).
  destruct (negb (BBox2i.contains win (col, row)));
    unfold same_geometry; auto 10.
Qed.

Lemma mask_outside_geometry (win bbox : BBox2i.t) (d : CropView) :
  same_geometry (mask_outside win bbox d) d.
Proof.
  unfold mask_outside.
  generalize (zrange (fst (BBox2i.min bbox)) (fst (BBox2i.max bbox))).
  intros lc. revert d.
  induction lc as [|col lc IH]; intros d; [apply same_geometry_refl|].
  simpl.
  destruct (IH (fold_left
                  (fun d row =>
                     if negb (BBox2i.contains win (col, row))
                     then cv_set d col row None else d)
                  (zrange (snd (BBox2i.min bbox)) (snd (BBox2i.max bbox))) d))
    as (A & B & C & D & E & F).
  destruct (mask_rows_geometry win col
              (zrange (snd (BBox2i.min bbox)) (snd (BBox2i.max bbox))) d)
    as (A' & B' & C' & D' & E' & F').
  unfold same_geometry. repeat split; congruence.
Qed.

(** X21. The masking of [prerasterize] changes pixel values only: the
    field returned for a tile that intersects the crop window has the
    offsets, the extent and the child size of the field the engine
    returned. *)
Theorem prerasterize_keeps_geometry
    (engine : EngineCall -> CropView) (s : StereoSettings) (ts : Z)
    (v : SeededCorrelatorView) (bbox r : BBox2i.t) (log log' : list EngineCall)
    (d : CropView) :
  BBox2i.empty (BBox2i.crop bbox (m_trans_crop_win v)) = false ->
  local_search_range s ts v bbox = inr r ->
  prerasterize engine s ts v bbox log = (inr d, log') ->
  same_geometry d (engine (mkCall (use_local_homography s) r bbox)).
Proof.
  intros He Hr H. unfold prerasterize, prerasterize_helper in H.
  rewrite He, Hr in H. unfold bind, modify, ret in H.
  injection H as <- _. apply mask_outside_geometry.
Qed.

Lemma prerasterize_keeps_geometry_witness :
  same_geometry
    (mask_outside (BBox2i.xywh 0 0 8 8) sample_tile
       (sample_engine (mkCall false (BBox2i.mk (0, 0) (24, 24)) sample_tile)))
    (sample_engine (mkCall false (BBox2i.mk (0, 0) (24, 24)) sample_tile)).
Proof.
  apply (prerasterize_keeps_geometry
           sample_engine (sample_settings 1 false) 1024
           (sample_view (const_image 2 2 (Some (1, 1))) no_image
                        (BBox2i.xywh 0 0 8 8))
           sample_tile (BBox2i.mk (0, 0) (24, 24)) []
           [mkCall false (BBox2i.mk (0, 0) (24, 24)) sample_tile]).
  - reflexivity.
  - reflexivity.
  - vm_compute. reflexivity.
Defined.
